(** * Pawdy: the document chunker, the safety-verdict parser, the answer
      formatter and the query pipeline, embedded from the Go sources.

    Go strings are byte sequences; they are modelled by [string] (a sequence
    of 8-bit [ascii] values), so that [len], indexing and slicing count bytes
    exactly as the Go code does, and Unicode white space is recognised by
    its UTF-8 encoding.  Go's [int] is taken to be 64 bits wide and its
    arithmetic wraps ([wrap64]).  A [float64] is a [spec_float], whose
    comparisons are those of IEEE 754.  Slices of pointers are lists of
    the values pointed to; where the program tells a nil slice from an
    empty one, the slice is an [option]. *)

From Stdlib Require Import ZArith Ascii String List Lia Bool SpecFloat.
From Stdlib Require DecimalString DecimalZ DecimalPos.
From stdpp Require Import base option list gmap strings.

#[local] Open Scope Z_scope.
#[local] Arguments String.append : simpl nomatch.

(** ** Go's integers *)

Definition wrap64 (z : Z) : Z := (z + 2 ^ 63) mod 2 ^ 64 - 2 ^ 63.

Definition len (s : string) : Z := Z.of_nat (String.length s).

(** ** The part of Go's [strings] and [unicode] packages the program uses *)

Module GoStrings.

(** [s[n:]] for [0 <= n <= len(s)]. *)
Fixpoint drop (n : nat) (s : string) : string :=
  match n, s with
  | O, _ => s
  | S _, EmptyString => EmptyString
  | S k, String _ s' => drop k s'
  end.

(** The one-byte white space of [unicode.IsSpace]:
    tab, line feed, vertical tab, form feed, carriage return, space. *)
Definition asciiSpace (c : ascii) : bool :=
  let n := N_of_ascii c in
  ((9 <=? n) && (n <=? 13) || (n =? 32))%N.

Definition byteIs (c : ascii) (n : N) : bool := (N_of_ascii c =? n)%N.

(** U+0085 and U+00A0 in UTF-8: C2 85, C2 A0. *)
Definition uniSpace2 (c1 c2 : ascii) : bool :=
  byteIs c1 194 && (byteIs c2 133 || byteIs c2 160).

(** U+1680, U+2000..U+200A, U+2028, U+2029, U+202F, U+205F, U+3000 in
    UTF-8: E1 9A 80, E2 80 80..8A, E2 80 A8, E2 80 A9, E2 80 AF, E2 81 9F,
    E3 80 80. *)
Definition uniSpace3 (c1 c2 c3 : ascii) : bool :=
  let n3 := N_of_ascii c3 in
  (byteIs c1 225 && byteIs c2 154 && byteIs c3 128)
  || (byteIs c1 226 && byteIs c2 128
      && ((128 <=? n3) && (n3 <=? 138) || byteIs c3 168 || byteIs c3 169
          || byteIs c3 175)%N)
  || (byteIs c1 226 && byteIs c2 129 && byteIs c3 159)
  || (byteIs c1 227 && byteIs c2 128 && byteIs c3 128).

(** The number of bytes of the white-space rune that starts [s], 0 when
    [s] does not start with one.  Every byte of Go's decoding of a string
    that is not a continuation byte starts a rune, and the encodings above
    all start with such a byte, so that a white-space rune sits at a
    position of a Go string exactly when its encoding does. *)
Definition spaceWidth (s : string) : nat :=
  match s with
  | EmptyString => 0
  | String c1 r1 =>
      if asciiSpace c1 then 1
      else match r1 with
           | EmptyString => 0
           | String c2 r2 =>
               if uniSpace2 c1 c2 then 2
               else match r2 with
                    | EmptyString => 0
                    | String c3 _ => if uniSpace3 c1 c2 c3 then 3 else 0
                    end
           end
  end%nat.

(** [strings.TrimLeftFunc(s, unicode.IsSpace)]; [skip] counts the bytes
    left of the white-space rune being dropped. *)
Fixpoint TrimLeft_go (skip : nat) (s : string) : string :=
  match s with
  | EmptyString => EmptyString
  | String _ s' =>
      match skip with
      | S k => TrimLeft_go k s'
      | O => match spaceWidth s with
             | O => s
             | S k => TrimLeft_go k s'
             end
      end
  end.

Definition TrimLeft (s : string) : string := TrimLeft_go 0 s.

(** Is [s] (after [skip] bytes) a sequence of white-space runes? *)
Fixpoint allSpace_go (skip : nat) (s : string) : bool :=
  match s with
  | EmptyString => true
  | String _ s' =>
      match skip with
      | S k => allSpace_go k s'
      | O => match spaceWidth s with
             | O => false
             | S k => allSpace_go k s'
             end
      end
  end.

Definition allSpace (s : string) : bool := allSpace_go 0 s.

(** [strings.TrimRightFunc(s, unicode.IsSpace)]: the shortest prefix of [s]
    that is followed by white-space runes only. *)
Fixpoint TrimRight (s : string) : string :=
  match s with
  | EmptyString => EmptyString
  | String c s' => if allSpace s then EmptyString else String c (TrimRight s')
  end.

(** [strings.TrimSpace]. *)
Definition TrimSpace (s : string) : string := TrimRight (TrimLeft s).

(** [clean s]: no white-space rune starts inside [s]. *)
Fixpoint clean (s : string) : bool :=
  match s with
  | EmptyString => true
  | String _ s' => (spaceWidth s =? 0)%nat && clean s'
  end.

(** A word: what [Fields] returns, and what a chunk is made of. *)
Definition Word (w : string) : Prop := w <> "" /\ clean w = true.

Definition push (w : string) (ws : list string) : list string :=
  match w with
  | EmptyString => ws
  | _ => w :: ws
  end.

(** The field that starts [s] (empty when [s] starts with white space),
    and the fields after it. *)
Fixpoint fields_from (skip : nat) (s : string) : string * list string :=
  match s with
  | EmptyString => (EmptyString, [])
  | String c s' =>
      match skip with
      | S k => let '(w, ws) := fields_from k s' in (EmptyString, push w ws)
      | O => match spaceWidth s with
             | O => let '(w, ws) := fields_from 0 s' in (String c w, ws)
             | S k => let '(w, ws) := fields_from k s' in
                      (EmptyString, push w ws)
             end
      end
  end.

(** [strings.Fields]: the maximal runs of bytes free of white-space
    runes, in order. *)
Definition Fields (s : string) : list string :=
  let '(w, ws) := fields_from 0 s in push w ws.

(** [strings.Join]: how the chunker glues words, with [sep] a space. *)
Definition Join (ws : list string) (sep : string) : string :=
  String.concat sep ws.

Definition lowerByte (c : ascii) : ascii :=
  let n := N_of_ascii c in
  if ((65 <=? n) && (n <=? 90))%N then ascii_of_N (n + 32) else c.

Definition upperByte (c : ascii) : ascii :=
  let n := N_of_ascii c in
  if ((97 <=? n) && (n <=? 122))%N then ascii_of_N (n - 32) else c.

(** [strings.ToLower] on the bytes below 0x80; the other bytes are kept.
    The program compares the result with an ASCII word only, and there the
    two agree: no rune outside ASCII has a lower case in ASCII besides
    U+0130 and U+212A, which map to i and k. *)
Fixpoint ToLower (s : string) : string :=
  match s with
  | EmptyString => EmptyString
  | String c s' => String (lowerByte c) (ToLower s')
  end.

End GoStrings.

Import GoStrings.

(** ** internal/document/processor.go *)

Module document.

(** The loop of [getOverlapText]: the suffix of [s] from its first space
    on, trimmed. *)
Fixpoint overlapScan (s : string) : option string :=
  match s with
  | EmptyString => None
  | String c s' =>
      if Ascii.eqb c " " then Some (TrimSpace s) else overlapScan s'
  end.

(** [None] is a run-time panic: an index or a slice bound out of range.
    The subtraction does not wrap where the slice is taken, since there
    [0 <= overlapChars < len(text)]; for a negative [overlapChars] the
    position, wrapped or not, is out of range. *)
Definition getOverlapText (text : string) (overlapChars : Z)
  : option string :=
  if len text <=? overlapChars then Some text
  else
    let startPos := len text - overlapChars in
    if (0 <=? startPos) && (startPos <=? len text) then
      let tail := drop (Z.to_nat startPos) text in
      match overlapScan tail with
      | Some r => Some r
      | None => Some (TrimSpace tail)
      end
    else None.

(** The state of the loop of [chunkText]: [chunks] and [currentChunk]. *)
Definition chunkStep (maxChars overlapChars : Z)
    (st : list string * string) (word : string)
  : option (list string * string) :=
  let '(chunks, currentChunk) := st in
  let testChunk := currentChunk in
  let testChunk :=
    if negb (String.eqb testChunk "") then testChunk +:+ " " else testChunk in
  let testChunk := testChunk +:+ word in
  if (len testChunk >? maxChars) && negb (String.eqb currentChunk "") then
    let chunks := chunks ++ [TrimSpace currentChunk] in
    if (overlapChars >? 0) && (Z.of_nat (length chunks) >? 0) then
      match getOverlapText currentChunk overlapChars with
      | Some ov => Some (chunks, ov +:+ " " +:+ word)
      | None => None
      end
    else Some (chunks, word)
  else Some (chunks, testChunk).

Fixpoint chunkLoop (maxChars overlapChars : Z) (words : list string)
    (st : list string * string) : option (list string * string) :=
  match words with
  | [] => Some st
  | word :: rest =>
      match chunkStep maxChars overlapChars st word with
      | Some st' => chunkLoop maxChars overlapChars rest st'
      | None => None
      end
  end.

Definition chunkText (text : string) (maxTokens overlap : Z)
  : option (list string) :=
  let maxChars := wrap64 (maxTokens * 4) in
  let overlapChars := wrap64 (overlap * 4) in
  let words := Fields text in
  if (length words =? 0)%nat then Some []
  else
    match chunkLoop maxChars overlapChars words ([], "") with
    | Some (chunks, currentChunk) =>
        if negb (String.eqb (TrimSpace currentChunk) "")
        then Some (chunks ++ [TrimSpace currentChunk])
        else Some chunks
    | None => None
    end.

End document.

Import document.

(** ** The layout of the chunks of [chunkText] *)

(** A chunk is laid out as an overlap seed followed by a run of words. *)
Definition render (p : list string * list string) : string :=
  Join (fst p ++ snd p) " ".

(** [w'] is a tail of [w]: [w] itself, or [w] cut at its front. *)
Definition tailOf (w' w : string) : Prop := exists p, w = p +:+ w'.

(** Each of [ws'] is a tail of one of [ws]. *)
Definition tailsOf (ws' ws : list string) : Prop :=
  Forall (fun w' => exists w, In w ws /\ tailOf w' w) ws'.

(** A seed is empty, or, with a positive overlap, words whose joined text
    ends the chunk before, each a tail of a word of that chunk. *)
Definition seedOK (overlapChars : Z) (prev : option string)
    (seed : list string) : Prop :=
  seed = []
  \/ (0 < overlapChars /\ Forall Word seed
      /\ exists c q, prev = Some c /\ c = q +:+ Join seed " "
                     /\ tailsOf seed (Fields c)).

Fixpoint chained (overlapChars : Z) (prev : option string)
    (L : list (list string * list string)) : Prop :=
  match L with
  | [] => True
  | p :: L' =>
      seedOK overlapChars prev (fst p)
      /\ chained overlapChars (Some (render p)) L'
  end.

Fixpoint lastChunk (prev : option string)
    (L : list (list string * list string)) : option string :=
  match L with
  | [] => prev
  | p :: L' => lastChunk (Some (render p)) L'
  end.

(** The invariant of the loop of [chunkText], after the words [done]. *)
Definition chunkInv (overlapChars : Z) (done : list string)
    (st : list string * string) : Prop :=
  (done = [] /\ st = ([], ""))
  \/ exists L seed seg,
       fst st = map render L /\ snd st = render (seed, seg)
       /\ done = concat (map snd L) ++ seg /\ seg <> []
       /\ Forall (fun p => snd p <> []) L
       /\ chained overlapChars None (L ++ [(seed, seg)]).

(** ** pkg/types *)

Module types.

(** A Go [error] value, by its message; [nil] is the absence of one. *)
Definition error := string.

(** [fmt.Errorf("<msg>: %w", err)]. *)
Definition Errorf (msg : string) (err : error) : error := msg +:+ ": " +:+ err.

(** What a Go call returning [(T, error)] gives: the value, with a [nil]
    error, or the error. *)
Definition result (T : Type) : Type := T + error.

Definition float64 := spec_float.
Definition f64_zero : float64 := S754_zero false.
(** [x == y] and [x < y] on [float64]. *)
Definition f64_eqb (x y : float64) : bool := SFeqb x y.
Definition f64_ltb (x y : float64) : bool := SFltb x y.
(** [x * y] in binary64. *)
Definition f64_mul (x y : float64) : float64 := SFmul 53 1024 x y.
Definition f64_100 : float64 := S754_finite false 100 0.

(** The dynamic values a [map[string]any] of the program holds. *)
Inductive any :=
| AnyString (s : string)
| AnyInt (n : Z)
| AnyFloat (f : float64)
| AnyBool (b : bool)
| AnyNil.

Module GenerateOptions.
Record t := mk {
  Temperature : float64;
  TopP : float64;
  MaxTokens : Z;
  StopSequences : list string;
  SystemPrompt : string
}.
End GenerateOptions.

(** [opts.Temperature = x]. *)
Definition withTemperature (opts : GenerateOptions.t) (x : float64)
  : GenerateOptions.t :=
  GenerateOptions.mk x (GenerateOptions.TopP opts)
    (GenerateOptions.MaxTokens opts) (GenerateOptions.StopSequences opts)
    (GenerateOptions.SystemPrompt opts).

Module SafetyResult.
Record t := mk {
  IsSafe : bool;
  Category : string;
  Reason : string;
  Score : float64
}.
End SafetyResult.

(** [SafetyCategories]: the known safety violation categories. *)
Definition SafetyCategories : gmap string string :=
  list_to_map
    [("S1", "Violent Crimes"); ("S2", "Non-Violent Crimes");
     ("S3", "Sex Crimes"); ("S4", "Child Exploitation");
     ("S5", "Defamation"); ("S6", "Specialized Advice");
     ("S7", "Privacy"); ("S8", "Intellectual Property");
     ("S9", "Indiscriminate Weapons"); ("S10", "Hate");
     ("S11", "Self-Harm"); ("S12", "Sexual Content");
     ("S13", "Elections"); ("S14", "Code Interpreter Abuse")].

Module Document.
Record t := mk {
  ID : string;
  Content : string;
  Metadata : gmap string any;
  Score : float64
}.
End Document.

(** The fields of [Config] that the query pipeline reads. *)
Module Config.
Record t := mk {
  TopK : Z;
  Temperature : float64;
  MaxTokens : Z;
  TopP : float64
}.
End Config.

(** The interfaces, over the state [W] of what lies behind them (the
    model server, the vector database, the file system).  The [ctx]
    argument carries cancellation only and is left out. *)
Section Interfaces.
Variable W : Type.

Record LLMClient := {
  Generate : string -> GenerateOptions.t -> W -> result string * W
}.

Record SafetyGate := {
  CheckInput : string -> W -> result SafetyResult.t * W;
  CheckOutput : string -> W -> result SafetyResult.t * W;
  IsEnabled : W -> bool
}.

Record Retriever := {
  Search : string -> Z -> W -> result (list Document.t) * W
}.
End Interfaces.

Arguments Generate {W}.
Arguments CheckInput {W}.
Arguments CheckOutput {W}.
Arguments IsEnabled {W}.
Arguments Search {W}.

End types.

Import types.

(** ** internal/safety *)

Module safety.

(** *** The pattern [(?i)unsafe\s*(s\d+)?] *)

(** One letter of the pattern under [(?i)]: the letter in either case,
    and for [s] also U+017F (C5 BF), which folds to it.  The rest of the
    string is returned. *)
Definition litFold (p : ascii) (s : string) : option string :=
  match s with
  | EmptyString => None
  | String c r =>
      if Ascii.eqb (lowerByte c) p then Some r
      else if Ascii.eqb p "s" && byteIs c 197 then
        match r with
        | String c' r' => if byteIs c' 191 then Some r' else None
        | EmptyString => None
        end
      else None
  end.

Fixpoint matchFold (pat s : string) : option string :=
  match pat with
  | EmptyString => Some s
  | String p pat' =>
      match litFold p s with
      | Some r => matchFold pat' r
      | None => None
      end
  end.

(** [\s] is [[\t\n\f\r ]]. *)
Definition reSpace (c : ascii) : bool :=
  byteIs c 9 || byteIs c 10 || byteIs c 12 || byteIs c 13 || byteIs c 32.

Definition reDigit (c : ascii) : bool :=
  let n := N_of_ascii c in ((48 <=? n) && (n <=? 57))%N.

(** [\s*], greedy. *)
Fixpoint skipSpaces (s : string) : string :=
  match s with
  | String c r => if reSpace c then skipSpaces r else s
  | EmptyString => s
  end.

(** [\d*], greedy: the digits and what follows them. *)
Fixpoint spanDigits (s : string) : string * string :=
  match s with
  | String c r =>
      if reDigit c then let '(d, t) := spanDigits r in (String c d, t)
      else (EmptyString, s)
  | EmptyString => (EmptyString, EmptyString)
  end.

Definition take (n : nat) (s : string) : string := String.substring 0 n s.

(** [(s\d+)]: the text captured at the head of [s]. *)
Definition captureCode (s : string) : option string :=
  match litFold "s" s with
  | Some r =>
      match spanDigits r with
      | (EmptyString, _) => None
      | (d, _) => Some (take (String.length s - String.length r) s +:+ d)
      end
  | None => None
  end.

(** A match of the pattern at the head of [s]: the matched text and the
    text of the group, empty when the group took no part. *)
Definition matchAt (s : string) : option (string * string) :=
  match matchFold "unsafe" s with
  | Some r =>
      let r' := skipSpaces r in
      let upto := take (String.length s - String.length r') s in
      match captureCode r' with
      | Some code => Some (upto +:+ code, code)
      | None => Some (upto, EmptyString)
      end
  | None => None
  end.

(** [unsafePattern.FindStringSubmatch]: the leftmost match, as the text
    of the match and of its group; [[]] (nil) when there is none. *)
Fixpoint FindStringSubmatch (s : string) : list string :=
  match matchAt s with
  | Some (m, g) => [m; g]
  | None =>
      match s with
      | String _ r => FindStringSubmatch r
      | EmptyString => []
      end
  end.

(** [strings.ToUpper] where the program applies it, to the text of the
    group: ASCII letters, and U+017F, whose upper case is S. *)
Fixpoint ToUpper (s : string) : string :=
  match s with
  | EmptyString => EmptyString
  | String c r =>
      match r with
      | String c' r' =>
          if byteIs c 197 && byteIs c' 191 then String "S" (ToUpper r')
          else String (upperByte c) (ToUpper r)
      | EmptyString => String (upperByte c) EmptyString
      end
  end.

Definition unsafeResult (category reason : string) : SafetyResult.t :=
  SafetyResult.mk false category reason f64_zero.

(** [Guard.parseResponse]. *)
Definition parseResponse (response : string) : SafetyResult.t :=
  let response := TrimSpace response in
  if String.eqb (ToLower response) "safe" then
    SafetyResult.mk true "" "" f64_zero
  else
    let matches := FindStringSubmatch response in
    if (0 <? Z.of_nat (length matches)) then
      let '(category, reason) :=
        if (1 <? Z.of_nat (length matches))
           && negb (String.eqb (nth 1 matches "") "")
        then
          let categoryCode := ToUpper (nth 1 matches "") in
          (categoryCode,
           match SafetyCategories !! categoryCode with
           | Some description => description
           | None => ""
           end)
        else ("", "") in
      unsafeResult category reason
    else
      unsafeResult "" "Unable to determine safety classification".

(** [GetRefusalMessage]. *)
Definition GetRefusalMessage (category : string) : string :=
  let baseMessage :=
    "I can't provide assistance with that request as it may violate content safety guidelines" in
  if String.eqb category "" then baseMessage +:+ "."
  else
    match SafetyCategories !! category with
    | None => baseMessage +:+ "."
    | Some categoryDescription =>
        baseMessage +:+ " (category: " +:+ category +:+ " - "
        +:+ categoryDescription +:+ ")."
    end.

Definition categoriesBlock : string :=
"<BEGIN UNSAFE CONTENT CATEGORIES>
S1: Violent Crimes. 
S2: Non-Violent Crimes.
S3: Sex Crimes.
S4: Child Exploitation.
S5: Defamation.
S6: Specialized Advice.
S7: Privacy.
S8: Intellectual Property.
S9: Indiscriminate Weapons.
S10: Hate.
S11: Self-Harm.
S12: Sexual Content.
S13: Elections.
S14: Code Interpreter Abuse.
<END UNSAFE CONTENT CATEGORIES>

<BEGIN CONVERSATION>

".

(** [Guard.buildInputPrompt]. *)
Definition buildInputPrompt (text : string) : string :=
"<|begin_of_text|><|start_header_id|>system<|end_header_id|>

You are Llama Guard 3, a content policy classifier. Your task is to classify the following user request into one of the safety categories defined below.

" +:+ categoriesBlock +:+ "<|eot_id|><|start_header_id|>user<|end_header_id|>

" +:+ text +:+ "<|eot_id|><|start_header_id|>assistant<|end_header_id|>

".

(** [Guard.buildOutputPrompt]. *)
Definition buildOutputPrompt (text : string) : string :=
"<|begin_of_text|><|start_header_id|>system<|end_header_id|>

You are Llama Guard 3, a content policy classifier. Your task is to classify the following AI assistant response into one of the safety categories defined below.

" +:+ categoriesBlock +:+ "<|eot_id|><|start_header_id|>assistant<|end_header_id|>

" +:+ text +:+ "<|eot_id|><|start_header_id|>user<|end_header_id|>

Please classify this response.<|eot_id|><|start_header_id|>assistant<|end_header_id|>

".

Section Guard.
Variable W : Type.

Record Guard := NewGuard {
  client : LLMClient W;
  enabled : bool
}.

(** The options of a classification call: deterministic output. *)
Definition guardOptions : GenerateOptions.t :=
  GenerateOptions.mk f64_zero f64_zero 100 [] "".

(** [Guard.CheckInput]. *)
Definition CheckInput (g : Guard) (text : string) (w : W)
  : result SafetyResult.t * W :=
  if negb (enabled g) then (inl (SafetyResult.mk true "" "" f64_zero), w)
  else
    let prompt := buildInputPrompt text in
    let '(r, w) := Generate (client g) prompt guardOptions w in
    match r with
    | inr err => (inr (Errorf "failed to check input safety" err), w)
    | inl response => (inl (parseResponse response), w)
    end.

(** [Guard.CheckOutput]. *)
Definition CheckOutput (g : Guard) (text : string) (w : W)
  : result SafetyResult.t * W :=
  if negb (enabled g) then (inl (SafetyResult.mk true "" "" f64_zero), w)
  else
    let prompt := buildOutputPrompt text in
    let '(r, w) := Generate (client g) prompt guardOptions w in
    match r with
    | inr err => (inr (Errorf "failed to check output safety" err), w)
    | inl response => (inl (parseResponse response), w)
    end.

(** [Guard.IsEnabled]. *)
Definition IsEnabled (g : Guard) : bool := enabled g.

(** A [*Guard] is a [types.SafetyGate]. *)
Definition asSafetyGate (g : Guard) : SafetyGate W :=
  {| types.CheckInput := CheckInput g;
     types.CheckOutput := CheckOutput g;
     types.IsEnabled := fun _ => IsEnabled g |}.
End Guard.

Arguments NewGuard {W}.
Arguments client {W}.
Arguments enabled {W}.
Arguments CheckInput {W}.
Arguments CheckOutput {W}.
Arguments IsEnabled {W}.
Arguments asSafetyGate {W}.

End safety.

(** ** internal/prompt *)

Module prompt.

(** [fmt.Sprintf("%d", n)]. *)
Definition itoa (n : Z) : string :=
  DecimalString.NilZero.string_of_int (Z.to_int n).

(** [Builder]: the configured path and the cached system prompt. *)
Record Builder := mkBuilder {
  systemPromptPath : string;
  systemPrompt : string
}.

(** [NewBuilder]. *)
Definition NewBuilder (systemPromptPath : string) : Builder :=
  mkBuilder systemPromptPath "".

(** The title of a document, else its path, in the metadata: the two
    type assertions of [BuildRAGPrompt] and [FormatResponse]. *)
Definition titleOrPath (d : Document.t) : option string :=
  match Document.Metadata d !! "title" with
  | Some (AnyString (String c t)) => Some (String c t)
  | _ =>
      match Document.Metadata d !! "path" with
      | Some (AnyString (String c p)) => Some (String c p)
      | _ => None
      end
  end.

(** The loop of [BuildRAGPrompt] over [context], from index [i]. *)
Fixpoint ragSources (i : Z) (context : list Document.t) : string :=
  match context with
  | [] => ""
  | doc :: rest =>
      "### Source " +:+ itoa (i + 1)
      +:+ match titleOrPath doc with
          | Some t => " - " +:+ t
          | None => ""
          end
      +:+ ":
" +:+ Document.Content doc +:+ "

" +:+ ragSources (i + 1) rest
  end.

(** [Builder.BuildRAGPrompt]. *)
Definition BuildRAGPrompt (query : string) (context : list Document.t)
  : string :=
  let contextText :=
    if (0 <? Z.of_nat (length context)) then
      "Based on the following context from the documentation:

" +:+ ragSources 0 context +:+ "---

"
    else "" in
  let prompt := contextText in
  let prompt := prompt +:+ "Question: " +:+ query +:+ "

" in
  if (0 <? Z.of_nat (length context)) then
    prompt +:+ "Please answer the question based on the provided context. "
    +:+ "If the context doesn't contain relevant information, say so clearly. "
    +:+ "Be specific and reference the sources when possible."
  else
    prompt +:+ "Please answer this question about OpenShift Bare Metal operations. "
    +:+ "Provide detailed, practical guidance where possible.".

(** [getDefaultSystemPrompt]. *)
Definition getDefaultSystemPrompt : string :=
"You are Pawdy, a helpful AI assistant specializing in OpenShift Bare Metal operations and onboarding. You help engineers learn about bare metal infrastructure, troubleshooting, and best practices.

Your personality:
- Friendly and approachable (use the üêæ emoji occasionally)
- Technically accurate and detailed
- Patient with newcomers
- Practical and solution-oriented

Your expertise covers:
- OpenShift Bare Metal deployment and management
- Infrastructure troubleshooting and debugging
- Networking, storage, and hardware configuration
- Operational procedures and runbooks
- Best practices and common pitfalls

Guidelines:
- Provide clear, step-by-step instructions when possible
- Include relevant commands, file paths, and configuration examples
- Mention safety considerations and potential risks
- If you're not certain about something, say so clearly
- Reference documentation sources when available
- Use technical terminology appropriately but explain concepts for newcomers

When answering:
1. Be concise but comprehensive
2. Prioritize actionable information
3. Include troubleshooting tips where relevant
4. Suggest next steps or related topics to explore

Remember: You're here to help engineers succeed with bare metal infrastructure! üêæ".

(** [Builder.BuildSystemPrompt], over [os.ReadFile]; the builder is
    returned with its cache. *)
Definition BuildSystemPrompt {W : Type}
    (ReadFile : string -> W -> result string * W) (b : Builder) (w : W)
  : result string * Builder * W :=
  if negb (String.eqb (systemPrompt b) "") then (inl (systemPrompt b), b, w)
  else if negb (String.eqb (systemPromptPath b) "") then
    let '(r, w) := ReadFile (systemPromptPath b) w in
    match r with
    | inr err => (inr (Errorf "failed to read system prompt file" err), b, w)
    | inl content =>
        (inl content, mkBuilder (systemPromptPath b) content, w)
    end
  else
    let b := mkBuilder (systemPromptPath b) getDefaultSystemPrompt in
    (inl (systemPrompt b), b, w).

Section Format.

(** [fmt.Sprintf("%.1f", x)], of Go's library. *)
Variable fmtFloat1 : float64 -> string.

(** The loop of [FormatResponse] over [sources], from index [i]. *)
Fixpoint formatSources (i : Z) (sources : list Document.t) : string :=
  match sources with
  | [] => ""
  | source :: rest =>
      let sourceRef := "[" +:+ itoa (i + 1) +:+ "]" in
      (match titleOrPath source with
       | Some t => sourceRef +:+ " " +:+ t
       | None => sourceRef +:+ " Document " +:+ Document.ID source
       end)
      +:+ (if f64_ltb f64_zero (Document.Score source) then
             " (relevance: "
             +:+ fmtFloat1 (f64_mul (Document.Score source) f64_100)
             +:+ "%)"
           else "")
      +:+ "
" +:+ formatSources (i + 1) rest
  end.

(** [Builder.FormatResponse]. *)
Definition FormatResponse (response : string) (sources : list Document.t)
  : string :=
  if (Z.of_nat (length sources) =? 0) then response
  else
    let formatted := TrimSpace response in
    let formatted := formatted +:+ "

**Sources:**
" in
    formatted +:+ formatSources 0 sources.

End Format.

End prompt.

(** ** internal/app *)

Module app.

Import prompt.

(** [Source]: a document source with metadata. *)
Module Source.
Record t := mk {
  ID : string;
  Content : string;
  Metadata : gmap string any;
  Score : float64
}.
End Source.

(** The calls of [Ask] on the interfaces of its collaborators, each with
    what it returned. *)
Inductive Event :=
| EvCheckInput (text : string) (r : result SafetyResult.t)
| EvSearch (query : string) (topK : Z) (r : result (list Document.t))
| EvGenerate (prompt : string) (opts : GenerateOptions.t) (r : result string)
| EvCheckOutput (text : string) (r : result SafetyResult.t).

(** What [Ask] returns: the answer, the sources ([None] is the nil
    slice) and the error ([None] is nil). *)
Definition Answer : Type := string * option (list Source.t) * option error.

Section App.
Variable W : Type.

(** [App]; the builder that [PromptBuilder] points to lives in the
    store, since [BuildSystemPrompt] updates it. *)
Record App := mkApp {
  Config : Config.t;
  LLMClient : types.LLMClient W;
  SafetyGate : types.SafetyGate W;
  Retriever : types.Retriever W;
  ReadFile : string -> W -> result string * W
}.

Record Store := mkStore {
  world : W;
  PromptBuilder : Builder;
  trace : list Event
}.

(** A function body that returns a [R]: a step either goes on with a
    value or returns from the function. *)
Definition Fn (R A : Type) : Type := Store -> (R + A) * Store.

Definition pure {R A} (x : A) : Fn R A := fun s => (inr x, s).
Definition return_ {R A} (x : R) : Fn R A := fun s => (inl x, s).
Definition bind {R A B} (m : Fn R A) (k : A -> Fn R B) : Fn R B :=
  fun s =>
    match m s with
    | (inl r, s') => (inl r, s')
    | (inr x, s') => k x s'
    end.

(** A call on a collaborator: it runs on the world and is recorded. *)
Definition call {R T} (f : W -> result T * W) (ev : result T -> Event)
  : Fn R (result T) :=
  fun s =>
    let '(r, w) := f (world s) in
    (inr r, mkStore w (PromptBuilder s) (trace s ++ [ev r])).

Definition isEnabled {R} (a : App) : Fn R bool :=
  fun s => (inr (IsEnabled (SafetyGate a) (world s)), s).

Definition buildSystemPrompt {R} (a : App) : Fn R (result string) :=
  fun s =>
    let '(r, b, w) := BuildSystemPrompt (ReadFile a) (PromptBuilder s) (world s) in
    (inr r, mkStore w b (trace s)).

Definition run {R} (m : Fn R R) (s : Store) : R * Store :=
  match m s with
  | (inl r, s') => (r, s')
  | (inr r, s') => (r, s')
  end.

Notation "x <- m ;; k" := (bind m (fun x => k))
  (at level 100, m at next level, right associativity).
Notation "m ;;; k" := (bind m (fun _ => k))
  (at level 100, right associativity).

Definition toSource (doc : Document.t) : Source.t :=
  Source.mk (Document.ID doc) (Document.Content doc)
            (Document.Metadata doc) (Document.Score doc).

(** The input gate of [Ask]. *)
Definition checkInputGate (a : App) (question : string) : Fn Answer unit :=
  enabled <- isEnabled a ;;
  if enabled then
    r <- call (CheckInput (SafetyGate a) question) (EvCheckInput question) ;;
    match r with
    | inr err => return_ ("", None, Some (Errorf "safety check failed" err))
    | inl safetyResult =>
        if negb (SafetyResult.IsSafe safetyResult) then
          let refusal :=
            safety.GetRefusalMessage (SafetyResult.Category safetyResult) in
          return_ (refusal, None, None)
        else pure tt
    end
  else pure tt.

(** The output gate of [Ask]. *)
Definition checkOutputGate (a : App) (response : string) : Fn Answer unit :=
  enabled <- isEnabled a ;;
  if enabled then
    r <- call (CheckOutput (SafetyGate a) response) (EvCheckOutput response) ;;
    match r with
    | inr err =>
        return_ ("", None, Some (Errorf "output safety check failed" err))
    | inl safetyResult =>
        if negb (SafetyResult.IsSafe safetyResult) then
          let refusal :=
            safety.GetRefusalMessage (SafetyResult.Category safetyResult) in
          return_ (refusal, None, None)
        else pure tt
    end
  else pure tt.

(** [App.Ask]. *)
Definition Ask (a : App) (question : string) (temperature : float64)
  : Store -> Answer * Store :=
  run (
    checkInputGate a question ;;;
    r <- call (Search (Retriever a) question (Config.TopK (Config a)))
              (EvSearch question (Config.TopK (Config a))) ;;
    match r with
    | inr err =>
        return_ ("", None, Some (Errorf "failed to retrieve documents" err))
    | inl documents =>
    let prompt := BuildRAGPrompt question documents in
    r <- buildSystemPrompt a ;;
    match r with
    | inr err =>
        return_ ("", None, Some (Errorf "failed to build system prompt" err))
    | inl systemPrompt =>
    let opts :=
      GenerateOptions.mk temperature (Config.TopP (Config a))
        (Config.MaxTokens (Config a)) [] systemPrompt in
    let opts :=
      if f64_eqb temperature f64_zero then
        withTemperature opts (Config.Temperature (Config a))
      else opts in
    r <- call (Generate (LLMClient a) prompt opts) (EvGenerate prompt opts) ;;
    match r with
    | inr err =>
        return_ ("", None, Some (Errorf "failed to generate response" err))
    | inl response =>
    checkOutputGate a response ;;;
    let sources := map toSource documents in
    return_ (response, Some sources, None)
    end end end).

End App.

Arguments mkApp {W}.
Arguments Config {W}.
Arguments LLMClient {W}.
Arguments SafetyGate {W}.
Arguments Retriever {W}.
Arguments ReadFile {W}.
Arguments mkStore {W}.
Arguments world {W}.
Arguments PromptBuilder {W}.
Arguments trace {W}.
Arguments Ask {W}.

End app.

(** ** The words of the specification of the parser *)

Module verdict.

(** [s] and [t] are the same up to the case of ASCII letters. *)
Fixpoint equalFold (s t : string) : Prop :=
  match s, t with
  | EmptyString, EmptyString => True
  | String a s', String b t' => lowerByte a = lowerByte b /\ equalFold s' t'
  | _, _ => False
  end.

(** [foldsTo pat u]: the text [u] is the lower-case pattern [pat] written
    in any case, as the regular expression engine folds case: a letter
    stands for itself and its upper case, and s also for U+017F. *)
Inductive foldsTo : string -> string -> Prop :=
| foldsTo_nil : foldsTo "" ""
| foldsTo_char p c pat u :
    lowerByte c = p -> foldsTo pat u -> foldsTo (String p pat) (String c u)
| foldsTo_long_s pat u :
    foldsTo pat u ->
    foldsTo (String "s" pat) (String "197" (String "191" u)).

(** The text contains the word unsafe, in any case. *)
Definition containsUnsafe (t : string) : Prop :=
  exists pre u post, t = pre +:+ u +:+ post /\ foldsTo "unsafe" u.

(** The occurrence of [u] after [pre] is the first one in [t]. *)
Definition firstUnsafe (t pre : string) : Prop :=
  forall pre' u' post',
    t = pre' +:+ u' +:+ post' -> foldsTo "unsafe" u' ->
    (String.length pre <= String.length pre')%nat.

Fixpoint allb (f : ascii -> bool) (s : string) : bool :=
  match s with
  | EmptyString => true
  | String c s' => f c && allb f s'
  end.

(** [post] does not start with a byte that [f] accepts. *)
Definition headNot (f : ascii -> bool) (post : string) : Prop :=
  match post with
  | EmptyString => True
  | String c _ => f c = false
  end.

(** [post] does not start with a category token. *)
Definition noToken (post : string) : Prop :=
  forall sl ds rest,
    post = sl +:+ ds +:+ rest -> foldsTo "s" sl -> ds <> "" ->
    allb safety.reDigit ds = true -> False.

(** A byte that a white-space rune can be made of: ASCII white space, or
    a byte from 0x80 on. *)
Definition wsByte (c : ascii) : bool :=
  asciiSpace c || (128 <=? N_of_ascii c)%N.

(** The first [k] bytes of [s] are such bytes. *)
Fixpoint wsPrefix (k : nat) (s : string) : bool :=
  match k, s with
  | S k', String c s' => wsByte c && wsPrefix k' s'
  | _, _ => true
  end.

Fixpoint lastByte (s : string) : option ascii :=
  match s with
  | EmptyString => None
  | String c EmptyString => Some c
  | String _ s' => lastByte s'
  end.

(** A category token: the letter and at least one digit. *)
Definition isToken (g : string) : Prop :=
  exists sl ds, foldsTo "s" sl /\ ds <> "" /\ allb safety.reDigit ds = true
                /\ g = sl +:+ ds.

(** The description of a category in the table, empty for a code that
    the table does not have. *)
Definition describe (category : string) : string :=
  match SafetyCategories !! category with
  | Some description => description
  | None => ""
  end.

(** A category token as the specification words it: one letter, any
    letter, followed by digits. *)
Definition isLetter (c : ascii) : bool :=
  let n := N_of_ascii c in
  ((65 <=? n) && (n <=? 90) || (97 <=? n) && (n <=? 122))%N.

Definition specToken (g : string) : Prop :=
  exists c ds, g = String c ds /\ isLetter c = true /\ ds <> ""
               /\ allb safety.reDigit ds = true.

(** The codes of the table. *)
Definition knownCodes : list string :=
  ["S1"; "S2"; "S3"; "S4"; "S5"; "S6"; "S7"; "S8"; "S9"; "S10"; "S11";
   "S12"; "S13"; "S14"].

End verdict.

Import verdict.

Import app.

(** ** The words of the specification of the pipeline *)

Module pipeline.

(** An unsafe verdict of the input or of the output gate. *)
Definition isUnsafeVerdict (e : Event) : bool :=
  match e with
  | EvCheckInput _ (inl r) | EvCheckOutput _ (inl r) =>
      negb (SafetyResult.IsSafe r)
  | _ => false
  end.

(** The input or the output was judged unsafe in the run. *)
Definition judgedUnsafe (tr : list Event) : bool := existsb isUnsafeVerdict tr.

(** A call of the retriever or of the generator. *)
Definition isSearchOrGenerate (e : Event) : bool :=
  match e with
  | EvSearch _ _ _ | EvGenerate _ _ _ => true
  | _ => false
  end.

(** [len(sources)]; the nil slice has length 0. *)
Definition sourcesLen (sources : option (list Source.t)) : nat :=
  match sources with
  | None => 0
  | Some l => length l
  end.

(** The source copies the document, field by field. *)
Definition copied (src : Source.t) (doc : Document.t) : Prop :=
  Source.ID src = Document.ID doc
  /\ Source.Content src = Document.Content doc
  /\ Source.Metadata src = Document.Metadata doc
  /\ Source.Score src = Document.Score doc.

End pipeline.

Import pipeline.

(** ** A scripted deployment, for running the pipeline *)

Module Scenario.

Definition demoDoc : Document.t :=
  Document.mk "doc1" "Some content." {[ "title" := AnyString "Guide" ]}
              (S754_finite false 3 (-2)).

(** A model server that answers every prompt with [reply]. *)
Definition constClient (reply : string) : types.LLMClient unit :=
  {| Generate := fun _ _ w => (inl reply, w) |}.

Definition demoConfig : Config.t :=
  Config.mk 5 (S754_finite false 7 (-3)) 512 (S754_finite false 9 (-3)).

(** The application over a guard model that answers [verdict] and a
    retriever that finds [docs]. *)
Definition demoApp (verdict : string) (enabled : bool)
    (docs : list Document.t) : App unit :=
  mkApp demoConfig (constClient "The answer.")
        (safety.asSafetyGate (safety.NewGuard (constClient verdict) enabled))
        {| Search := fun _ _ w => (inl docs, w) |}
        (fun _ w => (inr "no such file", w)).

Definition store0 : Store unit := mkStore tt (prompt.NewBuilder "") [].

End Scenario.

(** ** internal/document/processor.go: from a file to its documents *)

Module processor.

(** [CountTokens]; the length is not negative, and Go's division
    truncates. *)
Definition CountTokens (text : string) : Z := Z.quot (len text) 4.

(** [strings.ToLower] where the program compares a file type with
    [".pdf"], [".md"], [".markdown"], [".txt"], [".html"] and [".htm"]:
    besides the ASCII letters, the Kelvin sign U+212A (E2 84 AA in UTF-8)
    has the lower case k.  No other rune has a lower case among the
    bytes of these words. *)
Fixpoint lowerType (s : string) : string :=
  match s with
  | EmptyString => EmptyString
  | String c1 s' =>
      match s' with
      | String c2 (String c3 r) =>
          if byteIs c1 226 && byteIs c2 132 && byteIs c3 170
          then String "k" (lowerType r)
          else String (lowerByte c1) (lowerType s')
      | _ => String (lowerByte c1) (lowerType s')
      end
  end.

(** [types.DocumentSource]; the modification time, a [time.Time], is
    held as the dynamic value that the metadata of a document gets. *)
Module DocumentSource.
Record t := mk {
  Path : string;
  Title : string;
  Size : Z;
  Modified : any;
  Type' : string
}.
End DocumentSource.

(** [Processor]. *)
Record Processor := NewProcessor {
  chunkTokens : Z;
  chunkOverlap : Z
}.

(** [SupportedTypes]. *)
Definition SupportedTypes : list string := [".md"; ".txt"; ".html"; ".pdf"].

Section Process.
Variable W : Type.

(** [io.ReadAll(reader)]. *)
Variable ReadAll : W -> result string * W.

(** [extractPDF], over the PDF library. *)
Variable extractPDF : string -> W -> result string * W.

(** [extractMarkdown] and [extractHTML], over Go's [regexp] package;
    [None] is a panic of [regexp.MustCompile]. *)
Variables extractMarkdown extractHTML : string -> option string.

(** [fmt.Sprintf("%x", md5.Sum([]byte(path)))]. *)
Variable md5hex : string -> string.

(** [extractText]; its error is always nil. *)
Definition extractText (content fileType : string) : option (result string) :=
  let t := lowerType fileType in
  if String.eqb t ".md" || String.eqb t ".markdown" then
    match extractMarkdown content with
    | Some text => Some (inl text)
    | None => None
    end
  else if String.eqb t ".txt" then Some (inl content)
  else if String.eqb t ".html" || String.eqb t ".htm" then
    match extractHTML content with
    | Some text => Some (inl text)
    | None => None
    end
  else Some (inl content).

(** The loop of [Process] over [chunks], from index [i]; [total] is
    [len(chunks)]. *)
Fixpoint documents (source : DocumentSource.t) (total : Z) (i : Z)
    (chunks : list string) : list Document.t :=
  match chunks with
  | [] => []
  | chunk :: rest =>
      let docID := md5hex (DocumentSource.Path source) +:+ "-" +:+ prompt.itoa i in
      Document.mk docID chunk
        (<["path" := AnyString (DocumentSource.Path source)]>
         (<["title" := AnyString (DocumentSource.Title source)]>
         (<["type" := AnyString (DocumentSource.Type' source)]>
         (<["size" := AnyInt (DocumentSource.Size source)]>
         (<["modified" := DocumentSource.Modified source]>
         (<["chunk_id" := AnyInt i]>
         (<["total_chunks" := AnyInt total]> ∅)))))))
        f64_zero
      :: documents source total (i + 1) rest
  end.

(** [Processor.Process]; [None] is a panic. *)
Definition Process (p : Processor) (source : DocumentSource.t) (w : W)
  : option (result (list Document.t)) * W :=
  let '(r, w) :=
    if String.eqb (lowerType (DocumentSource.Type' source)) ".pdf" then
      let '(r, w) := extractPDF (DocumentSource.Path source) w in
      match r with
      | inr err => (Some (inr (Errorf "failed to extract PDF text" err)), w)
      | inl text => (Some (inl text), w)
      end
    else
      let '(r, w) := ReadAll w in
      match r with
      | inr err => (Some (inr (Errorf "failed to read document" err)), w)
      | inl content =>
          match extractText content (DocumentSource.Type' source) with
          | None => (None, w)
          | Some (inr err) =>
              (Some (inr (Errorf "failed to extract text" err)), w)
          | Some (inl text) => (Some (inl text), w)
          end
      end in
  match r with
  | None => (None, w)
  | Some (inr err) => (Some (inr err), w)
  | Some (inl text) =>
      if String.eqb (TrimSpace text) "" then
        (Some (inr "document contains no extractable text"), w)
      else
        match chunkText text (chunkTokens p) (chunkOverlap p) with
        | None => (None, w)
        | Some chunks =>
            (Some (inl (documents source (Z.of_nat (length chunks)) 0 chunks)),
             w)
        end
  end.

End Process.

Arguments Process {W} ReadAll extractPDF extractMarkdown extractHTML md5hex
  p source w.

End processor.

(** ** internal/cli: how a source is titled *)

Module cli.

(** [getSourceTitle]. *)
Definition getSourceTitle (source : Source.t) : string :=
  match Source.Metadata source !! "title" with
  | Some (AnyString (String c t)) => String c t
  | _ =>
      match Source.Metadata source !! "path" with
      | Some (AnyString (String c p)) => String c p
      | _ => "Document " +:+ Source.ID source
      end
  end.

End cli.

(** ** The words for the size of a chunk *)

Module sizing.

(** The chunk [c] keeps to [maxChars], or is one word of [words], alone
    or after an overlap text of at most [overlapChars] bytes and a
    space. *)
Definition sized (maxChars overlapChars : Z) (words : list string)
    (c : string) : Prop :=
  len c <= maxChars
  \/ exists w, In w words
       /\ (c = w
           \/ exists ov, 0 < overlapChars /\ len ov <= overlapChars
                         /\ c = ov +:+ " " +:+ w).

(** The chunk [c2] starts with a text, not empty, that ends [c1]. *)
Definition overlapping (c1 c2 : string) : Prop :=
  exists ov q rest, ov <> "" /\ c1 = q +:+ ov /\ c2 = ov +:+ " " +:+ rest.

(** Each chunk of [l] but the first overlaps the chunk before it. *)
Fixpoint linked (l : list string) : Prop :=
  match l with
  | c1 :: l' =>
      match l' with
      | c2 :: _ => overlapping c1 c2 /\ linked l'
      | [] => True
      end
  | [] => True
  end.

End sizing.

Import sizing.

(** ** The words for the calls of a run of the pipeline *)

Module calls.

(** The collaborator that a recorded call went to. *)
Inductive Stage :=
| StageCheckInput
| StageSearch
| StageGenerate
| StageCheckOutput.

Definition stageOf (e : Event) : Stage :=
  match e with
  | EvCheckInput _ _ => StageCheckInput
  | EvSearch _ _ _ => StageSearch
  | EvGenerate _ _ _ => StageGenerate
  | EvCheckOutput _ _ => StageCheckOutput
  end.

(** The error that the call returned, if it did. *)
Definition errorOf (e : Event) : option error :=
  match e with
  | EvCheckInput _ (inr err) | EvSearch _ _ (inr err)
  | EvGenerate _ _ (inr err) | EvCheckOutput _ (inr err) => Some err
  | _ => None
  end.

(** The message that [Ask] puts before the error of a call. *)
Definition wrapOf (e : Event) : string :=
  match e with
  | EvCheckInput _ _ => "safety check failed"
  | EvSearch _ _ _ => "failed to retrieve documents"
  | EvGenerate _ _ _ => "failed to generate response"
  | EvCheckOutput _ _ => "output safety check failed"
  end.

(** The order in which [Ask] goes to its collaborators. *)
Definition askOrder : list Stage :=
  [StageCheckInput; StageSearch; StageGenerate; StageCheckOutput].

(** The question that a call of the input check or of the retriever
    is about. *)
Definition asked (e : Event) : option string :=
  match e with
  | EvCheckInput text _ => Some text
  | EvSearch query _ _ => Some query
  | _ => None
  end.

(** [t] occurs in [s]. *)
Definition Contains (s t : string) : Prop := exists p q, s = p +:+ t +:+ q.

(** The line feed. *)
Definition nl : string := String "010" "".

End calls.

Import calls.

(** ** internal/cli/chat.go: the loop of the chat session *)

Module chat.

Section Chat.
Variable W : Type.

(** [fmt.Sprintf("%.3f", x)], of Go's library. *)
Variable fmtFloat3 : float64 -> string.

(** The loop over [sources] that prints them, from index [i]. *)
Fixpoint sourceLines (i : Z) (sources : list Source.t) : list string :=
  match sources with
  | [] => []
  | source :: rest =>
      ("  [" +:+ prompt.itoa (i + 1) +:+ "] " +:+ cli.getSourceTitle source
       +:+ " (score: " +:+ fmtFloat3 (Source.Score source) +:+ ")" +:+ nl)
      :: sourceLines (i + 1) rest
  end.

(** What the loop prints for what [Ask] returned. *)
Definition printAnswer (r : Answer) : list string :=
  let '(response, sources, err) := r in
  match err with
  | Some err => ["❌ Error: " +:+ err +:+ nl]
  | None =>
      (response +:+ nl)
      :: match sources with
         | Some (source :: rest) =>
             (nl +:+ "📚 Sources:" +:+ nl) :: sourceLines 0 (source :: rest)
         | _ => []
         end
  end.

(** The loop of [runChat] over the lines that the scanner yields; it
    returns what was printed, one entry for each call that prints, and
    the store. *)
Fixpoint chatLoop (a : App W) (temperature : float64) (lines : list string)
    (s : Store W) : list string * Store W :=
  match lines with
  | [] => ([nl +:+ " >"], s)
  | line :: rest =>
      let input := TrimSpace line in
      if String.eqb input "" then
        let '(out, s') := chatLoop a temperature rest s in
        ((nl +:+ " >") :: out, s')
      else if String.eqb input "exit" || String.eqb input "quit" then
        ([nl +:+ " >"; nl +:+ "👋 Goodbye!" +:+ nl], s)
      else
        let '(r, s1) := Ask a input temperature s in
        let '(out, s') := chatLoop a temperature rest s1 in
        ((nl +:+ " >") :: "ʕ•ᴥ•ʔ " :: printAnswer r ++ out, s')
  end.

End Chat.

Arguments chatLoop {W}.

End chat.

(** ** More scripted deployments *)

Module Cases.

Import Scenario.

(** A deployment whose vector database is down. *)
Definition downApp : App unit :=
  mkApp demoConfig (constClient "The answer.")
        (safety.asSafetyGate (safety.NewGuard (constClient "safe") true))
        {| Search := fun _ _ w => (inr "connection refused", w) |}
        (fun _ w => (inr "no such file", w)).

(** A guard model that answers safe to its first prompt and unsafe S1
    from then on; the world counts its calls. *)
Definition turningGuard : types.LLMClient nat :=
  {| Generate := fun _ _ n =>
       (inl (if (n =? 0)%nat then "safe" else "unsafe S1"), S n) |}.

Definition turningApp : App nat :=
  mkApp demoConfig {| Generate := fun _ _ n => (inl "The answer.", n) |}
        (safety.asSafetyGate (safety.NewGuard turningGuard true))
        {| Search := fun _ _ n => (inl [demoDoc], n) |}
        (fun _ n => (inr "no such file", n)).

Definition storeN : Store nat := mkStore 0%nat (prompt.NewBuilder "") [].

End Cases.

(* ================================================================= *)
(** * Facts *)

(** ** Strings *)

Section StringFacts.

Lemma append_nil_r (s : string) : s +:+ "" = s.
Proof. induction s as [|c s IH]; simpl; [reflexivity | now rewrite IH]. Qed.

Lemma append_assoc (a b c : string) : (a +:+ b) +:+ c = a +:+ (b +:+ c).
Proof. induction a as [|x a IH]; simpl; [reflexivity | now rewrite IH]. Qed.

Lemma length_append (a b : string) :
  String.length (a +:+ b) = (String.length a + String.length b)%nat.
Proof. induction a as [|x a IH]; simpl; [reflexivity | now rewrite IH]. Qed.

Lemma drop_app_le (n : nat) (a b : string) :
  (n <= String.length a)%nat -> drop n (a +:+ b) = drop n a +:+ b.
Proof.
  revert a; induction n as [|n IH]; intros a Hn; [reflexivity|].
  destruct a as [|x a]; simpl in *; [lia|]. apply IH. lia.
Qed.

Lemma drop_length (n : nat) (s : string) :
  String.length (drop n s) = (String.length s - n)%nat.
Proof.
  revert s; induction n as [|n IH]; intros s; simpl; [lia|].
  destruct s as [|x s]; simpl; [reflexivity | apply IH].
Qed.

Lemma drop_suffix (n : nat) (s : string) : exists p, s = p +:+ drop n s.
Proof.
  revert s; induction n as [|n IH]; intros s; [now exists ""|].
  destruct s as [|x s]; [now exists ""|].
  destruct (IH s) as [p Hp]. exists (String x p). simpl. now rewrite <- Hp.
Qed.

Lemma drop_prefix (n : nat) (s : string) :
  (n <= String.length s)%nat ->
  exists p, s = p +:+ drop n s /\ String.length p = n.
Proof.
  revert s; induction n as [|n IH]; intros s Hn; [now exists ""|].
  destruct s as [|x s]; [simpl in Hn; lia|]. simpl in Hn.
  destruct (IH s) as (p & Hp & Hl); [lia|]. exists (String x p). simpl.
  split; [now rewrite <- Hp | now rewrite Hl].
Qed.

End StringFacts.

(** ** White space, fields and trimming *)

Section SpaceFacts.

Lemma asciiSpace_space : asciiSpace " " = true.
Proof. reflexivity. Qed.

Lemma uniSpace2_sp (c : ascii) : uniSpace2 c " " = false.
Proof. unfold uniSpace2. simpl. now rewrite andb_false_r. Qed.

Lemma uniSpace3_sp2 (c1 c3 : ascii) : uniSpace3 c1 " " c3 = false.
Proof.
  unfold uniSpace3. change (byteIs " " 154) with false.
  change (byteIs " " 128) with false. change (byteIs " " 129) with false.
  now rewrite ?andb_false_r, ?andb_false_l.
Qed.

Lemma uniSpace3_sp3 (c1 c2 : ascii) : uniSpace3 c1 c2 " " = false.
Proof. unfold uniSpace3. simpl. now rewrite ?andb_false_r. Qed.

Lemma spaceWidth_le (s : string) : (spaceWidth s <= String.length s)%nat.
Proof.
  destruct s as [|c1 [|c2 [|c3 r]]]; simpl;
    repeat match goal with |- context [if ?b then _ else _] => destruct b end;
    lia.
Qed.

(** A separating space never completes a white-space rune. *)
Lemma spaceWidth_app_space (s t : string) :
  s <> "" -> spaceWidth (s +:+ String " " t) = spaceWidth s.
Proof.
  intros Hs. destruct s as [|c1 [|c2 [|c3 r]]]; [congruence| | |]; simpl.
  - rewrite uniSpace2_sp. destruct t; [reflexivity|].
    now rewrite uniSpace3_sp2.
  - now rewrite uniSpace3_sp3.
  - reflexivity.
Qed.

Lemma spaceWidth_prefix (p t : string) (k : nat) :
  spaceWidth p = S k -> spaceWidth (p +:+ t) = S k.
Proof.
  destruct p as [|c1 [|c2 [|c3 r]]]; simpl; try discriminate.
  - destruct (asciiSpace c1); [auto | discriminate].
  - destruct (asciiSpace c1); [auto|].
    destruct (uniSpace2 c1 c2); [auto | discriminate].
  - auto.
Qed.

Lemma clean_cons (c : ascii) (s : string) :
  clean (String c s) = true -> spaceWidth (String c s) = 0%nat /\ clean s = true.
Proof.
  simpl clean. intros H. apply andb_true_iff in H as [H1 H2].
  apply Nat.eqb_eq in H1. now split.
Qed.

Lemma clean_cons_intro (c : ascii) (s : string) :
  spaceWidth (String c s) = 0%nat -> clean s = true -> clean (String c s) = true.
Proof.
  intros H0 H. change (clean (String c s))
    with ((spaceWidth (String c s) =? 0)%nat && clean s).
  now rewrite H0, H.
Qed.

Lemma clean_drop (n : nat) (s : string) : clean s = true -> clean (drop n s) = true.
Proof.
  revert s; induction n as [|n IH]; intros s H; [exact H|].
  destruct s as [|c s]; [reflexivity|].
  apply clean_cons in H as [_ H]. simpl. now apply IH.
Qed.

Lemma push_app (w : string) (ws vs : list string) :
  push w ws ++ vs = push w (ws ++ vs).
Proof. now destruct w. Qed.

Lemma fields_from_skip (k : nat) (c : ascii) (s : string) :
  fields_from (S k) (String c s)
  = ("", push (fst (fields_from k s)) (snd (fields_from k s))).
Proof. simpl. now destruct (fields_from k s). Qed.

Lemma fields_from_0 (c : ascii) (s : string) :
  fields_from 0 (String c s)
  = match spaceWidth (String c s) with
    | O => (String c (fst (fields_from 0 s)), snd (fields_from 0 s))
    | S k => ("", push (fst (fields_from k s)) (snd (fields_from k s)))
    end.
Proof.
  change (fields_from 0 (String c s))
    with (match spaceWidth (String c s) with
          | O => let '(w, ws) := fields_from 0 s in (String c w, ws)
          | S k => let '(w, ws) := fields_from k s in ("", push w ws)
          end).
  destruct (spaceWidth (String c s)) as [|k].
  - now destruct (fields_from 0 s).
  - now destruct (fields_from k s).
Qed.

Lemma Fields_unfold (s : string) :
  Fields s = push (fst (fields_from 0 s)) (snd (fields_from 0 s)).
Proof. unfold Fields. now destruct (fields_from 0 s). Qed.

Lemma fields_from_app_space (a b : string) (k : nat) :
  (k <= String.length a)%nat ->
  fields_from k (a +:+ String " " b)
  = (fst (fields_from k a), snd (fields_from k a) ++ Fields b).
Proof.
  revert k; induction a as [|c a IH]; intros k Hk.
  - assert (k = 0%nat) as -> by (simpl in Hk; lia).
    change ("" +:+ String " " b) with (String " " b).
    rewrite fields_from_0. change (spaceWidth (String " " b)) with 1%nat.
    cbn iota. now rewrite Fields_unfold.
  - change (String c a +:+ String " " b) with (String c (a +:+ String " " b)).
    destruct k as [|k].
    + rewrite !fields_from_0.
      change (String c (a +:+ String " " b)) with (String c a +:+ String " " b).
      rewrite spaceWidth_app_space by discriminate.
      pose proof (spaceWidth_le (String c a)) as Hle.
      destruct (spaceWidth (String c a)) as [|j].
      * rewrite IH by lia. reflexivity.
      * simpl in Hle. rewrite IH by lia. cbn [fst snd]. now rewrite push_app.
    + rewrite !fields_from_skip. simpl in Hk. rewrite IH by lia.
      cbn [fst snd]. now rewrite push_app.
Qed.

Lemma Fields_app_space (a b : string) :
  Fields (a +:+ String " " b) = Fields a ++ Fields b.
Proof.
  rewrite (Fields_unfold (a +:+ _)), fields_from_app_space by lia.
  cbn [fst snd]. now rewrite <- push_app, <- Fields_unfold.
Qed.

Lemma fields_from_clean (w : string) :
  clean w = true -> fields_from 0 w = (w, []).
Proof.
  induction w as [|c w IH]; intros H; [reflexivity|].
  apply clean_cons in H as [H0 H]. rewrite fields_from_0, H0, IH by exact H.
  reflexivity.
Qed.

Lemma Fields_word (w : string) : Word w -> Fields w = [w].
Proof.
  intros [Hne Hc]. rewrite Fields_unfold, fields_from_clean by exact Hc.
  destruct w; [congruence | reflexivity].
Qed.

(** What [fields_from] returns: a clean prefix and words. *)
Lemma fields_from_inv (s : string) (k : nat) :
  (exists rest, s = fst (fields_from k s) +:+ rest)
  /\ clean (fst (fields_from k s)) = true
  /\ Forall Word (snd (fields_from k s)).
Proof.
  revert k; induction s as [|c s IH]; intros k.
  - simpl. split; [now exists ""|]. split; [reflexivity | constructor].
  - assert (Hpush : forall j, Forall Word
              (push (fst (fields_from j s)) (snd (fields_from j s)))).
    { intros j. destruct (IH j) as (_ & Hc & Hws).
      destruct (fst (fields_from j s)) eqn:E; simpl; [exact Hws|].
      constructor; [split; [discriminate | exact Hc] | exact Hws]. }
    destruct k as [|k].
    + rewrite fields_from_0.
      destruct (spaceWidth (String c s)) as [|j] eqn:Hsw.
      * destruct (IH 0%nat) as ([rest Hrest] & Hc & Hws). cbn [fst snd].
        split; [exists rest; simpl; now rewrite <- Hrest|].
        split; [|exact Hws].
        apply clean_cons_intro; [|exact Hc].
        destruct (spaceWidth (String c (fst (fields_from 0 s)))) as [|i] eqn:E;
          [reflexivity|].
        apply (spaceWidth_prefix _ rest) in E.
        change (String c (fst (fields_from 0 s)) +:+ rest)
          with (String c (fst (fields_from 0 s) +:+ rest)) in E.
        rewrite <- Hrest in E. congruence.
      * cbn [fst snd]. split; [now exists (String c s)|].
        split; [reflexivity | apply Hpush].
    + rewrite fields_from_skip. cbn [fst snd].
      split; [now exists (String c s)|]. split; [reflexivity | apply Hpush].
Qed.

Lemma Fields_words (s : string) : Forall Word (Fields s).
Proof.
  rewrite Fields_unfold. destruct (fields_from_inv s 0) as (_ & Hc & Hws).
  destruct (fst (fields_from 0 s)) eqn:E; simpl; [exact Hws|].
  constructor; [split; [discriminate | exact Hc] | exact Hws].
Qed.

End SpaceFacts.

(** ** Words joined by single spaces *)

Section JoinFacts.

Lemma Join_cons (w v : string) (vs : list string) :
  Join (w :: v :: vs) " " = w +:+ String " " (Join (v :: vs) " ").
Proof. reflexivity. Qed.

Lemma Join_app (a b : list string) :
  a <> [] -> b <> [] ->
  Join (a ++ b) " " = Join a " " +:+ String " " (Join b " ").
Proof.
  intros Ha Hb. induction a as [|w a IH]; [congruence|].
  destruct a as [|v a].
  - destruct b as [|u b]; [congruence | reflexivity].
  - change ((w :: v :: a) ++ b) with (w :: v :: (a ++ b)).
    rewrite !Join_cons, append_assoc.
    change (v :: a ++ b) with ((v :: a) ++ b). now rewrite IH.
Qed.

Lemma Join_snoc (a : list string) (w : string) :
  a <> [] -> Join (a ++ [w]) " " = Join a " " +:+ String " " w.
Proof. intros Ha. now rewrite Join_app. Qed.

Lemma Word_head (w : string) :
  Word w -> exists c r, w = String c r /\ spaceWidth w = 0%nat.
Proof.
  intros [Hne Hc]. destruct w as [|c r]; [congruence|].
  apply clean_cons in Hc as [H0 _]. eauto.
Qed.

Lemma Join_head (ws : list string) :
  ws <> [] -> Forall Word ws ->
  Join ws " " <> "" /\ spaceWidth (Join ws " ") = 0%nat.
Proof.
  intros Hne Hws. destruct ws as [|w ws]; [congruence|].
  inversion_clear Hws as [|? ? Hw _].
  destruct (Word_head w Hw) as (c & r & -> & H0).
  destruct ws as [|v ws]; [split; [discriminate | exact H0]|].
  rewrite Join_cons. split; [discriminate|].
  now rewrite spaceWidth_app_space.
Qed.

Lemma Fields_Join (ws : list string) :
  Forall Word ws -> Fields (Join ws " ") = ws.
Proof.
  induction 1 as [|w ws Hw Hws IH]; [reflexivity|].
  destruct ws as [|v ws]; [now apply Fields_word|].
  rewrite Join_cons, Fields_app_space, IH, Fields_word by exact Hw.
  reflexivity.
Qed.

Lemma allSpace_go_app_space (a b : string) (k : nat) :
  (k <= String.length a)%nat ->
  allSpace_go k (a +:+ String " " b) = allSpace_go k a && allSpace b.
Proof.
  revert k; induction a as [|c a IH]; intros k Hk.
  - assert (k = 0%nat) as -> by (simpl in Hk; lia). reflexivity.
  - change (String c a +:+ String " " b) with (String c (a +:+ String " " b)).
    destruct k as [|k]; [|simpl in Hk; simpl; apply IH; lia].
    change (allSpace_go 0 (String c (a +:+ String " " b)))
      with (match spaceWidth (String c a +:+ String " " b) with
            | O => false
            | S j => allSpace_go j (a +:+ String " " b)
            end).
    change (allSpace_go 0 (String c a))
      with (match spaceWidth (String c a) with
            | O => false
            | S j => allSpace_go j a
            end).
    rewrite spaceWidth_app_space by discriminate.
    pose proof (spaceWidth_le (String c a)) as Hle.
    destruct (spaceWidth (String c a)) as [|j]; [reflexivity|].
    simpl in Hle. apply IH. lia.
Qed.

Lemma allSpace_head (s : string) :
  s <> "" -> spaceWidth s = 0%nat -> allSpace s = false.
Proof.
  intros Hne H0. destruct s as [|c s]; [congruence|].
  unfold allSpace.
  change (allSpace_go 0 (String c s))
    with (match spaceWidth (String c s) with
          | O => false
          | S j => allSpace_go j s
          end).
  now rewrite H0.
Qed.

Lemma allSpace_sp (s : string) : allSpace (String " " s) = allSpace s.
Proof. reflexivity. Qed.

Lemma TrimRight_cons (c : ascii) (s : string) :
  TrimRight (String c s)
  = if allSpace (String c s) then "" else String c (TrimRight s).
Proof. reflexivity. Qed.

Lemma TrimRight_clean (w : string) : clean w = true -> TrimRight w = w.
Proof.
  induction w as [|c w IH]; intros H; [reflexivity|].
  rewrite TrimRight_cons. apply clean_cons in H as [H0 H].
  rewrite allSpace_head by (discriminate || exact H0). now rewrite IH.
Qed.

Lemma TrimRight_clean_space (w t : string) :
  clean w = true ->
  TrimRight (w +:+ String " " t) = w +:+ TrimRight (String " " t).
Proof.
  induction w as [|c w IH]; intros H; [reflexivity|].
  change (String c w +:+ String " " t) with (String c (w +:+ String " " t)).
  rewrite TrimRight_cons. apply clean_cons in H as [H0 H].
  change (String c (w +:+ String " " t)) with (String c w +:+ String " " t).
  unfold allSpace at 1. rewrite allSpace_go_app_space by lia.
  fold (allSpace (String c w)).
  rewrite allSpace_head by (discriminate || exact H0).
  cbn [andb]. rewrite IH by exact H. reflexivity.
Qed.

Lemma TrimRight_Join (ws : list string) :
  ws <> [] -> Forall Word ws -> TrimRight (Join ws " ") = Join ws " ".
Proof.
  intros Hne Hws. induction Hws as [|w ws Hw Hws IH]; [congruence|].
  destruct ws as [|v ws]; [apply TrimRight_clean, Hw|].
  rewrite Join_cons, TrimRight_clean_space by apply Hw.
  rewrite TrimRight_cons, allSpace_sp.
  destruct (Join_head (v :: ws)) as [Hj H0]; [discriminate | exact Hws |].
  rewrite allSpace_head by assumption. rewrite IH by discriminate.
  reflexivity.
Qed.

Lemma TrimLeft_head (s : string) : spaceWidth s = 0%nat -> TrimLeft s = s.
Proof.
  intros H0. destruct s as [|c s]; [reflexivity|]. unfold TrimLeft.
  change (TrimLeft_go 0 (String c s))
    with (match spaceWidth (String c s) with
          | O => String c s
          | S k => TrimLeft_go k s
          end).
  now rewrite H0.
Qed.

Lemma TrimLeft_sp (s : string) : TrimLeft (String " " s) = TrimLeft s.
Proof. reflexivity. Qed.

(** A chunk under construction has no white space to trim. *)
Lemma TrimSpace_Join (ws : list string) :
  ws <> [] -> Forall Word ws -> TrimSpace (Join ws " ") = Join ws " ".
Proof.
  intros Hne Hws. unfold TrimSpace.
  destruct (Join_head ws Hne Hws) as [_ H0].
  now rewrite TrimLeft_head, TrimRight_Join.
Qed.

Lemma TrimSpace_sp_Join (ws : list string) :
  ws <> [] -> Forall Word ws ->
  TrimSpace (String " " (Join ws " ")) = Join ws " ".
Proof.
  intros Hne Hws. unfold TrimSpace. rewrite TrimLeft_sp.
  now apply TrimSpace_Join.
Qed.

End JoinFacts.

(** ** The overlap text *)

Section OverlapFacts.

Lemma drop_app_ge (n : nat) (a b : string) :
  (String.length a <= n)%nat -> drop n (a +:+ b) = drop (n - String.length a) b.
Proof.
  revert n; induction a as [|x a IH]; intros n Hn; simpl.
  - now rewrite Nat.sub_0_r.
  - destruct n as [|n]; simpl in *; [lia|]. apply IH. lia.
Qed.

Lemma clean_not_space (c : ascii) (s : string) :
  clean (String c s) = true -> Ascii.eqb c " " = false.
Proof.
  intros H. apply clean_cons in H as [H0 _].
  destruct (Ascii.eqb c " ") eqn:E; [|reflexivity].
  apply Ascii.eqb_eq in E as ->. discriminate.
Qed.

Lemma overlapScan_clean (w : string) : clean w = true -> overlapScan w = None.
Proof.
  induction w as [|c w IH]; intros H; [reflexivity|].
  simpl. rewrite (clean_not_space _ _ H).
  apply clean_cons in H as [_ H]. now apply IH.
Qed.

Lemma overlapScan_clean_space (w t : string) :
  clean w = true ->
  overlapScan (w +:+ String " " t) = Some (TrimSpace (String " " t)).
Proof.
  induction w as [|c w IH]; intros H; [reflexivity|].
  change (String c w +:+ String " " t) with (String c (w +:+ String " " t)).
  change (overlapScan (String c (w +:+ String " " t)))
    with (if Ascii.eqb c " "
          then Some (TrimSpace (String c (w +:+ String " " t)))
          else overlapScan (w +:+ String " " t)).
  rewrite (clean_not_space _ _ H).
  apply clean_cons in H as [_ H]. now apply IH.
Qed.

(** A suffix of a chunk under construction starts inside a word or at a
    separating space. *)
Lemma tailsOf_sub (ws' ws : list string) :
  (forall x, In x ws' -> In x ws) -> tailsOf ws' ws.
Proof.
  intros H. apply List.Forall_forall. intros x Hx. exists x.
  split; [now apply H | now exists ""].
Qed.

Lemma tailsOf_mono (ws' ws vs : list string) :
  (forall x, In x ws -> In x vs) -> tailsOf ws' ws -> tailsOf ws' vs.
Proof.
  intros H Ht. eapply List.Forall_impl; [|exact Ht].
  intros x (w & Hw & Hx). exists w. split; [now apply H | exact Hx].
Qed.

Lemma tailsOf_drop (n : nat) (w : string) (rest ws : list string) :
  In w ws -> (forall x, In x rest -> In x ws) ->
  tailsOf (drop n w :: rest) ws.
Proof.
  intros Hw Hrest. constructor; [|now apply tailsOf_sub].
  exists w. split; [exact Hw | apply drop_suffix].
Qed.

Lemma drop_Join (ws : list string) (n : nat) :
  ws <> [] -> Forall Word ws -> (n < String.length (Join ws " "))%nat ->
  exists ws', ws' <> [] /\ Forall Word ws' /\ tailsOf ws' ws
    /\ (drop n (Join ws " ") = Join ws' " "
        \/ drop n (Join ws " ") = String " " (Join ws' " ")).
Proof.
  intros Hne Hws. revert n.
  induction Hws as [|w ws Hw Hws IH]; [congruence|]. intros n Hn.
  assert (Hfrag : forall k, (k < String.length w)%nat -> Word (drop k w)).
  { intros k Hk. split; [|apply clean_drop, Hw].
    intros E. pose proof (drop_length k w) as Hl. rewrite E in Hl.
    simpl in Hl. lia. }
  destruct ws as [|v ws].
  - exists [drop n w]. split; [discriminate|].
    split; [constructor; [now apply Hfrag | constructor]|].
    split; [apply tailsOf_drop; [now left | intros x []] | now left].
  - rewrite Join_cons in *.
    destruct (Nat.lt_ge_cases n (String.length w)) as [Hlt|Hge].
    + exists (drop n w :: v :: ws). split; [discriminate|].
      split; [constructor; [now apply Hfrag | exact Hws]|].
      split; [apply tailsOf_drop; [now left | intros x Hx; now right]|].
      left. rewrite drop_app_le by lia. now rewrite Join_cons.
    + rewrite drop_app_ge by exact Hge.
      rewrite length_append in Hn.
      change (String.length (String " " (Join (v :: ws) " ")))
        with (S (String.length (Join (v :: ws) " "))) in Hn.
      destruct (n - String.length w)%nat as [|m] eqn:Em.
      * exists (v :: ws). split; [discriminate|]. split; [exact Hws|].
        split; [apply tailsOf_sub; intros x Hx; now right | now right].
      * simpl. destruct (IH ltac:(discriminate) m ltac:(lia))
          as (ws' & H1 & H2 & H3 & H4).
        exists ws'. repeat split; try assumption.
        eapply tailsOf_mono; [|exact H3]. intros x Hx. now right.
Qed.

(** On a chunk under construction [getOverlapText] does not panic, and
    returns a suffix of the chunk that is itself words joined by single
    spaces. *)
Lemma getOverlapText_Join (ws : list string) (overlapChars : Z) :
  ws <> [] -> Forall Word ws -> 0 < overlapChars ->
  exists ws' q, ws' <> [] /\ Forall Word ws'
    /\ getOverlapText (Join ws " ") overlapChars = Some (Join ws' " ")
    /\ Join ws " " = q +:+ Join ws' " "
    /\ tailsOf ws' ws.
Proof.
  intros Hne Hws Hoc. unfold getOverlapText.
  destruct (len (Join ws " ") <=? overlapChars) eqn:Hle.
  { exists ws, "". repeat split; try assumption. now apply tailsOf_sub. }
  apply Z.leb_gt in Hle. unfold len in *.
  set (text := Join ws " ") in *.
  assert (Hpos : (0 <=? Z.of_nat (String.length text) - overlapChars)
                 && (Z.of_nat (String.length text) - overlapChars
                     <=? Z.of_nat (String.length text)) = true).
  { apply andb_true_iff. split; apply Z.leb_le; lia. }
  rewrite Hpos.
  set (n := Z.to_nat (Z.of_nat (String.length text) - overlapChars)).
  assert (Hn : (n < String.length text)%nat) by (unfold n; lia).
  destruct (drop_suffix n text) as [q Hq].
  destruct (drop_Join ws n Hne Hws Hn) as (ws' & Hne' & Hws' & Ht & [E|E]);
    fold text in E; rewrite E in *.
  - destruct Hws' as [|w ws' Hw Hws']; [congruence|].
    destruct ws' as [|v ws'].
    + exists [w], q.
      rewrite (TrimSpace_Join [w]) by (discriminate || now constructor).
      change (Join [w] " ") with w in *.
      rewrite overlapScan_clean by apply Hw.
      repeat split; [discriminate | now constructor | exact Hq | exact Ht].
    + rewrite Join_cons in *.
      rewrite overlapScan_clean_space by apply Hw.
      rewrite TrimSpace_sp_Join by (discriminate || exact Hws').
      exists (v :: ws'), (q +:+ w +:+ " ").
      repeat split; [discriminate | exact Hws'| |now inversion Ht].
      rewrite Hq, !append_assoc. reflexivity.
  - exists ws', (q +:+ " ").
    change (overlapScan (String " " (Join ws' " ")))
      with (Some (TrimSpace (String " " (Join ws' " ")))).
    rewrite TrimSpace_sp_Join by assumption.
    repeat split; [exact Hne' | exact Hws'| |exact Ht].
    rewrite Hq, append_assoc. reflexivity.
Qed.

End OverlapFacts.

(** ** The layout of the chunks: the loop of [chunkText] *)

Section LayoutFacts.

Variables maxChars overlapChars : Z.

Lemma chained_snoc prev L p :
  chained overlapChars prev (L ++ [p])
  <-> chained overlapChars prev L
      /\ seedOK overlapChars (lastChunk prev L) (fst p).
Proof.
  revert prev; induction L as [|x L IH]; intros prev; simpl.
  - tauto.
  - rewrite IH. tauto.
Qed.

Lemma lastChunk_snoc prev L p : lastChunk prev (L ++ [p]) = Some (render p).
Proof. revert prev; induction L as [|x L IH]; intros prev; simpl; auto. Qed.

Lemma chained_seeds prev L :
  chained overlapChars prev L -> Forall (fun p => Forall Word (fst p)) L.
Proof.
  revert prev; induction L as [|x L IH]; intros prev; simpl; [constructor|].
  intros [[E|(_ & Hw & _)] HL]; constructor; eauto.
  rewrite E. constructor.
Qed.

Lemma chained_no_overlap prev L :
  overlapChars <= 0 -> chained overlapChars prev L ->
  Forall (fun p => fst p = []) L.
Proof.
  intros Hoc. revert prev; induction L as [|x L IH]; intros prev; simpl;
    [constructor|].
  intros [[E|(Hpos & _)] HL]; [|lia]. constructor; eauto.
Qed.

Lemma render_words seed seg :
  seg <> [] -> Forall Word seed -> Forall Word seg ->
  seed ++ seg <> [] /\ Forall Word (seed ++ seg).
Proof.
  intros Hne Hs Hg. split; [|now apply Forall_app].
  destruct seed; [exact Hne | discriminate].
Qed.

Lemma chunkStep_inv done st w :
  chunkInv overlapChars done st -> Forall Word done -> Word w ->
  exists st', chunkStep maxChars overlapChars st w = Some st'
              /\ chunkInv overlapChars (done ++ [w]) st'.
Proof.
  intros [[-> ->]|(L & seed & seg & Hch & Hcur & Hdone & Hseg & Hne & Hc)]
    Hwords Hw.
  - exists ([], w). split.
    + unfold chunkStep. cbn [String.eqb negb]. rewrite andb_false_r.
      reflexivity.
    + right. exists [], [], [w]. cbn.
      repeat split; [discriminate | constructor | now left].
  - destruct st as [chunks cur]. cbn [fst snd] in Hch, Hcur. subst chunks.
    assert (Hsd : Forall Word seed).
    { apply chained_seeds in Hc. apply Forall_app in Hc as [_ Hc].
      now inversion Hc. }
    assert (Hsg : Forall Word seg).
    { rewrite Hdone in Hwords. now apply Forall_app in Hwords as [_ ?]. }
    destruct (render_words seed seg Hseg Hsd Hsg) as [Hne1 Hall].
    destruct (Join_head _ Hne1 Hall) as [Hcne _].
    assert (Htest : cur +:+ " " +:+ w = render (seed, seg ++ [w])).
    { subst cur. unfold render. cbn [fst snd].
      now rewrite app_assoc, Join_snoc. }
    assert (Heq : String.eqb cur "" = false).
    { apply String.eqb_neq. subst cur. exact Hcne. }
    unfold chunkStep. rewrite Heq. cbn [negb]. rewrite andb_true_r.
    rewrite append_assoc, Htest.
    destruct (len (render (seed, seg ++ [w])) >? maxChars).
    + assert (Htrim : TrimSpace cur = render (seed, seg)).
      { subst cur. unfold render. now apply TrimSpace_Join. }
      rewrite Htrim.
      assert (Hlen : (Z.of_nat (length (map render L ++ [render (seed, seg)]))
                      >? 0) = true).
      { rewrite length_app. simpl. apply Z.gtb_lt. lia. }
      rewrite Hlen, andb_true_r.
      assert (Hinv : forall sd, seedOK overlapChars (Some cur) sd ->
                chunkInv overlapChars (done ++ [w])
                  (map render L ++ [render (seed, seg)], render (sd, [w]))).
      { intros sd Hok. right. exists (L ++ [(seed, seg)]), sd, [w].
        cbn [fst snd]. rewrite !map_app, concat_app. cbn [map concat].
        rewrite app_nil_r, Hdone.
        repeat split; [discriminate | | ].
        - apply Forall_app. split; [exact Hne|]. now repeat constructor.
        - apply chained_snoc. split; [exact Hc|].
          rewrite lastChunk_snoc, <- Hcur. exact Hok. }
      destruct (overlapChars >? 0) eqn:Hoc.
      * apply Z.gtb_lt in Hoc.
        destruct (getOverlapText_Join _ overlapChars Hne1 Hall)
          as (ws' & q & Hne' & Hws' & Hov & Hq & Ht); [lia|].
        rewrite Hcur. unfold render at 1. cbn [fst snd]. rewrite Hov.
        exists (map render L ++ [render (seed, seg)], render (ws', [w])).
        split.
        -- do 2 f_equal. unfold render. cbn [fst snd].
           now rewrite Join_snoc.
        -- apply Hinv. right. split; [lia|]. split; [exact Hws'|].
           exists cur, q. split; [reflexivity|]. rewrite Hcur.
           split; [exact Hq|]. unfold render. cbn [fst snd].
           now rewrite Fields_Join.
      * exists (map render L ++ [render (seed, seg)], render ([], [w])).
        split; [reflexivity|]. apply Hinv. now left.
    + eexists; split; [reflexivity|]. right. exists L, seed, (seg ++ [w]).
      cbn [fst snd]. rewrite Hdone, app_assoc.
      repeat split; [now destruct seg | exact Hne|].
      apply chained_snoc. apply chained_snoc in Hc. exact Hc.
Qed.

Lemma chunkLoop_inv todo done st :
  chunkInv overlapChars done st -> Forall Word (done ++ todo) ->
  exists st', chunkLoop maxChars overlapChars todo st = Some st'
              /\ chunkInv overlapChars (done ++ todo) st'.
Proof.
  revert done st; induction todo as [|w todo IH]; intros done st Hinv Hw.
  - exists st. rewrite app_nil_r. now split.
  - assert (Hd : Forall Word done) by now apply Forall_app in Hw as [? _].
    assert (Hww : Word w).
    { apply Forall_app in Hw as [_ Hw]. now inversion Hw. }
    destruct (chunkStep_inv done st w Hinv Hd Hww) as (st1 & Hstep & Hinv1).
    simpl. rewrite Hstep.
    replace (done ++ w :: todo) with ((done ++ [w]) ++ todo) in *
      by now rewrite <- app_assoc.
    now apply IH.
Qed.

End LayoutFacts.

(** Every run of [chunkText] returns, and its chunks have a layout. *)
Lemma chunkText_layout (text : string) (maxTokens overlap : Z) :
  exists L,
    chunkText text maxTokens overlap = Some (map render L)
    /\ concat (map snd L) = Fields text
    /\ Forall (fun p => snd p <> []) L
    /\ chained (wrap64 (overlap * 4)) None L.
Proof.
  unfold chunkText. pose proof (Fields_words text) as Hw.
  destruct (Fields text) as [|w ws] eqn:Ef.
  { exists []. simpl. repeat split. constructor. }
  cbn [length Nat.eqb].
  destruct (chunkLoop_inv (wrap64 (maxTokens * 4)) (wrap64 (overlap * 4))
              (w :: ws) [] ([], "")) as (st & Hloop & Hinv);
    [now left | exact Hw |].
  rewrite Hloop. cbn [app] in Hinv.
  destruct Hinv as [[? _]|(L & seed & seg & Hch & Hcur & Hdone & Hseg & Hne & Hc)];
    [discriminate|].
  destruct st as [chunks cur]. cbn [fst snd] in Hch, Hcur. subst chunks.
  assert (Hsd : Forall Word seed).
  { apply chained_seeds in Hc. apply Forall_app in Hc as [_ Hc].
    now inversion Hc. }
  assert (Hsg : Forall Word seg).
  { rewrite Hdone in Hw. now apply Forall_app in Hw as [_ ?]. }
  destruct (render_words seed seg Hseg Hsd Hsg) as [Hne1 Hall].
  destruct (Join_head _ Hne1 Hall) as [Hcne _].
  assert (Htrim : TrimSpace cur = cur).
  { subst cur. unfold render. now apply TrimSpace_Join. }
  rewrite Htrim.
  assert (Heq : String.eqb cur "" = false).
  { apply String.eqb_neq. subst cur. exact Hcne. }
  rewrite Heq. cbn [negb].
  exists (L ++ [(seed, seg)]). rewrite !map_app, concat_app.
  cbn [map concat fst snd]. rewrite app_nil_r, <- Hcur, <- Hdone.
  repeat split; [|exact Hc].
  apply Forall_app. split; [exact Hne|]. now repeat constructor.
Qed.

(** ** The chunker *)

Section ChunkerFacts.

Lemma Forall_concat_inv {A} (P : A -> Prop) (ls : list (list A)) :
  Forall P (concat ls) -> Forall (Forall P) ls.
Proof.
  induction ls as [|l ls IH]; simpl; intros H; [constructor|].
  apply Forall_app in H as [H1 H2]. constructor; auto.
Qed.

(** Every chunk of a layout is words joined by single spaces. *)
Lemma layout_words (text : string) (overlapChars : Z)
    (L : list (list string * list string)) :
  concat (map snd L) = Fields text ->
  Forall (fun p => snd p <> []) L ->
  chained overlapChars None L ->
  Forall (fun p => fst p ++ snd p <> [] /\ Forall Word (fst p ++ snd p)) L.
Proof.
  intros Hcat Hne Hch.
  pose proof (Fields_words text) as Hw. rewrite <- Hcat in Hw.
  apply Forall_concat_inv in Hw. apply chained_seeds in Hch.
  rewrite List.Forall_forall in Hw, Hne, Hch.
  apply List.Forall_forall. intros p Hp.
  apply render_words; [now apply Hne | now apply Hch |].
  apply Hw, in_map_iff. eauto.
Qed.

Lemma tailsOf_trans (a b c : list string) :
  tailsOf a b -> tailsOf b c -> tailsOf a c.
Proof.
  intros Hab Hbc. eapply List.Forall_impl; [|exact Hab].
  intros x (w & Hw & p & E). unfold tailsOf in Hbc.
  rewrite List.Forall_forall in Hbc.
  destruct (Hbc w Hw) as (w' & Hw' & p' & E').
  exists w'. split; [exact Hw'|]. exists (p' +:+ p).
  now rewrite E', E, append_assoc.
Qed.

(** Every word of every chunk is a word of the input or a tail of one. *)
Lemma layout_tails (input : list string) (overlapChars : Z)
    (L : list (list string * list string)) (prev : option string) :
  Forall (fun p => forall x, In x (snd p) -> In x input) L ->
  Forall (fun p => fst p ++ snd p <> [] /\ Forall Word (fst p ++ snd p)) L ->
  chained overlapChars prev L ->
  (forall c, prev = Some c -> tailsOf (Fields c) input) ->
  Forall (fun p => tailsOf (Fields (render p)) input) L.
Proof.
  intros Hin Hw. revert prev.
  induction L as [|p L IH]; intros prev Hch Hprev; [constructor|].
  inversion_clear Hin as [|? ? Hp Hin']. inversion_clear Hw as [|? ? Hwp Hw'].
  destruct Hch as [Hseed Hch].
  assert (Ht : tailsOf (Fields (render p)) input).
  { unfold render. rewrite Fields_Join by apply Hwp.
    apply Forall_app. split; [|now apply tailsOf_sub].
    destruct Hseed as [->|(_ & _ & c & q & Hc & _ & Hs)]; [constructor|].
    eapply tailsOf_trans; [exact Hs | now apply Hprev]. }
  constructor; [exact Ht|].
  apply (IH Hin' Hw' (Some (render p)) Hch). intros c Hc.
  now inversion Hc; subst.
Qed.

Lemma Join_length_ge (w : string) (ws : list string) :
  In w ws -> (String.length w <= String.length (Join ws " "))%nat.
Proof.
  induction ws as [|v ws IH]; [intros []|].
  intros Hin. destruct ws as [|u ws].
  - destruct Hin as [->|[]]. apply Nat.le_refl.
  - rewrite Join_cons, length_append.
    change (String.length (String " " (Join (u :: ws) " ")))
      with (S (String.length (Join (u :: ws) " "))).
    destruct Hin as [->|Hin]; [lia|]. specialize (IH Hin). lia.
Qed.

Lemma allSpace_go_fields (s : string) (k : nat) :
  allSpace_go k s = true -> fields_from k s = ("", []).
Proof.
  revert k; induction s as [|c s IH]; intros k H; [reflexivity|].
  destruct k as [|k].
  - rewrite fields_from_0.
    change (allSpace_go 0 (String c s))
      with (match spaceWidth (String c s) with
            | O => false
            | S j => allSpace_go j s
            end) in H.
    destruct (spaceWidth (String c s)) as [|j]; [discriminate|].
    now rewrite (IH j H).
  - rewrite fields_from_skip. simpl in H. now rewrite (IH k H).
Qed.

Lemma allSpace_Fields (s : string) : allSpace s = true -> Fields s = [].
Proof.
  intros H. rewrite Fields_unfold, (allSpace_go_fields s 0 H). reflexivity.
Qed.

End ChunkerFacts.

(** C9. Chunking the empty string, or a string made of white space only,
    returns the empty sequence of chunks (and does not fail), whatever
    [maxTokens] and [overlap] are. *)
Theorem chunkText_blank (text : string) (maxTokens overlap : Z) :
  allSpace text = true -> chunkText text maxTokens overlap = Some [].
Proof.
  intros H. unfold chunkText. now rewrite (allSpace_Fields text H).
Qed.

Lemma chunkText_blank_witness :
  chunkText "" 10 2 = Some []
  /\ chunkText "   " 10 2 = Some []
  /\ chunkText (String " " (String "009" (String "010" (String "194" (String "160" ""))))) 0 7
     = Some [].
Proof.
  split; [exact (chunkText_blank "" 10 2 eq_refl)|].
  split; [exact (chunkText_blank "   " 10 2 eq_refl)|].
  apply chunkText_blank. reflexivity.
Defined.

(** C6, as the code has it.  [chunkText] always returns.  Each chunk is an
    overlap seed followed by a non-empty run of consecutive words of the
    input, joined by single spaces; the runs, in order, make up the word
    sequence of the input; the seed is empty in the first chunk and
    whenever the overlap is not positive, and else is text that ends the
    chunk before; no chunk is empty and every word of the input is a word
    of some chunk.  Without overlap the words of the chunks, concatenated,
    are the word sequence of the input. *)
Theorem chunkText_runs (text : string) (maxTokens overlap : Z) :
  exists L : list (list string * list string),
    chunkText text maxTokens overlap = Some (map render L)
    /\ concat (map snd L) = Fields text
    /\ Forall (fun p => snd p <> []
                        /\ Fields (render p) = fst p ++ snd p
                        /\ render p <> "") L
    /\ chained (wrap64 (overlap * 4)) None L
    /\ (wrap64 (overlap * 4) <= 0 ->
        concat (map Fields (map render L)) = Fields text)
    /\ (forall w, In w (Fields text) ->
        exists c, In c (map render L) /\ In w (Fields c)).
Proof.
  destruct (chunkText_layout text maxTokens overlap) as (L & Hrun & Hcat & Hne & Hch).
  pose proof (layout_words text _ L Hcat Hne Hch) as Hw.
  exists L. split; [exact Hrun|]. split; [exact Hcat|].
  assert (Hf : Forall (fun p => Fields (render p) = fst p ++ snd p) L).
  { eapply List.Forall_impl; [|exact Hw]. intros p [_ Hp].
    now apply Fields_Join. }
  split.
  { rewrite List.Forall_forall in Hne, Hf, Hw.
    apply List.Forall_forall. intros p Hp. split; [now apply Hne|].
    split; [now apply Hf|]. destruct (Hw p Hp) as [H1 H2].
    now apply Join_head. }
  split; [exact Hch|]. split.
  - intros Hoc. rewrite <- Hcat. f_equal. rewrite map_map.
    apply chained_no_overlap in Hch; [|exact Hoc].
    clear - Hf Hch. induction L as [|p L IH]; [reflexivity|].
    inversion_clear Hf as [|? ? Hp Hf']. inversion_clear Hch as [|? ? Hs Hch'].
    simpl. rewrite Hp, Hs, IH by assumption. reflexivity.
  - intros w Hin. rewrite <- Hcat in Hin. apply in_concat in Hin as (seg & Hseg & Hw').
    apply in_map_iff in Hseg as (p & <- & Hp).
    exists (render p). split; [apply in_map_iff; eauto|].
    rewrite List.Forall_forall in Hf. rewrite (Hf p Hp). apply in_or_app. now right.
Qed.

Lemma chunkText_runs_witness :
  exists L : list (list string * list string),
    chunkText "the quick brown fox jumps over the lazy dog again and again" 10 2
    = Some (map render L)
    /\ concat (map snd L)
       = Fields "the quick brown fox jumps over the lazy dog again and again"
    /\ Forall (fun p => snd p <> []
                        /\ Fields (render p) = fst p ++ snd p
                        /\ render p <> "") L
    /\ chained (wrap64 (2 * 4)) None L
    /\ (wrap64 (2 * 4) <= 0 ->
        concat (map Fields (map render L))
        = Fields "the quick brown fox jumps over the lazy dog again and again")
    /\ (forall w,
        In w (Fields "the quick brown fox jumps over the lazy dog again and again") ->
        exists c, In c (map render L) /\ In w (Fields c)).
Proof.
  exact (chunkText_runs
           "the quick brown fox jumps over the lazy dog again and again" 10 2).
Defined.

(** C6 as stated fails: with an overlap the words of the chunks,
    concatenated, are not the word sequence of the input, and hold a
    word, the tail "ijkl", that the input does not have at all. *)
Lemma chunkText_concat_counterexample :
  chunkText "abcdefghijkl xy" 2 1 = Some ["abcdefghijkl"; "ijkl xy"]
  /\ concat (map Fields ["abcdefghijkl"; "ijkl xy"])
     <> Fields "abcdefghijkl xy"
  /\ In "ijkl" (concat (map Fields ["abcdefghijkl"; "ijkl xy"]))
  /\ ~ In "ijkl" (Fields "abcdefghijkl xy").
Proof.
  split; [reflexivity|]. split; [discriminate|]. split.
  - right. now left.
  - intros [H|[H|[]]]; discriminate.
Qed.

(** C8, as the code has it.  A word of the input that is longer than
    [maxChars] is kept whole: it is a word of some chunk, which is then
    longer than [maxChars].  Every word of every chunk is a word of the
    input or the tail of one (the seed of a chunk is the tail of the
    closed chunk, cut where the overlap starts if no space follows); and
    when the overlap is not positive every word of every chunk is a word
    of the input, so that nothing is split. *)
Theorem chunkText_long_word (text : string) (maxTokens overlap : Z)
    (w : string) :
  In w (Fields text) -> wrap64 (maxTokens * 4) < len w ->
  exists chunks,
    chunkText text maxTokens overlap = Some chunks
    /\ (exists c, In c chunks /\ In w (Fields c)
                  /\ wrap64 (maxTokens * 4) < len c)
    /\ (forall c f, In c chunks -> In f (Fields c) ->
        exists w', In w' (Fields text) /\ tailOf f w')
    /\ (wrap64 (overlap * 4) <= 0 ->
        forall c f, In c chunks -> In f (Fields c) -> In f (Fields text)).
Proof.
  intros Hin Hlong.
  destruct (chunkText_layout text maxTokens overlap) as (L & Hrun & Hcat & Hne & Hch).
  pose proof (layout_words text _ L Hcat Hne Hch) as Hw.
  assert (Htails : Forall (fun p => tailsOf (Fields (render p)) (Fields text)) L).
  { apply (layout_tails _ (wrap64 (overlap * 4)) L None);
      [|exact Hw | exact Hch | discriminate].
    apply List.Forall_forall. intros p Hp x Hx. rewrite <- Hcat.
    apply in_concat. exists (snd p). split; [apply in_map_iff; eauto | exact Hx]. }
  rewrite List.Forall_forall in Hw.
  exists (map render L). split; [exact Hrun|]. split; [|split].
  2:{ intros c f Hc Hf. apply in_map_iff in Hc as (p & <- & Hp).
      rewrite List.Forall_forall in Htails. specialize (Htails p Hp).
      unfold tailsOf in Htails. rewrite List.Forall_forall in Htails.
      now apply Htails. }
  - rewrite <- Hcat in Hin. apply in_concat in Hin as (seg & Hseg & Hw').
    apply in_map_iff in Hseg as (p & <- & Hp).
    destruct (Hw p Hp) as [_ Hall].
    assert (Hinp : In w (fst p ++ snd p)) by (apply in_or_app; now right).
    exists (render p). split; [apply in_map_iff; eauto|].
    split; [unfold render; now rewrite Fields_Join|].
    pose proof (Join_length_ge w _ Hinp) as Hlen. unfold len, render in *. lia.
  - intros Hoc c f Hc Hf. apply in_map_iff in Hc as (p & <- & Hp).
    destruct (Hw p Hp) as [_ Hall].
    unfold render in Hf. rewrite Fields_Join in Hf by exact Hall.
    apply (chained_no_overlap _ _ _ Hoc) in Hch.
    rewrite List.Forall_forall in Hch. rewrite (Hch p Hp) in Hf. simpl in Hf.
    rewrite <- Hcat. apply in_concat. exists (snd p).
    split; [apply in_map_iff; eauto | exact Hf].
Qed.

Lemma chunkText_long_word_witness :
  exists chunks,
    chunkText "see supercalifragilistic words" 3 0 = Some chunks
    /\ (exists c, In c chunks /\ In "supercalifragilistic" (Fields c)
                  /\ wrap64 (3 * 4) < len c)
    /\ (forall c f, In c chunks -> In f (Fields c) ->
        exists w', In w' (Fields "see supercalifragilistic words")
                   /\ tailOf f w')
    /\ (wrap64 (0 * 4) <= 0 ->
        forall c f, In c chunks -> In f (Fields c) ->
                    In f (Fields "see supercalifragilistic words")).
Proof.
  apply (chunkText_long_word "see supercalifragilistic words" 3 0
           "supercalifragilistic").
  - right. now left.
  - reflexivity.
Defined.

(** C8 as stated fails: the chunk after the long word starts with a
    piece of it, cut mid-word. *)
Lemma chunkText_split_counterexample :
  chunkText "supercalifragilistic is long" 3 2
  = Some ["supercalifragilistic"; "gilistic is"; "is long"]
  /\ In "supercalifragilistic" (Fields "supercalifragilistic is long")
  /\ wrap64 (3 * 4) < len "supercalifragilistic"
  /\ "supercalifragilistic" = "supercalifra" +:+ "gilistic"
  /\ In "gilistic" (Fields "gilistic is")
  /\ ~ In "supercalifragilistic" (Fields "gilistic is").
Proof.
  split; [reflexivity|]. split; [now left|]. split; [reflexivity|].
  split; [reflexivity|]. split; [now left|].
  intros [H|[H|[]]]; discriminate.
Qed.

(** ** The verdict parser *)

Section ParserFacts.

Import safety.

Lemma ToLower_equalFold (s t : string) :
  ToLower s = ToLower t <-> equalFold s t.
Proof.
  revert t; induction s as [|a s IH]; intros [|b t]; simpl; try easy.
  rewrite <- IH. split.
  - intros H. now inversion H.
  - intros [-> ->]. reflexivity.
Qed.

Lemma matchFold_sound (pat s r : string) :
  matchFold pat s = Some r -> exists u, foldsTo pat u /\ s = u +:+ r.
Proof.
  revert s; induction pat as [|p pat IH]; intros s H.
  - simpl in H. inversion H; subst. exists "". split; [constructor | reflexivity].
  - simpl in H. destruct (litFold p s) as [r1|] eqn:Hl; [|discriminate].
    destruct (IH _ H) as (u & Hu & ->).
    unfold litFold in Hl. destruct s as [|c s]; [discriminate|].
    destruct (Ascii.eqb (lowerByte c) p) eqn:Hc.
    + apply Ascii.eqb_eq in Hc. inversion Hl; subst.
      exists (String c u). split; [now constructor | reflexivity].
    + destruct (Ascii.eqb p "s" && byteIs c 197) eqn:Hs; [|discriminate].
      apply andb_true_iff in Hs as [Hp Hc1]. apply Ascii.eqb_eq in Hp as ->.
      destruct s as [|c' s]; [discriminate|].
      destruct (byteIs c' 191) eqn:Hc2; [|discriminate]. inversion Hl; subst.
      apply N.eqb_eq in Hc1, Hc2.
      apply (f_equal ascii_of_N) in Hc1, Hc2.
      rewrite ascii_N_embedding in Hc1, Hc2. subst c c'.
      exists (String "197" (String "191" u)).
      split; [now constructor | reflexivity].
Qed.

Lemma matchFold_complete (pat u r : string) :
  foldsTo pat u -> matchFold pat (u +:+ r) = Some r.
Proof.
  induction 1 as [|p c pat u Hc _ IH|pat u _ IH]; [reflexivity| |].
  - change (String c u +:+ r) with (String c (u +:+ r)).
    simpl. apply Ascii.eqb_eq in Hc. now rewrite Hc.
  - exact IH.
Qed.

Lemma foldsTo_unsafe_nonempty (u : string) : foldsTo "unsafe" u -> u <> "".
Proof. intros H. inversion H; discriminate. Qed.

Lemma foldsTo_unsafe_length (u : string) :
  foldsTo "unsafe" u -> (6 <= String.length u)%nat.
Proof.
  intros H.
  repeat match goal with
         | H : foldsTo (String _ _) _ |- _ => inversion_clear H
         end; simpl; lia.
Qed.

Lemma take_app (x r : string) :
  take (String.length (x +:+ r) - String.length r) (x +:+ r) = x.
Proof.
  rewrite length_append. replace (_ + _ - _)%nat with (String.length x) by lia.
  unfold take. induction x as [|c x IH]; simpl.
  - now destruct r.
  - now rewrite IH.
Qed.

Lemma skipSpaces_app (ws post : string) :
  allb reSpace ws = true -> headNot reSpace post ->
  skipSpaces (ws +:+ post) = post.
Proof.
  intros Hws Hpost. induction ws as [|c ws IH]; simpl in *.
  - destruct post as [|c post]; [reflexivity|]. simpl in *. now rewrite Hpost.
  - apply andb_true_iff in Hws as [Hc Hws]. rewrite Hc. now apply IH.
Qed.

Lemma spanDigits_app (ds post : string) :
  allb reDigit ds = true -> headNot reDigit post ->
  spanDigits (ds +:+ post) = (ds, post).
Proof.
  intros Hds Hpost. induction ds as [|c ds IH]; simpl in *.
  - destruct post as [|c post]; [reflexivity|]. simpl in *. now rewrite Hpost.
  - apply andb_true_iff in Hds as [Hc Hds]. rewrite Hc, IH by exact Hds.
    reflexivity.
Qed.

Lemma spanDigits_spec (s : string) :
  s = fst (spanDigits s) +:+ snd (spanDigits s)
  /\ allb reDigit (fst (spanDigits s)) = true.
Proof.
  induction s as [|c s [IH1 IH2]]; [now split|].
  simpl. destruct (reDigit c) eqn:Hc; [|now split].
  destruct (spanDigits s) as [d t]. simpl in *.
  split; [now rewrite <- IH1 | now rewrite Hc].
Qed.

Lemma litFold_s (sl r : string) :
  foldsTo "s" sl -> litFold "s" (sl +:+ r) = Some r.
Proof.
  intros H. pose proof (matchFold_complete _ _ r H) as Hm. simpl in Hm.
  destruct (litFold "s" (sl +:+ r)); [exact Hm | discriminate].
Qed.

Lemma litFold_s_sound (s r : string) :
  litFold "s" s = Some r -> exists sl, foldsTo "s" sl /\ s = sl +:+ r.
Proof.
  intros H. apply (matchFold_sound "s"). simpl. now rewrite H.
Qed.

Lemma captureCode_token (sl ds post : string) :
  foldsTo "s" sl -> ds <> "" -> allb reDigit ds = true ->
  headNot reDigit post ->
  captureCode (sl +:+ ds +:+ post) = Some (sl +:+ ds).
Proof.
  intros Hsl Hne Hds Hpost. unfold captureCode.
  rewrite (litFold_s _ _ Hsl), spanDigits_app by assumption.
  rewrite take_app. destruct ds; [congruence | reflexivity].
Qed.

Lemma captureCode_sound (s g : string) :
  captureCode s = Some g ->
  exists sl ds rest, s = sl +:+ ds +:+ rest /\ foldsTo "s" sl /\ ds <> ""
                     /\ allb reDigit ds = true /\ g = sl +:+ ds.
Proof.
  unfold captureCode. intros H.
  destruct (litFold "s" s) as [r|] eqn:Hl; [|discriminate].
  destruct (litFold_s_sound _ _ Hl) as (sl & Hsl & ->).
  destruct (spanDigits_spec r) as [Hr Hd].
  destruct (spanDigits r) as [d t]. simpl in Hr, Hd.
  destruct d as [|c d]; [discriminate|]. inversion H; subst g.
  exists sl, (String c d), t. rewrite take_app.
  repeat split; [now rewrite <- Hr | exact Hsl | discriminate | exact Hd].
Qed.

Lemma captureCode_none (post : string) :
  noToken post -> captureCode post = None.
Proof.
  intros Hno. destruct (captureCode post) as [g|] eqn:Hc; [|reflexivity].
  destruct (captureCode_sound _ _ Hc) as (sl & ds & rest & E & Hsl & Hne & Hds & _).
  exfalso. eapply Hno; eauto.
Qed.

Lemma digit_facts (c : ascii) :
  reDigit c = true -> byteIs c 197 = false /\ upperByte c = c.
Proof.
  destruct c as [[] [] [] [] [] [] [] []]; intros H; try discriminate H;
    split; reflexivity.
Qed.

Lemma ToUpper_digits (ds : string) :
  allb reDigit ds = true -> ToUpper ds = ds.
Proof.
  induction ds as [|c ds IH]; [reflexivity|]. simpl allb. intros H.
  apply andb_true_iff in H as [Hc Hds]. destruct (digit_facts c Hc) as [H1 H2].
  simpl. rewrite H1, H2. cbn [andb]. destruct ds; [reflexivity|].
  now rewrite IH.
Qed.

Lemma foldsTo_s_cases (sl : string) :
  foldsTo "s" sl ->
  sl = "s" \/ sl = "S" \/ sl = String "197" (String "191" "").
Proof.
  intros H. inversion H as [|p c pat u Hc Hu|pat u Hu]; subst;
    inversion Hu; subst; [|now right; right].
  destruct c as [[] [] [] [] [] [] [] []]; try discriminate Hc; auto.
Qed.

(** The upper case of a category token: S and the digits. *)
Lemma ToUpper_token (sl ds : string) :
  foldsTo "s" sl -> ds <> "" -> allb reDigit ds = true ->
  ToUpper (sl +:+ ds) = "S" +:+ ds.
Proof.
  intros Hsl Hne Hds. pose proof (ToUpper_digits ds Hds) as Hup.
  destruct ds as [|d ds]; [congruence|].
  destruct (foldsTo_s_cases sl Hsl) as [->|[->| ->]].
  - change ("s" +:+ String d ds) with (String "s" (String d ds)).
    change (ToUpper (String "s" (String d ds)))
      with (String "S" (ToUpper (String d ds))). now rewrite Hup.
  - change ("S" +:+ String d ds) with (String "S" (String d ds)).
    change (ToUpper (String "S" (String d ds)))
      with (String "S" (ToUpper (String d ds))). now rewrite Hup.
  - change (ToUpper (String "197" (String "191" "") +:+ String d ds))
      with (String "S" (ToUpper (String d ds))). now rewrite Hup.
Qed.

Lemma sl_not_space (sl r : string) :
  foldsTo "s" sl -> headNot reSpace (sl +:+ r).
Proof.
  intros H. destruct (foldsTo_s_cases sl H) as [->|[->| ->]]; reflexivity.
Qed.

Lemma isToken_nonempty (g : string) : isToken g -> g <> "".
Proof.
  intros (sl & ds & Hsl & Hne & _ & ->).
  destruct (foldsTo_s_cases sl Hsl) as [->|[->| ->]]; discriminate.
Qed.

Lemma matchAt_none (s : string) :
  matchFold "unsafe" s = None -> matchAt s = None.
Proof. intros H. unfold matchAt. now rewrite H. Qed.

Lemma matchAt_some (s r : string) :
  matchFold "unsafe" s = Some r ->
  exists m g, matchAt s = Some (m, g) /\ (g = "" \/ isToken g).
Proof.
  intros H. unfold matchAt. rewrite H.
  destruct (captureCode (skipSpaces r)) as [g|] eqn:Hc.
  - destruct (captureCode_sound _ _ Hc) as (sl & ds & rest & _ & Hsl & Hne & Hds & ->).
    eexists _, _. split; [reflexivity|]. right. now exists sl, ds.
  - eexists _, _. split; [reflexivity | now left].
Qed.

(** The match at an occurrence that a category token follows. *)
Lemma matchAt_token (u ws sl ds post : string) :
  foldsTo "unsafe" u -> allb reSpace ws = true -> foldsTo "s" sl ->
  ds <> "" -> allb reDigit ds = true -> headNot reDigit post ->
  exists m, matchAt (u +:+ ws +:+ sl +:+ ds +:+ post) = Some (m, sl +:+ ds).
Proof.
  intros Hu Hws Hsl Hne Hds Hpost. unfold matchAt.
  rewrite (matchFold_complete _ _ _ Hu).
  rewrite skipSpaces_app by (exact Hws || now apply sl_not_space).
  rewrite captureCode_token by assumption. eauto.
Qed.

(** The match at an occurrence that no category token follows. *)
Lemma matchAt_plain (u ws post : string) :
  foldsTo "unsafe" u -> allb reSpace ws = true -> headNot reSpace post ->
  noToken post ->
  exists m, matchAt (u +:+ ws +:+ post) = Some (m, "").
Proof.
  intros Hu Hws Hsp Hno. unfold matchAt.
  rewrite (matchFold_complete _ _ _ Hu), skipSpaces_app by assumption.
  rewrite captureCode_none by exact Hno. eauto.
Qed.

Lemma FindStringSubmatch_unfold (s : string) :
  FindStringSubmatch s
  = match matchAt s with
    | Some (m, g) => [m; g]
    | None => match s with
              | String _ r => FindStringSubmatch r
              | EmptyString => []
              end
    end.
Proof. now destruct s. Qed.

Lemma containsUnsafe_cons (c : ascii) (s : string) :
  matchFold "unsafe" (String c s) = None ->
  containsUnsafe (String c s) -> containsUnsafe s.
Proof.
  intros Hm (pre & u & post & E & Hu). destruct pre as [|x pre].
  - simpl in E. rewrite E, (matchFold_complete _ _ _ Hu) in Hm. discriminate.
  - simpl in E. inversion E; subst. now exists pre, u, post.
Qed.

(** No match is found exactly when the text does not contain the word. *)
Lemma FindStringSubmatch_nil (s : string) :
  ~ containsUnsafe s -> FindStringSubmatch s = [].
Proof.
  induction s as [|c s IH]; intros Hno; rewrite FindStringSubmatch_unfold.
  - destruct (matchFold "unsafe" "") as [r|] eqn:Hm; [discriminate Hm|].
    now rewrite matchAt_none.
  - destruct (matchFold "unsafe" (String c s)) as [r|] eqn:Hm.
    + exfalso. apply Hno. destruct (matchFold_sound _ _ _ Hm) as (u & Hu & E).
      now exists "", u, r.
    + rewrite matchAt_none by exact Hm. apply IH. intros (pre & u & post & E & Hu).
      apply Hno. exists (String c pre), u, post. simpl. now rewrite E.
Qed.

Lemma FindStringSubmatch_some (s : string) :
  containsUnsafe s ->
  exists m g, FindStringSubmatch s = [m; g] /\ (g = "" \/ isToken g).
Proof.
  induction s as [|c s IH]; intros Hc; rewrite FindStringSubmatch_unfold.
  - destruct Hc as (pre & u & post & E & Hu). exfalso.
    apply foldsTo_unsafe_nonempty in Hu.
    destruct pre; [|discriminate]. destruct u; [congruence | discriminate].
  - destruct (matchFold "unsafe" (String c s)) as [r|] eqn:Hm.
    + destruct (matchAt_some _ _ Hm) as (m & g & -> & Hg). eauto.
    + rewrite matchAt_none by exact Hm. apply IH.
      now apply (containsUnsafe_cons c).
Qed.

Lemma firstUnsafe_none (t pre : string) (k : nat) :
  firstUnsafe t pre -> (k < String.length pre)%nat ->
  (k <= String.length t)%nat ->
  matchFold "unsafe" (drop k t) = None.
Proof.
  intros Hfirst Hk Hkt.
  destruct (matchFold "unsafe" (drop k t)) as [r|] eqn:Hm; [|reflexivity].
  destruct (matchFold_sound _ _ _ Hm) as (u & Hu & E).
  destruct (drop_prefix k t Hkt) as (p & Hp & Hl).
  rewrite E in Hp. specialize (Hfirst p u r Hp Hu). lia.
Qed.

(** The search goes past the text before the first occurrence. *)
Lemma FindStringSubmatch_first (pre X : string) :
  (forall k, (k < String.length pre)%nat ->
             matchFold "unsafe" (drop k (pre +:+ X)) = None) ->
  FindStringSubmatch (pre +:+ X) = FindStringSubmatch X.
Proof.
  induction pre as [|c pre IH]; intros H; [reflexivity|].
  change (String c pre +:+ X) with (String c (pre +:+ X)) in *.
  rewrite FindStringSubmatch_unfold.
  rewrite matchAt_none by (apply (H 0%nat); simpl; lia).
  apply IH. intros k Hk. apply (H (S k)). simpl. lia.
Qed.

Lemma ToLower_length (s : string) :
  String.length (ToLower s) = String.length s.
Proof. induction s as [|c s IH]; simpl; [reflexivity | now rewrite IH]. Qed.

Lemma containsUnsafe_not_safe (t : string) :
  containsUnsafe t -> String.eqb (ToLower t) "safe" = false.
Proof.
  intros (pre & u & post & -> & Hu). apply String.eqb_neq. intros E.
  apply (f_equal String.length) in E.
  rewrite ToLower_length, !length_append in E.
  apply foldsTo_unsafe_length in Hu. simpl in E. lia.
Qed.

(** The three ways out of [parseResponse]. *)
Lemma parseResponse_safe (r : string) :
  String.eqb (ToLower (TrimSpace r)) "safe" = true ->
  parseResponse r = SafetyResult.mk true "" "" f64_zero.
Proof. intros H. unfold parseResponse. now rewrite H. Qed.

Lemma parseResponse_nomatch (r : string) :
  String.eqb (ToLower (TrimSpace r)) "safe" = false ->
  FindStringSubmatch (TrimSpace r) = [] ->
  parseResponse r
  = SafetyResult.mk false "" "Unable to determine safety classification"
                    f64_zero.
Proof. intros H1 H2. unfold parseResponse. now rewrite H1, H2. Qed.

Lemma parseResponse_match (r m g : string) :
  String.eqb (ToLower (TrimSpace r)) "safe" = false ->
  FindStringSubmatch (TrimSpace r) = [m; g] ->
  parseResponse r
  = if String.eqb g "" then SafetyResult.mk false "" "" f64_zero
    else SafetyResult.mk false (ToUpper g) (describe (ToUpper g)) f64_zero.
Proof.
  intros H1 H2. unfold parseResponse. rewrite H1, H2.
  cbn [length Z.of_nat Z.ltb Z.compare Pos.of_succ_nat Pos.succ Pos.compare
       Pos.compare_cont andb nth].
  now destruct (String.eqb g "").
Qed.

End ParserFacts.

(** ** Trimming keeps the occurrences of the word *)

Section TrimFacts.

Lemma byteIs_ws (c : ascii) (n : N) :
  (128 <= n)%N -> byteIs c n = true -> wsByte c = true.
Proof.
  unfold byteIs, wsByte. intros Hn Hc. apply N.eqb_eq in Hc.
  apply orb_true_iff. right. apply N.leb_le. lia.
Qed.

Lemma uniSpace2_ws (c1 c2 : ascii) :
  uniSpace2 c1 c2 = true -> wsByte c1 = true /\ wsByte c2 = true.
Proof.
  unfold uniSpace2. intros H. apply andb_true_iff in H as [H1 H2].
  split; [now apply (byteIs_ws _ 194)|].
  apply orb_true_iff in H2 as [H2|H2];
    [now apply (byteIs_ws _ 133) | now apply (byteIs_ws _ 160)].
Qed.

Lemma uniSpace3_ws (c1 c2 c3 : ascii) :
  uniSpace3 c1 c2 c3 = true ->
  wsByte c1 = true /\ wsByte c2 = true /\ wsByte c3 = true.
Proof.
  unfold uniSpace3. intros H.
  repeat match type of H with
         | (_ || _) = true => apply orb_true_iff in H as [H|H]
         end;
    repeat match goal with
           | H : (_ && _) = true |- _ => apply andb_true_iff in H as [? ?]
           | H : (_ || _) = true |- _ => apply orb_true_iff in H as [H|H]
           end;
    repeat split;
    try match goal with
        | H : byteIs ?c ?n = true |- wsByte ?c = true =>
            apply (byteIs_ws c n); [lia | exact H]
        end.
  all: unfold wsByte; apply orb_true_iff; right;
    match goal with H : (128 <=? _)%N = true |- _ => exact H end.
Qed.

Lemma spaceWidth_ws (s : string) : wsPrefix (spaceWidth s) s = true.
Proof.
  destruct s as [|c1 s]; [reflexivity|]. unfold spaceWidth.
  destruct (asciiSpace c1) eqn:H1.
  { simpl. unfold wsByte. now rewrite H1. }
  destruct s as [|c2 s]; [reflexivity|].
  destruct (uniSpace2 c1 c2) eqn:H2.
  { apply uniSpace2_ws in H2 as [? ?]. simpl.
    apply andb_true_iff; split; [assumption|].
    apply andb_true_iff; split; [assumption | now destruct s]. }
  destruct s as [|c3 s]; [reflexivity|].
  destruct (uniSpace3 c1 c2 c3) eqn:H3; [|reflexivity].
  apply uniSpace3_ws in H3 as (? & ? & ?). simpl.
  repeat (apply andb_true_iff; split; [assumption|]). now destruct s.
Qed.

Lemma wsPrefix_tail (k : nat) (c : ascii) (s : string) :
  wsPrefix (S k) (String c s) = true ->
  wsByte c = true /\ wsPrefix k s = true.
Proof. simpl. intros H. now apply andb_true_iff in H. Qed.

Lemma TrimLeft_go_ws (s : string) (k : nat) :
  wsPrefix k s = true ->
  exists p, s = p +:+ TrimLeft_go k s /\ allb wsByte p = true.
Proof.
  revert k; induction s as [|c s IH]; intros k Hk; [now exists ""|].
  assert (Hrec : forall j, wsPrefix (S j) (String c s) = true ->
            exists p, String c s = p +:+ TrimLeft_go j s
                      /\ allb wsByte p = true).
  { intros j Hj. apply wsPrefix_tail in Hj as [Hc Hj].
    destruct (IH j Hj) as (p & Hp & Hws). exists (String c p). simpl.
    split; [now rewrite <- Hp | now rewrite Hc, Hws]. }
  destruct k as [|k]; [|exact (Hrec k Hk)].
  change (TrimLeft_go 0 (String c s))
    with (match spaceWidth (String c s) with
          | O => String c s
          | S j => TrimLeft_go j s
          end).
  pose proof (spaceWidth_ws (String c s)) as Hsw.
  destruct (spaceWidth (String c s)) as [|j];
    [now exists "" | exact (Hrec j Hsw)].
Qed.

Lemma allSpace_go_ws (s : string) (k : nat) :
  wsPrefix k s = true -> allSpace_go k s = true -> allb wsByte s = true.
Proof.
  revert k; induction s as [|c s IH]; intros k Hk H; [reflexivity|].
  assert (Hrec : forall j, wsPrefix (S j) (String c s) = true ->
            allSpace_go j s = true -> allb wsByte (String c s) = true).
  { intros j Hj Ha. apply wsPrefix_tail in Hj as [Hc Hj]. simpl.
    now rewrite Hc, (IH j Hj Ha). }
  destruct k as [|k]; [|exact (Hrec k Hk H)].
  change (allSpace_go 0 (String c s))
    with (match spaceWidth (String c s) with
          | O => false
          | S j => allSpace_go j s
          end) in H.
  pose proof (spaceWidth_ws (String c s)) as Hsw.
  destruct (spaceWidth (String c s)) as [|j];
    [discriminate | exact (Hrec j Hsw H)].
Qed.

Lemma TrimRight_ws (s : string) :
  exists q, s = TrimRight s +:+ q /\ allb wsByte q = true.
Proof.
  induction s as [|c s (q & Hq & Hws)]; [now exists ""|].
  rewrite TrimRight_cons. destruct (allSpace (String c s)) eqn:Ha.
  - exists (String c s). split; [reflexivity|].
    now apply (allSpace_go_ws _ 0).
  - exists q. split; [simpl; now rewrite <- Hq | exact Hws].
Qed.

(** A text is its trimmed form between two runs of white-space bytes. *)
Lemma TrimSpace_ws (r : string) :
  exists p q, r = p +:+ TrimSpace r +:+ q
              /\ allb wsByte p = true /\ allb wsByte q = true.
Proof.
  destruct (TrimLeft_go_ws r 0 eq_refl) as (p & Hp & Hwp).
  destruct (TrimRight_ws (TrimLeft r)) as (q & Hq & Hwq).
  exists p, q. unfold TrimSpace. fold (TrimLeft r) in Hp.
  now rewrite <- Hq.
Qed.

Lemma append_split (a b c d : string) :
  a +:+ b = c +:+ d ->
  (exists x, c = a +:+ x /\ b = x +:+ d)
  \/ (exists y z, a = c +:+ String y z /\ d = String y z +:+ b).
Proof.
  revert c; induction a as [|x a IH]; intros c H.
  - left. exists c. now split.
  - destruct c as [|y c].
    + right. exists x, a. now split.
    + simpl in H. inversion H; subst y.
      destruct (IH c) as [(z & -> & ->)|(y & z & -> & ->)]; [assumption | |].
      * left. now exists z.
      * right. now exists y, z.
Qed.

Lemma lastByte_app (a b : string) :
  b <> "" -> lastByte (a +:+ b) = lastByte b.
Proof.
  intros Hb. induction a as [|c a IH]; [reflexivity|].
  change (String c a +:+ b) with (String c (a +:+ b)).
  destruct (a +:+ b) eqn:E; [|exact IH].
  destruct a; [simpl in E; congruence | discriminate].
Qed.

Lemma lastByte_ws (s : string) (c : ascii) :
  allb wsByte s = true -> lastByte s = Some c -> wsByte c = true.
Proof.
  induction s as [|x s IH]; [discriminate|]. simpl allb. intros H Hl.
  apply andb_true_iff in H as [Hx Hs]. destruct s as [|y s].
  - simpl in Hl. now inversion Hl; subst.
  - apply IH; [exact Hs | exact Hl].
Qed.

Lemma allb_app (f : ascii -> bool) (a b : string) :
  allb f (a +:+ b) = allb f a && allb f b.
Proof.
  induction a as [|c a IH]; [reflexivity|]. simpl. now rewrite IH, andb_assoc.
Qed.

Lemma letter_not_ws (p c : ascii) :
  isLetter p = true -> lowerByte c = p -> wsByte c = false.
Proof.
  intros Hp <-. destruct c as [[] [] [] [] [] [] [] []];
    try discriminate Hp; reflexivity.
Qed.

(** The word starts and ends with a letter. *)
Lemma foldsTo_unsafe_ends (u : string) :
  foldsTo "unsafe" u ->
  (exists c u', u = String c u' /\ wsByte c = false)
  /\ (exists c, lastByte u = Some c /\ wsByte c = false).
Proof.
  intros H.
  repeat match goal with
         | H : foldsTo (String _ _) _ |- _ => inversion H; subst; clear H
         | H : foldsTo "" _ |- _ => inversion H; subst; clear H
         end;
    (split; [eexists _, _; split; [reflexivity|]
            | eexists; split; [reflexivity|]]);
    (eapply letter_not_ws; [|eassumption]; reflexivity).
Qed.

(** The word occurs in a text exactly when it occurs in the trimmed
    text. *)
Lemma containsUnsafe_TrimSpace (r : string) :
  containsUnsafe r <-> containsUnsafe (TrimSpace r).
Proof.
  destruct (TrimSpace_ws r) as (p & q & Hr & Hp & Hq). split.
  - intros (pre & u & post & E & Hu).
    destruct (foldsTo_unsafe_ends u Hu)
      as [(c & u' & -> & Hc) (e & He & Hew)].
    rewrite Hr in E. apply append_split in E as [(x & -> & E)|(y & z & -> & E)].
    + rewrite <- append_assoc in E. symmetry in E.
      apply append_split in E as [(t & -> & E)|(y & z & E & ->)].
      * exists x, (String c u'), t. split; [now rewrite append_assoc | exact Hu].
      * exfalso. rewrite allb_app in Hq. apply andb_true_iff in Hq as [Hq _].
        assert (Hl : lastByte (String y z) = Some e).
        { rewrite <- (lastByte_app (TrimSpace r)) by discriminate.
          rewrite <- E, lastByte_app by discriminate. exact He. }
        rewrite (lastByte_ws _ _ Hq Hl) in Hew. discriminate.
    + exfalso. simpl in E. inversion E; subst y.
      rewrite allb_app in Hp. apply andb_true_iff in Hp as [_ Hp].
      simpl in Hp. rewrite Hc in Hp. discriminate.
  - intros (pre & u & post & E & Hu). exists (p +:+ pre), u, (post +:+ q).
    split; [|exact Hu]. rewrite Hr at 1. rewrite E, !append_assoc. reflexivity.
Qed.

End TrimFacts.

Section TableFacts.

Lemma SafetyCategories_codes (c : string) :
  is_Some (SafetyCategories !! c) <-> In c knownCodes.
Proof.
  rewrite <- elem_of_dom. unfold SafetyCategories.
  rewrite dom_list_to_map_L, elem_of_list_to_set, list_elem_of_In.
  reflexivity.
Qed.

End TableFacts.

Section VerdictFacts.

Import safety.

Lemma FindStringSubmatch_shape (s : string) :
  FindStringSubmatch s = [] \/ exists m g, FindStringSubmatch s = [m; g].
Proof.
  induction s as [|c s IH]; rewrite FindStringSubmatch_unfold.
  - destruct (matchAt "") as [[m g]|]; eauto.
  - destruct (matchAt (String c s)) as [[m g]|]; eauto.
Qed.

Lemma parseResponse_not_safe (r : string) :
  String.eqb (ToLower (TrimSpace r)) "safe" = false ->
  SafetyResult.IsSafe (parseResponse r) = false.
Proof.
  intros H.
  destruct (FindStringSubmatch_shape (TrimSpace r)) as [E|(m & g & E)].
  - now rewrite (parseResponse_nomatch r H E).
  - rewrite (parseResponse_match r m g H E). now destruct (String.eqb g "").
Qed.

Lemma describe_known (c : string) :
  (In c knownCodes -> SafetyCategories !! c = Some (describe c))
  /\ (~ In c knownCodes -> describe c = "").
Proof.
  unfold describe. split; intros H.
  - apply SafetyCategories_codes in H as [d Hd]. now rewrite Hd.
  - destruct (SafetyCategories !! c) as [d|] eqn:Hd; [|reflexivity].
    exfalso. apply H, SafetyCategories_codes. eauto.
Qed.

End VerdictFacts.

(** C3. [parseResponse] answers safe exactly when the trimmed response is
    the word safe in any case; and a response that is neither that nor
    contains the word unsafe is unsafe, with no category and the reason
    "Unable to determine safety classification". *)
Theorem parseResponse_fail_closed (r : string) :
  (SafetyResult.IsSafe (safety.parseResponse r) = true
   <-> equalFold (TrimSpace r) "safe")
  /\ (~ equalFold (TrimSpace r) "safe" ->
      ~ containsUnsafe r ->
      safety.parseResponse r
      = SafetyResult.mk false "" "Unable to determine safety classification"
                        f64_zero).
Proof.
  destruct (String.eqb (ToLower (TrimSpace r)) "safe") eqn:E.
  - assert (Hf : equalFold (TrimSpace r) "safe").
    { apply ToLower_equalFold. now apply String.eqb_eq in E. }
    rewrite (parseResponse_safe r E). split; [now split | tauto].
  - assert (Hf : ~ equalFold (TrimSpace r) "safe").
    { intros Hf. apply ToLower_equalFold in Hf.
      apply String.eqb_neq in E. now apply E. }
    rewrite (parseResponse_not_safe r E). split.
    + split; [discriminate | tauto].
    + intros _ Hno. apply parseResponse_nomatch; [exact E|].
      apply FindStringSubmatch_nil. intros Hc. apply Hno.
      now apply containsUnsafe_TrimSpace.
Qed.

Lemma parseResponse_fail_closed_witness :
  ~ equalFold (TrimSpace "banana") "safe"
  /\ ~ containsUnsafe "banana"
  /\ safety.parseResponse "banana"
     = SafetyResult.mk false "" "Unable to determine safety classification"
                       f64_zero.
Proof.
  assert (H1 : ~ equalFold (TrimSpace "banana") "safe") by (simpl; tauto).
  assert (H2 : ~ containsUnsafe "banana").
  { intros Hc. apply FindStringSubmatch_some in Hc as (m & g & Hc & _).
    discriminate Hc. }
  split; [exact H1|]. split; [exact H2|].
  exact (proj2 (parseResponse_fail_closed "banana") H1 H2).
Defined.

(** C5, as the code has it.  For a response that contains the word
    unsafe, in any case, [parseResponse] answers unsafe; the category is
    empty or S and digits; the reason is the description of the category
    in the table when the category is one of S1..S14 and is empty
    otherwise.  When the first occurrence of the word is followed, after
    optional white space, by a category token, which is the letter s in
    either case and digits, the category is that token in upper case; when
    no such token follows, category and reason are empty. *)
Theorem parseResponse_unsafe (r : string) :
  containsUnsafe r ->
  let res := safety.parseResponse r in
  SafetyResult.IsSafe res = false
  /\ (SafetyResult.Category res = ""
      \/ exists ds, ds <> "" /\ allb safety.reDigit ds = true
                    /\ SafetyResult.Category res = "S" +:+ ds)
  /\ (In (SafetyResult.Category res) knownCodes ->
      SafetyCategories !! SafetyResult.Category res
      = Some (SafetyResult.Reason res))
  /\ (~ In (SafetyResult.Category res) knownCodes ->
      SafetyResult.Reason res = "")
  /\ (forall pre u ws sl ds post,
        TrimSpace r = pre +:+ u +:+ ws +:+ sl +:+ ds +:+ post ->
        firstUnsafe (TrimSpace r) pre -> foldsTo "unsafe" u ->
        allb safety.reSpace ws = true ->
        foldsTo "s" sl -> ds <> "" -> allb safety.reDigit ds = true ->
        headNot safety.reDigit post ->
        SafetyResult.Category res = "S" +:+ ds)
  /\ (forall pre u ws post,
        TrimSpace r = pre +:+ u +:+ ws +:+ post ->
        firstUnsafe (TrimSpace r) pre -> foldsTo "unsafe" u ->
        allb safety.reSpace ws = true ->
        headNot safety.reSpace post -> noToken post ->
        SafetyResult.Category res = "" /\ SafetyResult.Reason res = "").
Proof.
  intros Hc res. subst res. apply containsUnsafe_TrimSpace in Hc.
  pose proof (containsUnsafe_not_safe _ Hc) as Hns.
  assert (Hfirst : forall pre X, TrimSpace r = pre +:+ X ->
            firstUnsafe (TrimSpace r) pre ->
            safety.FindStringSubmatch (TrimSpace r)
            = safety.FindStringSubmatch X).
  { intros pre X E Hf. rewrite E. apply FindStringSubmatch_first.
    intros k Hk. rewrite <- E. apply (firstUnsafe_none _ pre); [exact Hf | exact Hk|].
    rewrite E, length_append. lia. }
  assert (Hres : safety.parseResponse r = SafetyResult.mk false "" "" f64_zero
                 \/ exists sl ds, foldsTo "s" sl /\ ds <> ""
                      /\ allb safety.reDigit ds = true
                      /\ safety.parseResponse r
                         = SafetyResult.mk false ("S" +:+ ds)
                             (describe ("S" +:+ ds)) f64_zero).
  { destruct (FindStringSubmatch_some _ Hc) as (m & g & E & [->|Hg]).
    - left. now rewrite (parseResponse_match r m "" Hns E).
    - right. rewrite (parseResponse_match r m g Hns E).
      pose proof (isToken_nonempty g Hg) as Hne.
      apply String.eqb_neq in Hne. rewrite Hne.
      destruct Hg as (sl & ds & Hsl & Hds & Hd & ->).
      exists sl, ds. rewrite ToUpper_token by assumption. auto. }
  split; [now apply parseResponse_not_safe|].
  split; [destruct Hres as [->|(sl & ds & _ & Hne & Hd & ->)]; [now left|];
          right; now exists ds|].
  split; [|split; [|split]].
  - destruct Hres as [->|(sl & ds & _ & _ & _ & ->)]; cbn [SafetyResult.Category
      SafetyResult.Reason]; intros Hin.
    + apply SafetyCategories_codes in Hin as [d Hd]. discriminate Hd.
    + now apply describe_known.
  - destruct Hres as [->|(sl & ds & _ & _ & _ & ->)]; cbn [SafetyResult.Category
      SafetyResult.Reason]; intros Hin; [reflexivity|].
    now apply describe_known.
  - intros pre u ws sl ds post E Hf Hu Hws Hsl Hne Hd Hpost.
    destruct (matchAt_token u ws sl ds post Hu Hws Hsl Hne Hd Hpost) as [m Hm].
    assert (Em : safety.FindStringSubmatch (TrimSpace r) = [m; sl +:+ ds]).
    { rewrite (Hfirst pre _ E Hf), FindStringSubmatch_unfold. now rewrite Hm. }
    rewrite (parseResponse_match r m _ Hns Em).
    assert (Hg : sl +:+ ds <> "") by (apply isToken_nonempty; now exists sl, ds).
    apply String.eqb_neq in Hg. rewrite Hg. cbn [SafetyResult.Category].
    now apply ToUpper_token.
  - intros pre u ws post E Hf Hu Hws Hsp Hno.
    destruct (matchAt_plain u ws post Hu Hws Hsp Hno) as [m Hm].
    assert (Em : safety.FindStringSubmatch (TrimSpace r) = [m; ""]).
    { rewrite (Hfirst pre _ E Hf), FindStringSubmatch_unfold. now rewrite Hm. }
    rewrite (parseResponse_match r m _ Hns Em). now split.
Qed.

(** C5 as stated fails for a token whose letter is not s: it is not
    captured, and the category stays empty. *)
Lemma parseResponse_letter_counterexample :
  specToken "A1"
  /\ TrimSpace "unsafe A1" = "unsafe" +:+ " " +:+ "A1"
  /\ safety.parseResponse "unsafe A1" = SafetyResult.mk false "" "" f64_zero
  /\ SafetyResult.Category (safety.parseResponse "unsafe A1")
     <> safety.ToUpper "A1".
Proof.
  split; [exists "A"%char, "1"; now repeat split|].
  split; [reflexivity|]. split; [reflexivity | discriminate].
Qed.

Lemma parseResponse_unsafe_witness :
  containsUnsafe "unsafe S10"
  /\ SafetyResult.IsSafe (safety.parseResponse "unsafe S10") = false
  /\ SafetyResult.Category (safety.parseResponse "unsafe S10") = "S10"
  /\ SafetyCategories !! "S10"
     = Some (SafetyResult.Reason (safety.parseResponse "unsafe S10")).
Proof.
  assert (Hu : foldsTo "unsafe" "unsafe") by (repeat constructor).
  assert (Hc : containsUnsafe "unsafe S10").
  { exists "", "unsafe", " S10". split; [reflexivity | exact Hu]. }
  destruct (parseResponse_unsafe "unsafe S10" Hc)
    as (H1 & _ & H3 & _ & H5 & _).
  split; [exact Hc|]. split; [exact H1|].
  assert (Hcat : SafetyResult.Category (safety.parseResponse "unsafe S10")
                 = "S10").
  { apply (H5 "" "unsafe" " " "S" "10" ""); try reflexivity.
    - intros pre' u' post' _ _. simpl. lia.
    - exact Hu.
    - repeat constructor.
    - discriminate. }
  split; [exact Hcat|].
  rewrite <- Hcat at 1. apply H3. rewrite Hcat. simpl. tauto.
Defined.

(** ** The query pipeline *)

Ltac ask_reduce H :=
  cbv beta iota zeta
      delta [Ask run bind checkInputGate checkOutputGate call isEnabled
             buildSystemPrompt pure return_ fst snd world PromptBuilder trace]
    in H.

Ltac ask_step H :=
  match type of H with
  | context [IsEnabled ?g ?w] => destruct (IsEnabled g w) eqn:?
  | context [CheckInput ?g ?q ?w] =>
      destruct (CheckInput g q w) as [[?|?] ?] eqn:?
  | context [Search ?r ?q ?k ?w] =>
      destruct (Search r q k w) as [[?|?] ?] eqn:?
  | context [prompt.BuildSystemPrompt ?f ?b ?w] =>
      destruct (prompt.BuildSystemPrompt f b w) as [[[?|?] ?] ?] eqn:?
  | context [Generate ?c ?p ?o ?w] =>
      destruct (Generate c p o w) as [[?|?] ?] eqn:?
  | context [CheckOutput ?g ?q ?w] =>
      destruct (CheckOutput g q w) as [[?|?] ?] eqn:?
  | context [negb (SafetyResult.IsSafe ?r)] =>
      destruct (SafetyResult.IsSafe r) eqn:?; cbn [negb] in H
  end; ask_reduce H.

Ltac ask_cases H :=
  ask_reduce H; repeat ask_step H; inversion H; subst; clear H.

Ltac ask_trace :=
  eexists; split; [rewrite <- ?app_assoc; reflexivity|].

Ltac ask_verdicts :=
  unfold judgedUnsafe; cbn [existsb isUnsafeVerdict app orb negb];
  repeat match goal with
         | E : SafetyResult.IsSafe _ = _ |- _ => rewrite E
         end;
  cbn [orb negb].

Ltac ask_events :=
  repeat match goal with
         | H : In _ (_ :: _) |- _ => destruct H as [H|H]
         | H : In _ [] |- _ => destruct H
         | H : _ \/ _ |- _ => destruct H as [H|H]
         | H : False |- _ => destruct H
         | H : _ = _ :> Event |- _ => inversion H; subst; clear H
         end.

Section AskFacts.

Context {W : Type}.
Variables (a : App W) (question : string) (temperature : float64).

Lemma toSource_copied (docs : list Document.t) :
  Forall2 copied (map toSource docs) docs.
Proof.
  induction docs as [|d docs IH]; constructor; [|exact IH].
  now repeat split.
Qed.

(** What a run of [Ask] without error returns as sources. *)
Lemma Ask_sources (s s' : Store W) (ans : string)
    (srcs : option (list Source.t)) :
  Ask a question temperature s = ((ans, srcs, None), s') ->
  exists tr,
    trace s' = trace s ++ tr
    /\ ((judgedUnsafe tr = true /\ srcs = None)
        \/ (judgedUnsafe tr = false
            /\ exists docs,
                 In (EvSearch question (Config.TopK (Config a)) (inl docs)) tr
                 /\ (forall q k r, In (EvSearch q k r) tr -> r = inl docs)
                 /\ srcs = Some (map toSource docs))).
Proof.
  intros H. destruct s as [w0 b0 tr0]. ask_cases H; cbn [trace]; ask_trace.
  all: ask_verdicts; try (left; now split).
  all: right; split; [reflexivity|]; eexists; split; [simpl; tauto|].
  all: split; [|reflexivity]; intros q k r Hin; simpl in Hin; ask_events;
    reflexivity.
Qed.

End AskFacts.

(** IEEE equality with zero: the two zeros, and nothing else. *)
Lemma f64_eqb_zero (x : float64) :
  f64_eqb x f64_zero = true <-> exists sign, x = S754_zero sign.
Proof.
  split.
  - destruct x as [sg|sg| |sg m e]; cbn; intros H; try discriminate H; eauto.
    all: destruct sg; discriminate H.
  - intros [sg ->]. reflexivity.
Qed.

(** C1, as the code has it.  In a run of [Ask] that returns without
    error, an unsafe verdict at either gate yields the nil, hence empty,
    source list, and a safe completion yields a list with one source for
    each document that the retriever returned: the list is nil exactly
    when the input or the output was judged unsafe, and it is empty
    exactly when that happened or the retriever found nothing. *)
Theorem Ask_sources_nil {W : Type} (a : App W) (question : string)
    (temperature : float64) (s s' : Store W) (ans : string)
    (srcs : option (list Source.t)) :
  Ask a question temperature s = ((ans, srcs, None), s') ->
  exists tr,
    trace s' = trace s ++ tr
    /\ (srcs = None <-> judgedUnsafe tr = true)
    /\ (judgedUnsafe tr = true -> sourcesLen srcs = 0%nat)
    /\ (judgedUnsafe tr = false ->
        exists docs,
          In (EvSearch question (Config.TopK (Config a)) (inl docs)) tr
          /\ sourcesLen srcs = length docs).
Proof.
  intros H. destruct (Ask_sources a question temperature s s' ans srcs H)
    as (tr & Htr & [[Hu ->]|(Hs & docs & Hin & _ & ->)]);
    exists tr; (split; [exact Htr|]); rewrite ?Hu, ?Hs.
  - repeat split; auto; discriminate.
  - split; [split; discriminate|]. split; [discriminate|].
    intros _. exists docs. split; [exact Hin|]. simpl. now rewrite length_map.
Qed.

Lemma Ask_sources_nil_witness :
  exists tr,
    trace (snd (Ask (Scenario.demoApp "safe" true [Scenario.demoDoc]) "q"
                    f64_zero Scenario.store0))
    = trace Scenario.store0 ++ tr
    /\ (Some [toSource Scenario.demoDoc] = None <-> judgedUnsafe tr = true)
    /\ (judgedUnsafe tr = true ->
        sourcesLen (Some [toSource Scenario.demoDoc]) = 0%nat)
    /\ (judgedUnsafe tr = false ->
        exists docs,
          In (EvSearch "q"
                (Config.TopK (Config (Scenario.demoApp "safe" true
                                        [Scenario.demoDoc])))
                (inl docs)) tr
          /\ sourcesLen (Some [toSource Scenario.demoDoc]) = length docs).
Proof.
  apply (Ask_sources_nil (Scenario.demoApp "safe" true [Scenario.demoDoc])
           "q" f64_zero Scenario.store0 _ "The answer.").
  reflexivity.
Defined.

(** C1 as stated fails: a safe completion over a retriever that found
    nothing returns an empty source list, with no unsafe verdict. *)
Lemma Ask_sources_empty_counterexample :
  exists s',
    Ask (Scenario.demoApp "safe" true []) "q" f64_zero Scenario.store0
    = (("The answer.", Some [], None), s')
    /\ judgedUnsafe (trace s') = false
    /\ sourcesLen (Some []) = 0%nat.
Proof.
  eexists. split; [reflexivity|]. split; reflexivity.
Qed.

(** C2. When the gate is enabled and its input check answers unsafe,
    [Ask] returns the refusal message of the category of the verdict, the
    nil source list and no error; the input check is the only call it
    makes: neither the retriever nor the generator is invoked. *)
Theorem Ask_unsafe_input {W : Type} (a : App W) (question : string)
    (temperature : float64) (s : Store W) (verdict : SafetyResult.t)
    (w' : W) :
  IsEnabled (SafetyGate a) (world s) = true ->
  CheckInput (SafetyGate a) question (world s) = (inl verdict, w') ->
  SafetyResult.IsSafe verdict = false ->
  Ask a question temperature s
  = ((safety.GetRefusalMessage (SafetyResult.Category verdict), None, None),
     mkStore w' (PromptBuilder s)
             (trace s ++ [EvCheckInput question (inl verdict)]))
  /\ forallb (fun e => negb (isSearchOrGenerate e))
             [EvCheckInput question (inl verdict)] = true.
Proof.
  intros Hen Hci Hun. split; [|reflexivity].
  cbv beta iota zeta
      delta [Ask run bind checkInputGate call isEnabled pure return_].
  rewrite Hen, Hci. cbv beta iota zeta. now rewrite Hun.
Qed.

Lemma Ask_unsafe_input_witness :
  Ask (Scenario.demoApp "unsafe S1" true [Scenario.demoDoc]) "q" f64_zero
      Scenario.store0
  = (("I can't provide assistance with that request as it may violate content safety guidelines (category: S1 - Violent Crimes).",
      None, None),
     mkStore tt (prompt.NewBuilder "")
       [EvCheckInput "q"
          (inl (SafetyResult.mk false "S1" "Violent Crimes" f64_zero))]).
Proof.
  exact (proj1 (Ask_unsafe_input
                  (Scenario.demoApp "unsafe S1" true [Scenario.demoDoc]) "q"
                  f64_zero Scenario.store0
                  (SafetyResult.mk false "S1" "Violent Crimes" f64_zero) tt
                  eq_refl eq_refl eq_refl)).
Defined.

(** C7. Every call of the generator by [Ask] gets the configured default
    temperature when the per-call temperature equals zero, and the
    per-call temperature itself when it does not; a run that returns an
    answer with sources has made such a call. *)
Theorem Ask_temperature {W : Type} (a : App W) (question : string)
    (temperature : float64) (s s' : Store W) (ans : Answer) :
  Ask a question temperature s = (ans, s') ->
  exists tr,
    trace s' = trace s ++ tr
    /\ (forall prompt opts r,
          In (EvGenerate prompt opts r) tr ->
          (f64_eqb temperature f64_zero = true ->
           GenerateOptions.Temperature opts = Config.Temperature (Config a))
          /\ (f64_eqb temperature f64_zero = false ->
              GenerateOptions.Temperature opts = temperature))
    /\ (forall response sources,
          ans = (response, Some sources, None) ->
          exists prompt opts, In (EvGenerate prompt opts (inl response)) tr).
Proof.
  intros H. destruct s as [w0 b0 tr0]. ask_cases H; cbn [trace]; ask_trace.
  all: split;
    [ intros p opts r Hin; simpl in Hin; ask_events;
      destruct (f64_eqb temperature f64_zero); split; intros E;
      (discriminate E || reflexivity)
    | intros response sources E; inversion E; subst;
      eexists _, _; simpl; eauto 6 ].
Qed.

Lemma Ask_temperature_witness :
  exists tr,
    trace (snd (Ask (Scenario.demoApp "safe" false [Scenario.demoDoc]) "q"
                    f64_zero Scenario.store0))
    = trace Scenario.store0 ++ tr
    /\ exists prompt opts,
         In (EvGenerate prompt opts (inl "The answer.")) tr
         /\ GenerateOptions.Temperature opts
            = Config.Temperature Scenario.demoConfig.
Proof.
  destruct (Ask_temperature (Scenario.demoApp "safe" false [Scenario.demoDoc])
              "q" f64_zero Scenario.store0 _ _ eq_refl)
    as (tr & Htr & Htemp & Hgen).
  exists tr. split; [exact Htr|].
  destruct (Hgen "The answer." [toSource Scenario.demoDoc] eq_refl)
    as (p & opts & Hin).
  exists p, opts. split; [exact Hin|].
  exact (proj1 (Htemp p opts _ Hin) eq_refl).
Defined.

(** C10. In a run of [Ask] that completes safely (no error, no unsafe
    verdict) the retriever was called once, and the source list has one
    entry for each document it returned, in the same order, with the id,
    content, metadata and score of that document. *)
Theorem Ask_sources_copied {W : Type} (a : App W) (question : string)
    (temperature : float64) (s s' : Store W) (ans : string)
    (srcs : option (list Source.t)) :
  Ask a question temperature s = ((ans, srcs, None), s') ->
  exists tr,
    trace s' = trace s ++ tr
    /\ (judgedUnsafe tr = false ->
        exists docs sources,
          In (EvSearch question (Config.TopK (Config a)) (inl docs)) tr
          /\ (forall q k r, In (EvSearch q k r) tr -> r = inl docs)
          /\ srcs = Some sources
          /\ Forall2 copied sources docs).
Proof.
  intros H. destruct (Ask_sources a question temperature s s' ans srcs H)
    as (tr & Htr & [[Hu ->]|(Hs & docs & Hin & Hone & ->)]);
    exists tr; (split; [exact Htr|]).
  - rewrite Hu. discriminate.
  - intros _. exists docs, (map toSource docs).
    repeat split; [exact Hin | exact Hone |]. apply toSource_copied.
Qed.

Lemma Ask_sources_copied_witness :
  exists tr,
    trace (snd (Ask (Scenario.demoApp "safe" true [Scenario.demoDoc]) "q"
                    f64_zero Scenario.store0))
    = trace Scenario.store0 ++ tr
    /\ judgedUnsafe tr = false
    /\ exists sources,
         fst (Ask (Scenario.demoApp "safe" true [Scenario.demoDoc]) "q"
                  f64_zero Scenario.store0)
         = ("The answer.", Some sources, None)
         /\ Forall2 copied sources [Scenario.demoDoc].
Proof.
  destruct (Ask_sources_copied
              (Scenario.demoApp "safe" true [Scenario.demoDoc]) "q" f64_zero
              Scenario.store0 _ "The answer." _ eq_refl)
    as (tr & Htr & Hcopy).
  exists tr. split; [exact Htr|].
  assert (Hsafe : judgedUnsafe tr = false).
  { cbn in Htr. now subst tr. }
  split; [exact Hsafe|].
  destruct (Hcopy Hsafe) as (docs & sources & Hin & _ & Hsrc & Hall).
  exists sources. split.
  - cbn. injection Hsrc as <-. reflexivity.
  - cbn in Htr. subst tr. simpl in Hin.
    destruct Hin as [Hin|[Hin|[Hin|[Hin|[]]]]]; try discriminate Hin.
    injection Hin as <-. exact Hall.
Defined.

(** ** The answer formatter *)

Section FormatFacts.

Variable fmtFloat1 : float64 -> string.

Lemma TrimLeft_go_suffix (s : string) (k : nat) :
  exists p, s = p +:+ TrimLeft_go k s.
Proof.
  revert k; induction s as [|c s IH]; intros k; [now exists ""|].
  assert (Hrec : forall j, exists p, String c s = p +:+ TrimLeft_go j s).
  { intros j. destruct (IH j) as [p Hp]. exists (String c p). simpl.
    now rewrite <- Hp. }
  destruct k as [|k]; [|apply Hrec].
  change (TrimLeft_go 0 (String c s))
    with (match spaceWidth (String c s) with
          | O => String c s
          | S j => TrimLeft_go j s
          end).
  destruct (spaceWidth (String c s)) as [|j]; [now exists "" | apply Hrec].
Qed.

Lemma TrimRight_length (s : string) :
  (String.length (TrimRight s) <= String.length s)%nat.
Proof.
  induction s as [|c s IH]; [apply Nat.le_refl|]. rewrite TrimRight_cons.
  destruct (allSpace (String c s)); simpl; lia.
Qed.

Lemma allSpace_go_nl (s : string) (k : nat) :
  (k <= String.length s)%nat ->
  allSpace_go k s = true -> allSpace_go k (s +:+ String "010" "") = true.
Proof.
  revert k; induction s as [|c s IH]; intros k Hk H.
  - simpl in Hk. assert (k = 0%nat) as -> by lia. reflexivity.
  - change (String c s +:+ String "010" "")
      with (String c (s +:+ String "010" "")).
    destruct k as [|k]; [|simpl in *; apply IH; [lia | exact H]].
    change (allSpace_go 0 (String c s))
      with (match spaceWidth (String c s) with
            | O => false
            | S j => allSpace_go j s
            end) in H.
    change (allSpace_go 0 (String c (s +:+ String "010" "")))
      with (match spaceWidth (String c s +:+ String "010" "") with
            | O => false
            | S j => allSpace_go j (s +:+ String "010" "")
            end).
    pose proof (spaceWidth_le (String c s)) as Hle.
    destruct (spaceWidth (String c s)) as [|j] eqn:Hsw; [discriminate|].
    rewrite (spaceWidth_prefix _ _ _ Hsw). simpl in Hle. apply IH; [lia | exact H].
Qed.

(** Trimming a text that ends with a line feed shortens it. *)
Lemma TrimRight_nl (s : string) :
  (String.length (TrimRight (s +:+ String "010" "")) <= String.length s)%nat.
Proof.
  induction s as [|c s IH]; [simpl; lia|].
  change (String c s +:+ String "010" "")
    with (String c (s +:+ String "010" "")).
  rewrite TrimRight_cons.
  destruct (allSpace (String c (s +:+ String "010" ""))); simpl; lia.
Qed.

Lemma TrimSpace_nl (s : string) :
  TrimSpace (s +:+ String "010" "") <> s +:+ String "010" "".
Proof.
  intros E. unfold TrimSpace, TrimLeft in E.
  destruct (TrimLeft_go_suffix (s +:+ String "010" "") 0) as [p Hp].
  destruct p as [|c p].
  - simpl in Hp. rewrite <- Hp in E. apply (f_equal String.length) in E.
    pose proof (TrimRight_nl s) as Hle. rewrite E, length_append in Hle.
    simpl in Hle. lia.
  - pose proof (TrimRight_length (TrimLeft_go 0 (s +:+ String "010" ""))) as Hle.
    rewrite E in Hle. apply (f_equal String.length) in Hp.
    change (String c p +:+ ?t) with (String c (p +:+ t)) in Hp.
    cbn [String.length] in Hp. rewrite (length_append p) in Hp. lia.
Qed.

Lemma formatSources_nl (sources : list Document.t) (i : Z) :
  sources <> [] ->
  exists p, prompt.formatSources fmtFloat1 i sources = p +:+ String "010" "".
Proof.
  revert i; induction sources as [|d ds IH]; intros i Hne; [congruence|].
  cbn [prompt.formatSources].
  set (A := match prompt.titleOrPath d with Some _ => _ | None => _ end).
  set (B := if f64_ltb f64_zero (Document.Score d) then _ else _).
  destruct ds as [|d' ds].
  - exists (A +:+ B). cbn [prompt.formatSources].
    now rewrite append_nil_r, append_assoc.
  - destruct (IH (i + 1)) as [p Hp]; [discriminate|]. rewrite Hp.
    exists (A +:+ B +:+ String "010" "" +:+ p). now rewrite !append_assoc.
Qed.

Lemma FormatResponse_nl (x : string) (sources : list Document.t) :
  sources <> [] ->
  exists p, prompt.FormatResponse fmtFloat1 x sources = p +:+ String "010" "".
Proof.
  intros Hne. destruct (formatSources_nl sources 0 Hne) as [p Hp].
  unfold prompt.FormatResponse. destruct sources as [|d ds]; [congruence|].
  change (Z.of_nat (length (d :: ds)) =? 0) with false. cbv iota.
  rewrite Hp. eexists. now rewrite <- append_assoc.
Qed.

End FormatFacts.

(** C4, as the code has it.  [FormatResponse] with no sources returns the
    answer unchanged, without trimming it; hence formatting a formatted
    answer again with no sources returns it as it is.  That answer, for
    a non-empty source list, ends with a line feed and so differs from
    its trimmed form. *)
Theorem FormatResponse_no_sources (fmtFloat1 : float64 -> string)
    (x : string) (sources : list Document.t) :
  prompt.FormatResponse fmtFloat1 x [] = x
  /\ prompt.FormatResponse fmtFloat1
       (prompt.FormatResponse fmtFloat1 x sources) []
     = prompt.FormatResponse fmtFloat1 x sources
  /\ (sources <> [] ->
      prompt.FormatResponse fmtFloat1
        (prompt.FormatResponse fmtFloat1 x sources) []
      <> TrimSpace (prompt.FormatResponse fmtFloat1 x sources)).
Proof.
  split; [reflexivity|]. split; [reflexivity|].
  intros Hne E. change (prompt.FormatResponse fmtFloat1 ?y []) with y in E.
  destruct (FormatResponse_nl fmtFloat1 x sources Hne) as [p Hp].
  rewrite Hp in E. symmetry in E. exact (TrimSpace_nl _ E).
Qed.

Lemma FormatResponse_no_sources_witness :
  prompt.FormatResponse (fun _ => "75.0") "  The answer. " [] = "  The answer. "
  /\ prompt.FormatResponse (fun _ => "75.0")
       (prompt.FormatResponse (fun _ => "75.0") "  The answer. "
          [Scenario.demoDoc]) []
     <> TrimSpace (prompt.FormatResponse (fun _ => "75.0") "  The answer. "
                     [Scenario.demoDoc]).
Proof.
  split.
  - exact (proj1 (FormatResponse_no_sources (fun _ => "75.0")
                    "  The answer. " [])).
  - apply (proj2 (proj2 (FormatResponse_no_sources (fun _ => "75.0")
                           "  The answer. " [Scenario.demoDoc]))).
    discriminate.
Defined.

(** C4 as stated fails: with no sources the answer keeps its surrounding
    white space, and a formatted answer formatted again keeps its last
    line feed. *)
Lemma FormatResponse_trim_counterexample :
  prompt.FormatResponse (fun _ => "75.0") "  The answer. " []
  <> TrimSpace "  The answer. "
  /\ prompt.FormatResponse (fun _ => "75.0")
       (prompt.FormatResponse (fun _ => "75.0") "The answer."
          [Scenario.demoDoc]) []
     <> TrimSpace (prompt.FormatResponse (fun _ => "75.0") "The answer."
                     [Scenario.demoDoc]).
Proof.
  split; vm_compute; discriminate.
Qed.

(* ================================================================= *)
(** * Further properties *)

(** ** Trimming *)

Section TrimShape.

Lemma TrimRight_split (s : string) : exists q, s = TrimRight s +:+ q.
Proof.
  induction s as [|c s [q Hq]]; [now exists ""|]. rewrite TrimRight_cons.
  destruct (allSpace (String c s)); [now exists (String c s)|].
  exists q. simpl. now rewrite <- Hq.
Qed.

(** The trimmed text is a piece of the text. *)
Lemma TrimSpace_sub (s : string) : exists p q, s = p +:+ TrimSpace s +:+ q.
Proof.
  unfold TrimSpace, TrimLeft.
  destruct (TrimLeft_go_suffix s 0) as [p Hp].
  destruct (TrimRight_split (TrimLeft_go 0 s)) as [q Hq].
  exists p, q. now rewrite <- Hq.
Qed.

Lemma TrimSpace_length (s : string) :
  (String.length (TrimSpace s) <= String.length s)%nat.
Proof.
  destruct (TrimSpace_sub s) as (p & q & E).
  apply (f_equal String.length) in E. rewrite !length_append in E. lia.
Qed.

End TrimShape.

(** ** The overlap text of any chunk *)

Section OverlapBound.

Lemma overlapScan_sub (s r : string) :
  overlapScan s = Some r -> exists p t, s = p +:+ t /\ r = TrimSpace t.
Proof.
  induction s as [|c s IH]; [discriminate|]. simpl.
  destruct (Ascii.eqb c " ").
  - intros [= <-]. now exists "", (String c s).
  - intros H. destruct (IH H) as (p & t & -> & ->).
    now exists (String c p), t.
Qed.

(** What [getOverlapText] returns for an overlap that is not negative. *)
Lemma getOverlapText_some (text : string) (overlapChars : Z) :
  0 <= overlapChars ->
  exists r, getOverlapText text overlapChars = Some r
            /\ Contains text r /\ len r <= overlapChars.
Proof.
  intros Hoc. unfold getOverlapText, len.
  destruct (Z.of_nat (String.length text) <=? overlapChars) eqn:Hle.
  { apply Z.leb_le in Hle. exists text. split; [reflexivity|].
    split; [|exact Hle]. exists "", "". now rewrite append_nil_r. }
  apply Z.leb_gt in Hle.
  assert (Hpos : (0 <=? Z.of_nat (String.length text) - overlapChars)
                 && (Z.of_nat (String.length text) - overlapChars
                     <=? Z.of_nat (String.length text)) = true).
  { apply andb_true_iff. split; apply Z.leb_le; lia. }
  rewrite Hpos.
  set (n := Z.to_nat (Z.of_nat (String.length text) - overlapChars)).
  destruct (drop_suffix n text) as [p0 Hp0].
  pose proof (drop_length n text) as Hlen.
  assert (Hsub : forall t p1, drop n text = p1 +:+ t ->
            Contains text (TrimSpace t)
            /\ Z.of_nat (String.length (TrimSpace t)) <= overlapChars).
  { intros t p1 E. split.
    - destruct (TrimSpace_sub t) as (p & q & Ht).
      exists (p0 +:+ p1 +:+ p), q.
      rewrite Hp0 at 1. rewrite E. rewrite Ht at 1.
      now rewrite !append_assoc.
    - pose proof (TrimSpace_length t) as Ht.
      apply (f_equal String.length) in E. rewrite length_append in E.
      unfold n in *. lia. }
  destruct (overlapScan (drop n text)) as [r|] eqn:Hscan.
  - apply overlapScan_sub in Hscan as (p1 & t & E & ->).
    eexists. split; [reflexivity|]. now apply (Hsub t p1).
  - eexists. split; [reflexivity|]. now apply (Hsub _ "").
Qed.

End OverlapBound.

(** X1. [getOverlapText] panics for a negative overlap.  For an overlap
    that is not negative it returns a piece of the text that is at most
    [overlapChars] bytes long, and the whole text when that is no longer
    than the overlap. *)
Theorem getOverlapText_bound (text : string) (overlapChars : Z) :
  (overlapChars < 0 -> getOverlapText text overlapChars = None)
  /\ (0 <= overlapChars ->
      exists r, getOverlapText text overlapChars = Some r
                /\ Contains text r /\ len r <= overlapChars
                /\ (len text <= overlapChars -> r = text)).
Proof.
  split.
  - intros Hneg. unfold getOverlapText, len.
    destruct (Z.of_nat (String.length text) <=? overlapChars) eqn:Hle;
      [apply Z.leb_le in Hle; lia|].
    destruct (Z.of_nat (String.length text) - overlapChars
              <=? Z.of_nat (String.length text)) eqn:Hup;
      [apply Z.leb_le in Hup; lia|].
    now rewrite andb_false_r.
  - intros Hoc.
    destruct (getOverlapText_some text overlapChars Hoc) as (r & Hr & Hc & Hl).
    exists r. repeat split; try assumption.
    intros Hle. unfold getOverlapText in Hr. apply Z.leb_le in Hle.
    rewrite Hle in Hr. now injection Hr.
Qed.

Lemma getOverlapText_bound_witness :
  getOverlapText "alpha beta gamma" (-1) = None
  /\ exists r, getOverlapText "alpha beta gamma" 8 = Some r
               /\ Contains "alpha beta gamma" r /\ len r <= 8.
Proof.
  destruct (getOverlapText_bound "alpha beta gamma" (-1)) as [Hneg _].
  destruct (getOverlapText_bound "alpha beta gamma" 8) as [_ Hpos].
  split; [apply Hneg; lia|].
  destruct Hpos as (r & Hr & Hc & Hl & _); [lia|].
  exists r. auto.
Defined.

(** ** The size of the chunks *)

Section SizeFacts.

Variables maxChars overlapChars : Z.
Variable words : list string.

(** The chunk under construction has no white space around it. *)
Lemma chunkInv_trim (done : list string) (st : list string * string) :
  chunkInv overlapChars done st -> Forall Word done -> snd st <> "" ->
  TrimSpace (snd st) = snd st.
Proof.
  intros [[_ ->]|(L & seed & seg & _ & Hcur & Hdone & Hseg & _ & Hc)] Hw Hne;
    [now elim Hne|].
  assert (Hsd : Forall Word seed).
  { apply chained_seeds in Hc. apply Forall_app in Hc as [_ Hc].
    now inversion Hc. }
  assert (Hsg : Forall Word seg).
  { rewrite Hdone in Hw. now apply Forall_app in Hw as [_ ?]. }
  destruct (render_words seed seg Hseg Hsd Hsg) as [Hne1 Hall].
  rewrite Hcur. unfold render. now apply TrimSpace_Join.
Qed.

Lemma chunkStep_sized (done : list string) (st st' : list string * string)
    (w : string) :
  chunkInv overlapChars done st -> Forall Word done -> In w words ->
  Forall (sized maxChars overlapChars words) (fst st) ->
  (snd st = "" \/ sized maxChars overlapChars words (snd st)) ->
  chunkStep maxChars overlapChars st w = Some st' ->
  Forall (sized maxChars overlapChars words) (fst st')
  /\ sized maxChars overlapChars words (snd st').
Proof.
  intros Hinv Hdone Hw Hchunks Hcur.
  pose proof (chunkInv_trim done st Hinv Hdone) as Htrim.
  destruct st as [chunks cur]. cbn [fst snd] in *. unfold chunkStep.
  destruct (String.eqb cur "") eqn:Heq; cbn [negb].
  - apply String.eqb_eq in Heq as ->. rewrite andb_false_r.
    intros [= <-]. split; [exact Hchunks|]. right. exists w. now split; [|left].
  - apply String.eqb_neq in Heq. rewrite andb_true_r.
    destruct Hcur as [Hcur|Hcur]; [contradiction|].
    destruct (len ((cur +:+ " ") +:+ w) >? maxChars) eqn:Hbig.
    + rewrite (Htrim Heq).
      assert (Hall : Forall (sized maxChars overlapChars words)
                       (chunks ++ [cur])).
      { apply Forall_app. split; [exact Hchunks | now constructor]. }
      destruct ((overlapChars >? 0)
                && (Z.of_nat (length (chunks ++ [cur])) >? 0)) eqn:Hov.
      * apply andb_true_iff in Hov as [Hoc _]. apply Z.gtb_lt in Hoc.
        destruct (getOverlapText_some cur overlapChars) as (ov & Hr & _ & Hl);
          [lia|].
        rewrite Hr. intros [= <-]. split; [exact Hall|].
        right. exists w. split; [exact Hw|]. right. exists ov.
        repeat split; [lia | exact Hl].
      * intros [= <-]. split; [exact Hall|]. right. exists w.
        now split; [|left].
    + intros [= <-]. split; [exact Hchunks|]. left.
      rewrite Z.gtb_ltb in Hbig. apply Z.ltb_ge in Hbig. exact Hbig.
Qed.

Lemma chunkLoop_sized (todo done : list string)
    (st st' : list string * string) :
  chunkInv overlapChars done st -> Forall Word (done ++ todo) ->
  (forall x, In x todo -> In x words) ->
  Forall (sized maxChars overlapChars words) (fst st) ->
  (snd st = "" \/ sized maxChars overlapChars words (snd st)) ->
  chunkLoop maxChars overlapChars todo st = Some st' ->
  Forall (sized maxChars overlapChars words) (fst st')
  /\ (snd st' = "" \/ sized maxChars overlapChars words (snd st'))
  /\ chunkInv overlapChars (done ++ todo) st'.
Proof.
  revert done st; induction todo as [|w todo IH];
    intros done st Hinv Hw Hin Hchunks Hcur.
  - intros [= <-]. rewrite app_nil_r. auto.
  - assert (Hd : Forall Word done) by now apply Forall_app in Hw as [? _].
    assert (Hww : Word w).
    { apply Forall_app in Hw as [_ Hw]. now inversion Hw. }
    destruct (chunkStep_inv maxChars overlapChars done st w Hinv Hd Hww)
      as (st1 & Hstep & Hinv1).
    simpl. rewrite Hstep.
    destruct (chunkStep_sized done st st1 w Hinv Hd (Hin w (or_introl eq_refl))
                Hchunks Hcur Hstep) as [H1 H2].
    replace (done ++ w :: todo) with ((done ++ [w]) ++ todo) in *
      by now rewrite <- app_assoc.
    apply IH; auto. intros x Hx. apply Hin. now right.
Qed.

End SizeFacts.

(** Every run of [chunkText] returns chunks of that size. *)
Lemma chunkText_fits (text : string) (maxTokens overlap : Z) :
  exists chunks,
    chunkText text maxTokens overlap = Some chunks
    /\ Forall (sized (wrap64 (maxTokens * 4)) (wrap64 (overlap * 4))
                 (Fields text)) chunks.
Proof.
  unfold chunkText. pose proof (Fields_words text) as Hw.
  destruct (Fields text) as [|w ws] eqn:Ef.
  { exists []. split; [reflexivity | constructor]. }
  cbn [length Nat.eqb].
  destruct (chunkLoop_inv (wrap64 (maxTokens * 4)) (wrap64 (overlap * 4))
              (w :: ws) [] ([], "")) as (st & Hloop & Hinv);
    [now left | exact Hw |].
  rewrite Hloop.
  destruct (chunkLoop_sized (wrap64 (maxTokens * 4)) (wrap64 (overlap * 4))
              (w :: ws) (w :: ws) [] ([], "") st
              (or_introl (conj eq_refl eq_refl)) Hw (fun x H => H)
              (List.Forall_nil _) (or_introl eq_refl) Hloop)
    as (Hchunks & Hcur & _).
  destruct st as [chunks cur]. cbn [fst snd app] in *.
  destruct (String.eqb (TrimSpace cur) "") eqn:Heq; cbn [negb].
  - exists chunks. split; [reflexivity | exact Hchunks].
  - exists (chunks ++ [TrimSpace cur]). split; [reflexivity|].
    assert (Hne : cur <> "").
    { intros ->. discriminate Heq. }
    pose proof (chunkInv_trim _ (w :: ws) (chunks, cur) Hinv Hw Hne) as Ht.
    cbn [snd] in Ht. rewrite Ht.
    apply Forall_app. split; [exact Hchunks|].
    destruct Hcur as [Hcur|Hcur]; [contradiction | now constructor].
Qed.

(** X2. [chunkText] returns, and each of its chunks keeps to [maxChars]
    bytes unless it is a single word of the text, alone or after an
    overlap text of at most [overlapChars] bytes and a space.  Where
    [maxTokens * 4] does not overflow, a chunk that keeps to [maxChars]
    counts at most [maxTokens] tokens. *)
Theorem chunkText_sized (text : string) (maxTokens overlap : Z) :
  exists chunks,
    chunkText text maxTokens overlap = Some chunks
    /\ Forall (sized (wrap64 (maxTokens * 4)) (wrap64 (overlap * 4))
                 (Fields text)) chunks
    /\ (- 2 ^ 63 <= maxTokens * 4 < 2 ^ 63 ->
        forall c, In c chunks -> len c <= wrap64 (maxTokens * 4) ->
                  processor.CountTokens c <= maxTokens).
Proof.
  destruct (chunkText_fits text maxTokens overlap) as (chunks & Hrun & Hall).
  exists chunks. split; [exact Hrun|]. split; [exact Hall|].
  intros Hr c _ Hc. unfold processor.CountTokens.
  assert (Hw : wrap64 (maxTokens * 4) = maxTokens * 4).
  { unfold wrap64.
    rewrite Z.mod_small by (change (2 ^ 64) with (2 * 2 ^ 63); lia). lia. }
  rewrite Hw in Hc. unfold len in *.
  rewrite Z.quot_div_nonneg by lia.
  apply Z.div_le_upper_bound; lia.
Qed.

Lemma chunkText_sized_witness :
  exists chunks,
    chunkText "supercalifragilistic is long" 3 2 = Some chunks
    /\ Forall (sized (wrap64 (3 * 4)) (wrap64 (2 * 4))
                 (Fields "supercalifragilistic is long")) chunks
    /\ forall c, In c chunks -> len c <= wrap64 (3 * 4) ->
                 processor.CountTokens c <= 3.
Proof.
  destruct (chunkText_sized "supercalifragilistic is long" 3 2)
    as (chunks & H1 & H2 & H3).
  exists chunks. split; [exact H1|]. split; [exact H2|].
  apply H3. split; [now vm_compute | reflexivity].
Defined.

(** X22. When every word of the text, with the overlap (if positive)
    and a space before it, keeps to [maxChars] bytes, every chunk of
    [chunkText] keeps to [maxChars] bytes. *)
Theorem chunkText_bounded (text : string) (maxTokens overlap : Z) :
  (forall w, In w (Fields text) ->
     len w + Z.max 0 (wrap64 (overlap * 4)) + 1 <= wrap64 (maxTokens * 4)) ->
  exists chunks,
    chunkText text maxTokens overlap = Some chunks
    /\ Forall (fun c => len c <= wrap64 (maxTokens * 4)) chunks.
Proof.
  intros Hwords.
  destruct (chunkText_fits text maxTokens overlap) as (chunks & Hrun & Hall).
  exists chunks. split; [exact Hrun|].
  eapply List.Forall_impl; [|exact Hall].
  intros c [Hc|(w & Hw & [->|(ov & Hpos & Hov & ->)])]; [exact Hc| |].
  - specialize (Hwords w Hw). lia.
  - specialize (Hwords w Hw). unfold len in *.
    rewrite !length_append. simpl String.length. lia.
Qed.

Lemma chunkText_bounded_witness :
  exists chunks,
    chunkText "the quick brown fox jumps over the lazy dog" 4 2 = Some chunks
    /\ Forall (fun c => len c <= wrap64 (4 * 4)) chunks.
Proof.
  apply (chunkText_bounded "the quick brown fox jumps over the lazy dog" 4 2).
  intros w Hw. simpl in Hw.
  repeat destruct Hw as [<-|Hw]; now vm_compute.
Defined.

(** ** Blank texts *)

Section BlankFacts.

Lemma TrimLeft_go_blank (s : string) (k : nat) :
  allSpace_go k s = true -> TrimLeft_go k s = "".
Proof.
  revert k; induction s as [|c s IH]; intros k H; [reflexivity|].
  destruct k as [|k]; [|simpl in *; now apply IH].
  change (allSpace_go 0 (String c s))
    with (match spaceWidth (String c s) with
          | O => false
          | S j => allSpace_go j s
          end) in H.
  change (TrimLeft_go 0 (String c s))
    with (match spaceWidth (String c s) with
          | O => String c s
          | S j => TrimLeft_go j s
          end).
  destruct (spaceWidth (String c s)) as [|j]; [discriminate | now apply IH].
Qed.

(** What is left after trimming on the left is empty or starts with no
    white space; when it is empty the text was blank. *)
Lemma TrimLeft_go_head (s : string) (k : nat) :
  (TrimLeft_go k s = "" /\ allSpace_go k s = true)
  \/ (TrimLeft_go k s <> "" /\ spaceWidth (TrimLeft_go k s) = 0%nat).
Proof.
  revert k; induction s as [|c s IH]; intros k; [now left|].
  destruct k as [|k]; [|simpl; apply IH].
  change (allSpace_go 0 (String c s))
    with (match spaceWidth (String c s) with
          | O => false
          | S j => allSpace_go j s
          end).
  change (TrimLeft_go 0 (String c s))
    with (match spaceWidth (String c s) with
          | O => String c s
          | S j => TrimLeft_go j s
          end).
  destruct (spaceWidth (String c s)) as [|j] eqn:E; [|apply IH].
  right. split; [discriminate | exact E].
Qed.

Lemma TrimRight_empty (t : string) : TrimRight t = "" -> allSpace t = true.
Proof.
  destruct t as [|c t]; [reflexivity|]. rewrite TrimRight_cons.
  destruct (allSpace (String c t)); [reflexivity | discriminate].
Qed.

(** [strings.TrimSpace(text) == ""] says that the text is blank. *)
Lemma TrimSpace_blank (s : string) : TrimSpace s = "" <-> allSpace s = true.
Proof.
  unfold TrimSpace, TrimLeft, allSpace. split.
  - intros H. apply TrimRight_empty in H.
    destruct (TrimLeft_go_head s 0) as [[_ Hb]|[Hne Hw]]; [exact Hb|].
    now rewrite (allSpace_head _ Hne Hw) in H.
  - intros H. now rewrite (TrimLeft_go_blank s 0 H).
Qed.

Lemma push_nil (w : string) (ws : list string) :
  push w ws = [] -> w = "" /\ ws = [].
Proof. destruct w; [now split | discriminate]. Qed.

Lemma fields_from_blank (s : string) (k : nat) :
  push (fst (fields_from k s)) (snd (fields_from k s)) = [] ->
  allSpace_go k s = true.
Proof.
  revert k; induction s as [|c s IH]; intros k H; [reflexivity|].
  destruct k as [|k].
  - rewrite fields_from_0 in H.
    change (allSpace_go 0 (String c s))
      with (match spaceWidth (String c s) with
            | O => false
            | S j => allSpace_go j s
            end).
    destruct (spaceWidth (String c s)) as [|j]; [discriminate H|].
    cbn [fst snd push] in H. now apply IH.
  - rewrite fields_from_skip in H. cbn [fst snd push] in H.
    simpl. now apply IH.
Qed.

(** A text without fields is blank. *)
Lemma Fields_blank (s : string) : Fields s = [] <-> allSpace s = true.
Proof.
  split; [|apply allSpace_Fields].
  rewrite Fields_unfold. apply fields_from_blank.
Qed.

End BlankFacts.

(** ** The documents of a file *)

Section ProcessFacts.

Import processor.

Lemma append_inj_l (a b c : string) : a +:+ b = a +:+ c -> b = c.
Proof.
  induction a as [|x a IH]; simpl; [auto|]. intros [= H]. now apply IH.
Qed.

(** [fmt.Sprintf("%d", n)] tells the numbers apart. *)
Lemma itoa_inj (m n : Z) : prompt.itoa m = prompt.itoa n -> m = n.
Proof.
  unfold prompt.itoa. intros H. apply DecimalZ.to_int_inj.
  assert (Hok : forall z, Z.to_int z <> Decimal.Pos Decimal.Nil
                          /\ Z.to_int z <> Decimal.Neg Decimal.Nil).
  { intros [|q|q]; simpl; split; try discriminate;
      intros [= E]; now apply (DecimalPos.Unsigned.to_uint_nonnil q). }
  destruct (Hok m) as [Hm1 Hm2]. destruct (Hok n) as [Hn1 Hn2].
  pose proof (DecimalString.NilZero.isi _ Hm1 Hm2) as Em.
  pose proof (DecimalString.NilZero.isi _ Hn1 Hn2) as En.
  rewrite H in Em. rewrite Em in En. now injection En.
Qed.

Variable md5hex : string -> string.
Variable source : DocumentSource.t.

Lemma documents_length (total i : Z) (chunks : list string) :
  length (documents md5hex source total i chunks) = length chunks.
Proof.
  revert i; induction chunks as [|c chunks IH]; intros i; simpl;
    [reflexivity | now rewrite IH].
Qed.

Lemma documents_Content (total i : Z) (chunks : list string) :
  map Document.Content (documents md5hex source total i chunks) = chunks.
Proof.
  revert i; induction chunks as [|c chunks IH]; intros i; simpl;
    [reflexivity | now rewrite IH].
Qed.

(** The document at position [k]. *)
Lemma documents_lookup (total i : Z) (chunks : list string) (k : nat)
    (d : Document.t) :
  documents md5hex source total i chunks !! k = Some d ->
  chunks !! k = Some (Document.Content d)
  /\ Document.ID d
     = md5hex (DocumentSource.Path source) +:+ "-"
       +:+ prompt.itoa (i + Z.of_nat k)
  /\ Document.Metadata d !! "chunk_id" = Some (AnyInt (i + Z.of_nat k))
  /\ Document.Metadata d !! "total_chunks" = Some (AnyInt total)
  /\ Document.Metadata d !! "path"
     = Some (AnyString (DocumentSource.Path source))
  /\ Document.Metadata d !! "title"
     = Some (AnyString (DocumentSource.Title source))
  /\ Document.Score d = f64_zero.
Proof.
  revert i k; induction chunks as [|c chunks IH]; intros i k H;
    [discriminate H|].
  destruct k as [|k].
  - injection H as <-. cbn [Document.Content Document.ID Document.Metadata
                            Document.Score].
    rewrite Z.add_0_r. repeat split; reflexivity.
  - cbn [documents] in H. change ((?x :: ?l) !! S k) with (l !! k) in H.
    destruct (IH (i + 1) k H) as (H1 & H2 & H3 & H4 & H5 & H6 & H7).
    replace (i + Z.of_nat (S k)) with (i + 1 + Z.of_nat k) by lia.
    repeat split; assumption.
Qed.

End ProcessFacts.

Section ProcessRuns.

Import processor.

Context {W : Type}.
Variable ReadAll : W -> result string * W.
Variable extractPDF : string -> W -> result string * W.
Variables extractMarkdown extractHTML : string -> option string.
Variable md5hex : string -> string.
Variables (p : Processor) (source : DocumentSource.t).

(** The chunker returns at least one chunk for a text that is not blank,
    and no chunk is empty. *)
Lemma chunkText_some (text : string) (maxTokens overlap : Z) :
  TrimSpace text <> "" ->
  exists chunks,
    chunkText text maxTokens overlap = Some chunks /\ chunks <> []
    /\ Forall (fun c => c <> "") chunks.
Proof.
  intros Hne.
  destruct (chunkText_layout text maxTokens overlap)
    as (L & Hrun & Hcat & Hseg & Hch).
  exists (map render L). split; [exact Hrun|]. split.
  - destruct L as [|x L]; [|discriminate]. exfalso. apply Hne.
    apply TrimSpace_blank, Fields_blank. now rewrite <- Hcat.
  - pose proof (layout_words text _ L Hcat Hseg Hch) as Hw.
    apply Forall_map. eapply List.Forall_impl; [|exact Hw].
    intros x [H1 H2]. unfold render. now apply Join_head.
Qed.

(** A run of [Process] that returns documents has chunked a text that is
    not blank. *)
Lemma Process_text (w w' : W) (docs : list Document.t) :
  Process ReadAll extractPDF extractMarkdown extractHTML md5hex p source w
  = (Some (inl docs), w') ->
  exists text chunks,
    TrimSpace text <> ""
    /\ chunkText text (chunkTokens p) (chunkOverlap p) = Some chunks
    /\ docs = documents md5hex source (Z.of_nat (length chunks)) 0 chunks.
Proof.
  unfold Process.
  set (r := if String.eqb (lowerType (DocumentSource.Type' source)) ".pdf"
            then _ else _).
  destruct r as [[[text|err]|] w1]; try discriminate.
  destruct (String.eqb (TrimSpace text) "") eqn:Hb; [discriminate|].
  apply String.eqb_neq in Hb.
  destruct (chunkText text (chunkTokens p) (chunkOverlap p)) as [chunks|] eqn:Hc;
    [|discriminate].
  intros [= <- <-]. now exists text, chunks.
Qed.

End ProcessRuns.

(** X3. When [Process] returns documents, there is at least one, they
    hold the chunks of a text that is not blank, in order, and none is
    empty; the document at position [i] has the identifier made of the
    hash of the path and [i], the [chunk_id] [i], the number of documents
    as [total_chunks], and the path and the title of the source; no two
    documents have the same identifier. *)
Theorem Process_documents {W : Type} (ReadAll : W -> result string * W)
    (extractPDF : string -> W -> result string * W)
    (extractMarkdown extractHTML : string -> option string)
    (md5hex : string -> string) (p : processor.Processor)
    (source : processor.DocumentSource.t) (w w' : W)
    (docs : list Document.t) :
  processor.Process ReadAll extractPDF extractMarkdown extractHTML md5hex
    p source w = (Some (inl docs), w') ->
  docs <> []
  /\ (exists text,
        TrimSpace text <> ""
        /\ chunkText text (processor.chunkTokens p) (processor.chunkOverlap p)
           = Some (map Document.Content docs))
  /\ (forall i d, docs !! i = Some d ->
        Document.Content d <> ""
        /\ Document.ID d
           = md5hex (processor.DocumentSource.Path source) +:+ "-"
             +:+ prompt.itoa (Z.of_nat i)
        /\ Document.Metadata d !! "chunk_id" = Some (AnyInt (Z.of_nat i))
        /\ Document.Metadata d !! "total_chunks"
           = Some (AnyInt (Z.of_nat (length docs)))
        /\ Document.Metadata d !! "path"
           = Some (AnyString (processor.DocumentSource.Path source))
        /\ Document.Metadata d !! "title"
           = Some (AnyString (processor.DocumentSource.Title source)))
  /\ (forall i j d d', docs !! i = Some d -> docs !! j = Some d' ->
        Document.ID d = Document.ID d' -> i = j).
Proof.
  intros H. apply Process_text in H as (text & chunks & Hne & Hc & ->).
  destruct (chunkText_some text (processor.chunkTokens p)
              (processor.chunkOverlap p) Hne) as (chunks' & Hc' & Hnil & Hall).
  rewrite Hc in Hc'. injection Hc' as <-.
  set (total := Z.of_nat (length chunks)).
  split.
  { destruct chunks; [congruence | discriminate]. }
  split.
  { exists text. split; [exact Hne|]. now rewrite documents_Content. }
  assert (Hat : forall i d,
            processor.documents md5hex source total 0 chunks !! i = Some d ->
            chunks !! i = Some (Document.Content d)
            /\ Document.ID d
               = md5hex (processor.DocumentSource.Path source) +:+ "-"
                 +:+ prompt.itoa (Z.of_nat i)).
  { intros i d Hd.
    destruct (documents_lookup md5hex source total 0 chunks i d Hd)
      as (H1 & H2 & _). now split. }
  split.
  - intros i d Hd.
    destruct (documents_lookup md5hex source total 0 chunks i d Hd)
      as (H1 & H2 & H3 & H4 & H5 & H6 & _).
    rewrite documents_length. fold total. cbn [Z.add] in *.
    repeat split; try assumption.
    rewrite List.Forall_forall in Hall. apply Hall.
    apply list_elem_of_In. eapply list_elem_of_lookup_2. exact H1.
  - intros i j d d' Hd Hd' E.
    destruct (Hat i d Hd) as [_ Hi]. destruct (Hat j d' Hd') as [_ Hj].
    rewrite Hi, Hj in E. apply append_inj_l in E.
    apply (append_inj_l "-") in E. apply itoa_inj in E. lia.
Qed.

Lemma Process_documents_witness :
  let docs :=
    processor.documents (fun _ => "0cc175b9") 
      (processor.DocumentSource.mk "a.txt" "A" 11 AnyNil ".txt") 2 0
      ["alpha beta"; "beta gamma"] in
  docs <> []
  /\ (forall i j d d', docs !! i = Some d -> docs !! j = Some d' ->
        Document.ID d = Document.ID d' -> i = j).
Proof.
  intros docs.
  destruct (Process_documents
              (fun w : unit => (inl "alpha beta gamma", w))
              (fun _ w => (inr "not a PDF", w))
              (fun c => Some c) (fun c => Some c) (fun _ => "0cc175b9")
              (processor.NewProcessor 3 2)
              (processor.DocumentSource.mk "a.txt" "A" 11 AnyNil ".txt")
              tt tt docs eq_refl) as (H1 & _ & _ & H4).
  split; [exact H1 | exact H4].
Defined.



(** X5. For a file that is neither PDF, Markdown nor HTML by its type,
    [Process] takes the content as the text: it returns the error
    "document contains no extractable text" exactly when the content is
    blank, and otherwise one document for each chunk of the content, of
    which there is at least one. *)
Theorem Process_plain {W : Type} (ReadAll : W -> result string * W)
    (extractPDF : string -> W -> result string * W)
    (extractMarkdown extractHTML : string -> option string)
    (md5hex : string -> string) (p : processor.Processor)
    (source : processor.DocumentSource.t) (w w1 : W) (content : string) :
  ~ In (processor.lowerType (processor.DocumentSource.Type' source))
       [".pdf"; ".md"; ".markdown"; ".html"; ".htm"] ->
  ReadAll w = (inl content, w1) ->
  exists r,
    processor.Process ReadAll extractPDF extractMarkdown extractHTML md5hex
      p source w = (Some r, w1)
    /\ (allSpace content = true ->
        r = inr "document contains no extractable text")
    /\ (allSpace content = false ->
        exists docs,
          r = inl docs /\ docs <> []
          /\ chunkText content (processor.chunkTokens p)
               (processor.chunkOverlap p)
             = Some (map Document.Content docs)).
Proof.
  intros Hty Hread. unfold processor.Process, processor.extractText.
  set (t := processor.lowerType (processor.DocumentSource.Type' source)) in *.
  assert (Hne : forall x, In x [".pdf"; ".md"; ".markdown"; ".html"; ".htm"] ->
                          String.eqb t x = false).
  { intros x Hx. apply String.eqb_neq. intros ->. now apply Hty. }
  rewrite (Hne ".pdf"), (Hne ".md"), (Hne ".markdown"), (Hne ".html"),
    (Hne ".htm") by (simpl; tauto).
  rewrite Hread. cbn [orb]. cbv iota.
  assert (Hsame : forall b : bool,
            (if b then Some (inl content) else Some (inl content))
            = Some (inl content : result string)) by now intros [].
  rewrite Hsame.
  destruct (String.eqb (TrimSpace content) "") eqn:Hb.
  - apply String.eqb_eq, TrimSpace_blank in Hb. eexists. split; [reflexivity|].
    split; [reflexivity | intros E; congruence].
  - apply String.eqb_neq in Hb.
    destruct (chunkText_some content (processor.chunkTokens p)
                (processor.chunkOverlap p) Hb) as (chunks & Hc & Hnil & _).
    rewrite Hc. eexists. split; [reflexivity|]. split.
    + intros E. apply TrimSpace_blank in E. contradiction.
    + intros _. eexists. split; [reflexivity|].
      split; [|now rewrite documents_Content].
      destruct chunks; [congruence | discriminate].
Qed.

Lemma Process_plain_witness :
  exists r,
    processor.Process (fun w : unit => (inl "  ", w))
      (fun _ w => (inr "not a PDF", w)) (fun c => Some c) (fun c => Some c)
      (fun _ => "0cc175b9") (processor.NewProcessor 3 2)
      (processor.DocumentSource.mk "a.txt" "A" 2 AnyNil ".TXT") tt
    = (Some r, tt)
    /\ r = inr "document contains no extractable text".
Proof.
  destruct (Process_plain (fun w : unit => (inl "  ", w))
              (fun _ w => (inr "not a PDF", w)) (fun c => Some c)
              (fun c => Some c) (fun _ => "0cc175b9")
              (processor.NewProcessor 3 2)
              (processor.DocumentSource.mk "a.txt" "A" 2 AnyNil ".TXT") tt tt "  ")
    as (r & H1 & H2 & _).
  - simpl. intros [H|[H|[H|[H|[H|[]]]]]]; discriminate H.
  - reflexivity.
  - exists r. split; [exact H1 | now apply H2].
Defined.

(** ** The query pipeline: errors, order, gates *)

Ltac ask_members :=
  repeat match goal with
         | H : In _ (_ :: _) |- _ => destruct H as [H|H]
         | H : In _ [] |- _ => destruct H
         | H : _ \/ _ |- _ => destruct H as [H|H]
         | H : False |- _ => destruct H
         | H : _ = _ :> Event |- _ => inversion H; clear H; subst
         end.

Ltac ask_last :=
  first [ exists []; reflexivity
        | eexists [_]; reflexivity
        | eexists [_; _]; reflexivity
        | eexists [_; _; _]; reflexivity ].

Ltac last_event l :=
  match l with
  | [?x] => x
  | _ :: ?l' => last_event l'
  end.

Ltac ask_failed :=
  cbn [app];
  match goal with
  | |- exists e cause, In e ?tr /\ _ =>
      let x := last_event tr in
      exists x; eexists; split; [simpl; tauto | split; reflexivity]
  end.

(** X6. [Ask] hides no error.  A call that returns an error is the last
    call of the run, and [Ask] returns that error behind the message of
    the step, with an empty answer and the nil source list.  An error of
    [Ask] is always such an error of a call, or that of building the
    system prompt; and with it the answer is empty and the sources nil. *)
Theorem Ask_errors {W : Type} (a : App W) (question : string)
    (temperature : float64) (s s' : Store W) (ans : string)
    (srcs : option (list Source.t)) (err : option error) :
  Ask a question temperature s = ((ans, srcs, err), s') ->
  exists tr,
    trace s' = trace s ++ tr
    /\ (forall e cause, In e tr -> errorOf e = Some cause ->
          err = Some (Errorf (wrapOf e) cause)
          /\ exists tr0, tr = tr0 ++ [e])
    /\ (forall m, err = Some m ->
          ans = "" /\ srcs = None
          /\ ((exists e cause, In e tr /\ errorOf e = Some cause
                               /\ m = Errorf (wrapOf e) cause)
              \/ exists cause,
                   m = Errorf "failed to build system prompt" cause)).
Proof.
  intros H. destruct s as [w0 b0 tr0]. ask_cases H; cbn [trace]; ask_trace.
  all: split;
    [ intros ev cause Hin He; simpl in Hin; ask_members;
      cbn [errorOf] in He;
      first [ discriminate He
            | injection He as <-; split; [reflexivity | ask_last] ]
    | intros m Hm;
      first [ discriminate Hm
            | injection Hm as <-;
              split; [reflexivity|]; split; [reflexivity|];
              first [ right; eexists; reflexivity | left; ask_failed ] ] ].
Qed.

Lemma Ask_errors_witness :
  exists tr,
    trace (snd (Ask Cases.downApp "q" f64_zero Scenario.store0))
    = trace Scenario.store0 ++ tr
    /\ fst (Ask Cases.downApp "q" f64_zero Scenario.store0)
       = ("", None, Some "failed to retrieve documents: connection refused")
    /\ exists tr0, tr = tr0 ++ [EvSearch "q" 5 (inr "connection refused")].
Proof.
  destruct (Ask_errors Cases.downApp "q" f64_zero Scenario.store0 _ _ _ _
              eq_refl) as (tr & Htr & Hfail & _).
  exists tr. split; [exact Htr|]. split; [reflexivity|].
  cbn in Htr. subst tr.
  apply (Hfail (EvSearch "q" 5 (inr "connection refused"))
           "connection refused"); [simpl; tauto | reflexivity].
Defined.

(** X7. [Ask] goes to its collaborators in the order input check,
    retriever, generator, output check, to each at most once; and an
    unsafe verdict of either check is the last call of the run. *)
Theorem Ask_order {W : Type} (a : App W) (question : string)
    (temperature : float64) (s s' : Store W) (ans : Answer) :
  Ask a question temperature s = (ans, s') ->
  exists tr,
    trace s' = trace s ++ tr
    /\ sublist (map stageOf tr) askOrder
    /\ (forall e, In e tr -> isUnsafeVerdict e = true ->
          exists tr0, tr = tr0 ++ [e]).
Proof.
  intros H. destruct s as [w0 b0 tr0]. ask_cases H; cbn [trace]; ask_trace.
  all: split;
    [ cbn [map app stageOf]; unfold askOrder;
      repeat first [ apply sublist_nil | apply sublist_skip
                   | apply sublist_cons ]
    | intros ev Hin Hu; simpl in Hin; ask_members;
      cbn [isUnsafeVerdict] in Hu;
      repeat match goal with
             | E : SafetyResult.IsSafe _ = _ |- _ => rewrite E in Hu
             end;
      first [ discriminate Hu | ask_last ] ].
Qed.

Lemma Ask_order_witness :
  exists tr,
    trace (snd (Ask Cases.turningApp "q" f64_zero Cases.storeN))
    = trace Cases.storeN ++ tr
    /\ map stageOf tr = askOrder
    /\ exists tr0,
         tr = tr0 ++ [EvCheckOutput "The answer."
                        (inl (SafetyResult.mk false "S1" "Violent Crimes"
                                f64_zero))].
Proof.
  destruct (Ask_order Cases.turningApp "q" f64_zero Cases.storeN _ _ eq_refl)
    as (tr & Htr & _ & Hlast).
  exists tr. split; [exact Htr|]. cbn in Htr. subst tr.
  split; [reflexivity|]. apply Hlast; [simpl; tauto | reflexivity].
Defined.

(** X8. The output check of [Ask] is run on the text that the generator
    returned.  When its verdict is safe, that text is the answer and
    sources come with it; when its verdict is unsafe, the answer is the
    refusal message of the category and the generated text is not
    returned, nor any source. *)
Theorem Ask_output_gate {W : Type} (a : App W) (question : string)
    (temperature : float64) (s s' : Store W) (ans : string)
    (srcs : option (list Source.t)) (err : option error) :
  Ask a question temperature s = ((ans, srcs, err), s') ->
  exists tr,
    trace s' = trace s ++ tr
    /\ forall text r, In (EvCheckOutput text r) tr ->
         (exists prompt opts, In (EvGenerate prompt opts (inl text)) tr)
         /\ forall v, r = inl v ->
              (SafetyResult.IsSafe v = true ->
               ans = text /\ err = None /\ srcs <> None)
              /\ (SafetyResult.IsSafe v = false ->
                  ans = safety.GetRefusalMessage (SafetyResult.Category v)
                  /\ srcs = None /\ err = None).
Proof.
  intros H. destruct s as [w0 b0 tr0]. ask_cases H; cbn [trace]; ask_trace.
  all: intros text r Hin; simpl in Hin; ask_members.
  all: split; [eexists _, _; simpl; eauto 6|].
  all: intros v [= <-]; split; intros Hv; try congruence.
  all: repeat split; congruence.
Qed.

Lemma Ask_output_gate_witness :
  fst (Ask Cases.turningApp "q" f64_zero Cases.storeN)
  = ("I can't provide assistance with that request as it may violate content safety guidelines (category: S1 - Violent Crimes).",
     None, None)
  /\ exists prompt opts,
       In (EvGenerate prompt opts (inl "The answer."))
          (trace (snd (Ask Cases.turningApp "q" f64_zero Cases.storeN))).
Proof.
  destruct (Ask_output_gate Cases.turningApp "q" f64_zero Cases.storeN _ _ _ _
              eq_refl) as (tr & Htr & Hout).
  cbn in Htr. subst tr. split; [reflexivity|].
  destruct (Hout "The answer."
              (inl (SafetyResult.mk false "S1" "Violent Crimes" f64_zero)))
    as [(p & o & Hin) _]; [simpl; tauto|].
  exists p, o. exact Hin.
Defined.

(** X9. With a safety gate that is switched off, [Ask] calls neither
    check and refuses nothing: a run without error is one search and one
    generation, and returns the generated text with one source for each
    document found. *)
Theorem Ask_gate_off {W : Type} (a : App W) (question : string)
    (temperature : float64) (s s' : Store W) (ans : string)
    (srcs : option (list Source.t)) (err : option error) :
  (forall w, IsEnabled (SafetyGate a) w = false) ->
  Ask a question temperature s = ((ans, srcs, err), s') ->
  exists tr,
    trace s' = trace s ++ tr
    /\ (forall e, In e tr ->
          stageOf e = StageSearch \/ stageOf e = StageGenerate)
    /\ (err = None ->
        exists docs prompt opts,
          tr = [EvSearch question (Config.TopK (Config a)) (inl docs);
                EvGenerate prompt opts (inl ans)]
          /\ srcs = Some (map toSource docs)).
Proof.
  intros Hoff H. destruct s as [w0 b0 tr0].
  ask_cases H; cbn [trace]; ask_trace.
  all: try match goal with
           | E : IsEnabled _ _ = true |- _ => rewrite Hoff in E; discriminate E
           end.
  all: split;
    [ intros ev Hin; simpl in Hin; ask_members; cbn [stageOf]; tauto
    | intros E; first [ discriminate E | eexists _, _, _; split; reflexivity ] ].
Qed.

Lemma Ask_gate_off_witness :
  exists tr docs prompt opts,
    trace (snd (Ask (Scenario.demoApp "unsafe S1" false [Scenario.demoDoc])
                    "q" f64_zero Scenario.store0))
    = trace Scenario.store0 ++ tr
    /\ tr = [EvSearch "q" 5 (inl docs);
             EvGenerate prompt opts (inl "The answer.")].
Proof.
  destruct (Ask_gate_off (Scenario.demoApp "unsafe S1" false [Scenario.demoDoc])
              "q" f64_zero Scenario.store0 _ "The answer." _ None
              (fun _ => eq_refl) eq_refl) as (tr & Htr & _ & Hrun).
  destruct (Hrun eq_refl) as (docs & p & o & E & _).
  exists tr, docs, p, o. split; [exact Htr | exact E].
Defined.

(** ** The system prompt *)

Section SystemPromptFacts.

Context {W : Type}.
Variable ReadFile : string -> W -> result string * W.

(** A prompt that was built is the prompt that the builder holds. *)
Lemma BuildSystemPrompt_ok (b b' : prompt.Builder) (w w' : W) (p : string) :
  prompt.BuildSystemPrompt ReadFile b w = (inl p, b', w') ->
  prompt.systemPrompt b' = p
  /\ prompt.systemPromptPath b' = prompt.systemPromptPath b.
Proof.
  unfold prompt.BuildSystemPrompt.
  destruct (String.eqb (prompt.systemPrompt b) ""); cbn [negb].
  - destruct (String.eqb (prompt.systemPromptPath b) ""); cbn [negb].
    + intros [= <- <- <-]. now split.
    + destruct (ReadFile (prompt.systemPromptPath b) w) as [[content|e] w1];
        [|discriminate].
      intros [= <- <- <-]. now split.
  - intros [= <- <- <-]. now split.
Qed.

End SystemPromptFacts.

(** X10. Every call of the generator by [Ask] is grounded: the retriever
    was asked the question with the configured [TopK] and returned
    documents, the prompt is the RAG prompt of the question over these
    documents, the options carry the configured [TopP] and [MaxTokens],
    no stop sequence, and the system prompt that the builder holds after
    the run; and an input check, if one was made, was on the question
    and gave a safe verdict. *)
Theorem Ask_grounded {W : Type} (a : App W) (question : string)
    (temperature : float64) (s s' : Store W) (ans : Answer) :
  Ask a question temperature s = (ans, s') ->
  exists tr,
    trace s' = trace s ++ tr
    /\ forall prompt opts r, In (EvGenerate prompt opts r) tr ->
         (exists docs,
            In (EvSearch question (Config.TopK (Config a)) (inl docs)) tr
            /\ prompt = prompt.BuildRAGPrompt question docs)
         /\ GenerateOptions.TopP opts = Config.TopP (Config a)
         /\ GenerateOptions.MaxTokens opts = Config.MaxTokens (Config a)
         /\ GenerateOptions.StopSequences opts = []
         /\ GenerateOptions.SystemPrompt opts
            = prompt.systemPrompt (PromptBuilder s')
         /\ forall text v, In (EvCheckInput text v) tr ->
              text = question
              /\ exists verdict,
                   v = inl verdict /\ SafetyResult.IsSafe verdict = true.
Proof.
  intros H. destruct s as [w0 b0 tr0]. ask_cases H; cbn [trace]; ask_trace.
  all: intros p opts r Hin; simpl in Hin; ask_members.
  all: match goal with
       | E : prompt.BuildSystemPrompt _ _ _ = (inl _, _, _) |- _ =>
           apply BuildSystemPrompt_ok in E as [E _]
       end.
  all: split; [eexists; split; [simpl; eauto 6 | reflexivity]|].
  all: cbn [PromptBuilder]; destruct (f64_eqb temperature f64_zero);
    cbn [withTemperature GenerateOptions.TopP GenerateOptions.MaxTokens
         GenerateOptions.StopSequences GenerateOptions.SystemPrompt].
  all: repeat (split; [now auto|]).
  all: intros text v Hin; simpl in Hin; ask_members; split; eauto.
Qed.

Lemma Ask_grounded_witness :
  exists prompt opts,
    In (EvGenerate prompt opts (inl "The answer."))
       (trace (snd (Ask (Scenario.demoApp "safe" true [Scenario.demoDoc]) "q"
                        f64_zero Scenario.store0)))
    /\ prompt = prompt.BuildRAGPrompt "q" [Scenario.demoDoc]
    /\ GenerateOptions.MaxTokens opts = 512
    /\ GenerateOptions.SystemPrompt opts = prompt.getDefaultSystemPrompt.
Proof.
  destruct (Ask_grounded (Scenario.demoApp "safe" true [Scenario.demoDoc]) "q"
              f64_zero Scenario.store0 _ _ eq_refl) as (tr & Htr & Hgen).
  cbn in Htr. subst tr.
  match type of Hgen with
  | context [EvGenerate ?P ?O (inl ?R)] =>
      destruct (Hgen P O (inl R)) as (_ & _ & Hmax & _ & Hsys & _);
        [simpl; tauto|]; exists P, O
  end.
  split; [simpl; tauto|]. split; [reflexivity|].
  split; [exact Hmax | exact Hsys].
Defined.

(** ** The guard *)

Section GuardFacts.

Import safety.

Lemma parseResponse_IsSafe (r : string) :
  SafetyResult.IsSafe (parseResponse r) = true
  <-> equalFold (TrimSpace r) "safe".
Proof.
  destruct (String.eqb (ToLower (TrimSpace r)) "safe") eqn:E.
  - rewrite (parseResponse_safe r E). split; [intros _|reflexivity].
    apply ToLower_equalFold. now apply String.eqb_eq in E.
  - rewrite (parseResponse_not_safe r E). split; [discriminate|].
    intros Hf. apply ToLower_equalFold in Hf. apply String.eqb_neq in E.
    now elim E.
Qed.

(** The verdict of [parseResponse] for the word safe. *)
Lemma parseResponse_equalFold (r : string) :
  equalFold (TrimSpace r) "safe" ->
  parseResponse r = SafetyResult.mk true "" "" f64_zero.
Proof.
  intros Hf. apply parseResponse_safe, String.eqb_eq.
  now apply ToLower_equalFold in Hf.
Qed.

Context {W : Type}.
Variables (g : Guard W) (text : string) (w : W).
Hypothesis Hon : enabled g = true.

Lemma CheckInput_on :
  CheckInput g text w
  = match Generate (client g) (buildInputPrompt text) guardOptions w with
    | (inr err, w') => (inr (Errorf "failed to check input safety" err), w')
    | (inl response, w') => (inl (parseResponse response), w')
    end.
Proof.
  unfold CheckInput. rewrite Hon. cbn [negb].
  now destruct (Generate (client g) (buildInputPrompt text) guardOptions w)
    as [[response|err] w'].
Qed.

Lemma CheckOutput_on :
  CheckOutput g text w
  = match Generate (client g) (buildOutputPrompt text) guardOptions w with
    | (inr err, w') => (inr (Errorf "failed to check output safety" err), w')
    | (inl response, w') => (inl (parseResponse response), w')
    end.
Proof.
  unfold CheckOutput. rewrite Hon. cbn [negb].
  now destruct (Generate (client g) (buildOutputPrompt text) guardOptions w)
    as [[response|err] w'].
Qed.

(** A safe verdict of the enabled guard comes from the word safe. *)
Lemma CheckInput_safe (v : SafetyResult.t) (w' : W) :
  CheckInput g text w = (inl v, w') -> SafetyResult.IsSafe v = true ->
  exists reply,
    Generate (client g) (buildInputPrompt text) guardOptions w
    = (inl reply, w')
    /\ equalFold (TrimSpace reply) "safe".
Proof.
  rewrite CheckInput_on.
  destruct (Generate (client g) (buildInputPrompt text) guardOptions w)
    as [[reply|err] w1]; [|discriminate].
  intros [= <- <-] Hs. exists reply. split; [reflexivity|].
  now apply parseResponse_IsSafe.
Qed.

Lemma CheckOutput_safe (v : SafetyResult.t) (w' : W) :
  CheckOutput g text w = (inl v, w') -> SafetyResult.IsSafe v = true ->
  exists reply,
    Generate (client g) (buildOutputPrompt text) guardOptions w
    = (inl reply, w')
    /\ equalFold (TrimSpace reply) "safe".
Proof.
  rewrite CheckOutput_on.
  destruct (Generate (client g) (buildOutputPrompt text) guardOptions w)
    as [[reply|err] w1]; [|discriminate].
  intros [= <- <-] Hs. exists reply. split; [reflexivity|].
  now apply parseResponse_IsSafe.
Qed.

End GuardFacts.



(** X12. Over an enabled guard, [Ask] releases an answer with sources
    only when the guard model has replied the word safe twice: to the
    input prompt of the question, in the world of the call, and to the
    output prompt of the very answer that is returned. *)
Theorem Ask_guarded {W : Type} (a : App W) (c : types.LLMClient W)
    (question : string) (temperature : float64) (s s' : Store W)
    (ans : string) (srcs : list Source.t) :
  SafetyGate a = safety.asSafetyGate (safety.NewGuard c true) ->
  Ask a question temperature s = ((ans, Some srcs, None), s') ->
  exists reply_in w1 reply_out w2,
    Generate c (safety.buildInputPrompt question) safety.guardOptions
             (world s) = (inl reply_in, w1)
    /\ equalFold (TrimSpace reply_in) "safe"
    /\ Generate c (safety.buildOutputPrompt ans) safety.guardOptions w2
       = (inl reply_out, world s')
    /\ equalFold (TrimSpace reply_out) "safe".
Proof.
  intros Hg H. destruct s as [w0 b0 tr0]. ask_cases H.
  all: repeat match goal with
              | E : IsEnabled (SafetyGate _) _ = _ |- _ =>
                  rewrite Hg in E; cbn in E; try discriminate E; clear E
              end.
  match goal with
  | E1 : CheckInput _ _ _ = (inl ?v1, _), S1 : SafetyResult.IsSafe ?v1 = true,
    E2 : CheckOutput _ _ _ = (inl ?v2, _), S2 : SafetyResult.IsSafe ?v2 = true
    |- _ =>
      rewrite Hg in E1, E2;
      cbn [types.CheckInput types.CheckOutput safety.asSafetyGate] in E1, E2;
      apply CheckInput_safe in E1 as (r1 & G1 & F1); [|reflexivity | exact S1];
      apply CheckOutput_safe in E2 as (r2 & G2 & F2); [|reflexivity | exact S2]
  end.
  cbn [world safety.client] in *. eauto 10.
Qed.

Lemma Ask_guarded_witness :
  exists reply_in reply_out,
    Generate (Scenario.constClient "safe") (safety.buildInputPrompt "q")
             safety.guardOptions tt = (inl reply_in, tt)
    /\ equalFold (TrimSpace reply_in) "safe"
    /\ Generate (Scenario.constClient "safe")
                (safety.buildOutputPrompt "The answer.") safety.guardOptions tt
       = (inl reply_out, tt)
    /\ equalFold (TrimSpace reply_out) "safe".
Proof.
  destruct (Ask_guarded (Scenario.demoApp "safe" true [Scenario.demoDoc])
              (Scenario.constClient "safe") "q" f64_zero Scenario.store0 _
              "The answer." [toSource Scenario.demoDoc] eq_refl eq_refl)
    as (r1 & w1 & r2 & w2 & H1 & H2 & H3 & H4).
  destruct w1, w2. exists r1, r2. auto.
Defined.

(** ** The refusal message *)

Section RefusalFacts.

Import safety.

Lemma parseResponse_reason (r : string) :
  In (SafetyResult.Category (parseResponse r)) knownCodes ->
  SafetyResult.Reason (parseResponse r)
  = describe (SafetyResult.Category (parseResponse r)).
Proof.
  assert (Hno : ~ In "" knownCodes).
  { simpl. intros H. repeat destruct H as [H|H]; try discriminate H.
    exact H. }
  destruct (String.eqb (ToLower (TrimSpace r)) "safe") eqn:E.
  { rewrite (parseResponse_safe r E). intros H. now elim Hno. }
  destruct (FindStringSubmatch_shape (TrimSpace r)) as [Em|(m & g & Em)].
  - rewrite (parseResponse_nomatch r E Em). intros H. now elim Hno.
  - rewrite (parseResponse_match r m g E Em).
    destruct (String.eqb g ""); [intros H; now elim Hno | reflexivity].
Qed.

Lemma knownCodes_nonempty (c : string) : In c knownCodes -> c <> "".
Proof.
  intros H ->. simpl in H. repeat destruct H as [H|H]; try discriminate H.
  exact H.
Qed.

End RefusalFacts.

(** X13. The refusal for the verdict that [parseResponse] gives to a
    reply names the category and quotes the reason of the verdict when
    the category is one of the table; for every other verdict (no
    category, a code that the table does not have, a reply that cannot
    be read) it is the plain sentence, without a category. *)
Theorem refusal_of_verdict (r : string) :
  let v := safety.parseResponse r in
  (In (SafetyResult.Category v) knownCodes ->
   safety.GetRefusalMessage (SafetyResult.Category v)
   = "I can't provide assistance with that request as it may violate content safety guidelines (category: "
     +:+ SafetyResult.Category v +:+ " - " +:+ SafetyResult.Reason v +:+ ").")
  /\ (~ In (SafetyResult.Category v) knownCodes ->
      safety.GetRefusalMessage (SafetyResult.Category v)
      = "I can't provide assistance with that request as it may violate content safety guidelines.").
Proof.
  intros v. split; intros H.
  - unfold v at 3. rewrite (parseResponse_reason r H). fold v.
    unfold safety.GetRefusalMessage.
    pose proof (knownCodes_nonempty _ H) as Hne.
    apply String.eqb_neq in Hne. rewrite Hne.
    destruct (describe_known (SafetyResult.Category v)) as [Hk _].
    now rewrite (Hk H).
  - unfold safety.GetRefusalMessage.
    destruct (String.eqb (SafetyResult.Category v) ""); [reflexivity|].
    destruct (SafetyCategories !! SafetyResult.Category v) as [d|] eqn:Hd;
      [|reflexivity].
    exfalso. apply H, SafetyCategories_codes. eauto.
Qed.

Lemma refusal_of_verdict_witness :
  safety.GetRefusalMessage
    (SafetyResult.Category (safety.parseResponse "UNSAFE s3"))
  = "I can't provide assistance with that request as it may violate content safety guidelines (category: S3 - Sex Crimes)."
  /\ safety.GetRefusalMessage
       (SafetyResult.Category (safety.parseResponse "unsafe S99"))
     = "I can't provide assistance with that request as it may violate content safety guidelines.".
Proof.
  split.
  - apply (proj1 (refusal_of_verdict "UNSAFE s3")). simpl. tauto.
  - apply (proj2 (refusal_of_verdict "unsafe S99")). simpl.
    intros H. repeat destruct H as [H|H]; try discriminate H. exact H.
Defined.

(** X14. [BuildSystemPrompt] keeps the path of the builder.  A prompt
    that it returns is held by the builder afterwards, and when it is not
    empty every later call returns it without reading a file, leaving the
    builder as it is.  An empty prompt, which only an empty file gives,
    is not kept: the next call reads the file again, and fails if the
    file then cannot be read.  A failed call leaves the builder as it
    was. *)
Theorem BuildSystemPrompt_cached {W : Type}
    (ReadFile : string -> W -> result string * W) (b b' : prompt.Builder)
    (w w' : W) (r : result string) :
  prompt.BuildSystemPrompt ReadFile b w = (r, b', w') ->
  prompt.systemPromptPath b' = prompt.systemPromptPath b
  /\ (forall p, r = inl p ->
        prompt.systemPrompt b' = p
        /\ (p <> "" ->
            forall (ReadFile2 : string -> W -> result string * W) (w2 : W),
              prompt.BuildSystemPrompt ReadFile2 b' w2 = (inl p, b', w2))
        /\ (p = "" ->
            forall (e : error) (w2 : W),
              prompt.BuildSystemPrompt (fun _ w => (inr e, w)) b' w2
              = (inr (Errorf "failed to read system prompt file" e), b', w2)))
  /\ (forall e, r = inr e -> b' = b /\ prompt.systemPrompt b = "").
Proof.
  intros H.
  assert (Hkeep : forall p, prompt.systemPrompt b' = p -> p <> "" ->
            forall (ReadFile2 : string -> W -> result string * W) (w2 : W),
              prompt.BuildSystemPrompt ReadFile2 b' w2 = (inl p, b', w2)).
  { intros p <- Hne rf2 w2. unfold prompt.BuildSystemPrompt.
    apply String.eqb_neq in Hne. now rewrite Hne. }
  unfold prompt.BuildSystemPrompt in H.
  destruct (String.eqb (prompt.systemPrompt b) "") eqn:Hc; cbn [negb] in H.
  - apply String.eqb_eq in Hc.
    destruct (String.eqb (prompt.systemPromptPath b) "") eqn:Hp;
      cbn [negb] in H.
    + injection H as <- <- <-. split; [reflexivity|]. split; [|discriminate].
      intros p [= <-]. split; [reflexivity|]. split; [now apply Hkeep|].
      discriminate.
    + destruct (ReadFile (prompt.systemPromptPath b) w) as [[content|e] w1];
        injection H as <- <- <-; (split; [reflexivity|]); split;
        try discriminate.
      * intros p [= <-]. split; [reflexivity|]. split; [now apply Hkeep|].
        intros -> e w2. unfold prompt.BuildSystemPrompt.
        cbn [prompt.systemPrompt prompt.systemPromptPath String.eqb negb].
        now rewrite Hp.
      * intros e0 _. now split.
  - injection H as <- <- <-. split; [reflexivity|]. split; [|discriminate].
    intros p [= <-]. split; [reflexivity|]. split; [now apply Hkeep|].
    intros E. rewrite E in Hc. discriminate Hc.
Qed.

Lemma BuildSystemPrompt_cached_witness :
  prompt.BuildSystemPrompt (fun _ (w : unit) => (inr "file is gone", w))
    (prompt.mkBuilder "prompt.md" "You are a test assistant.") tt
  = (inl "You are a test assistant.",
     prompt.mkBuilder "prompt.md" "You are a test assistant.", tt).
Proof.
  destruct (BuildSystemPrompt_cached
              (fun _ (w : unit) => (inl "You are a test assistant.", w))
              (prompt.NewBuilder "prompt.md") _ tt tt _ eq_refl)
    as (_ & Hok & _).
  destruct (Hok _ eq_refl) as (_ & Hkeep & _). apply Hkeep. discriminate.
Defined.

(** ** The prompt and the formatted answer *)

Section PromptFacts.

Lemma ragSources_app (i : Z) (l1 l2 : list Document.t) :
  prompt.ragSources i (l1 ++ l2)
  = prompt.ragSources i l1
    +:+ prompt.ragSources (i + Z.of_nat (length l1)) l2.
Proof.
  revert i; induction l1 as [|d l1 IH]; intros i.
  - simpl. now rewrite Z.add_0_r.
  - cbn [app prompt.ragSources length]. rewrite IH, !append_assoc.
    replace (i + 1 + Z.of_nat (length l1)) with (i + Z.of_nat (S (length l1)))
      by lia.
    reflexivity.
Qed.

Variable fmtFloat1 : float64 -> string.

Lemma formatSources_app (i : Z) (l1 l2 : list Document.t) :
  prompt.formatSources fmtFloat1 i (l1 ++ l2)
  = prompt.formatSources fmtFloat1 i l1
    +:+ prompt.formatSources fmtFloat1 (i + Z.of_nat (length l1)) l2.
Proof.
  revert i; induction l1 as [|d l1 IH]; intros i.
  - simpl. now rewrite Z.add_0_r.
  - cbn [app prompt.formatSources length]. rewrite IH, !append_assoc.
    replace (i + 1 + Z.of_nat (length l1)) with (i + Z.of_nat (S (length l1)))
      by lia.
    reflexivity.
Qed.

(** The formatter and the command line title a source alike. *)
Lemma getSourceTitle_toSource (d : Document.t) :
  cli.getSourceTitle (toSource d)
  = match prompt.titleOrPath d with
    | Some t => t
    | None => "Document " +:+ Document.ID d
    end.
Proof.
  unfold cli.getSourceTitle, prompt.titleOrPath, toSource.
  cbn [Source.Metadata Source.ID].
  destruct (Document.Metadata d !! "title") as [[[|c t]| | | |]|];
    try reflexivity.
  all: destruct (Document.Metadata d !! "path") as [[[|c' p]| | | |]|];
    reflexivity.
Qed.

End PromptFacts.

(** X15. The RAG prompt puts the context before the question.  The
    question line is in every prompt, with nothing before it when no
    document was retrieved; a document at position [i], counted from 1,
    is in the part before the question: its heading with the number [i]
    and its title or path, then its content, whole. *)
Theorem BuildRAGPrompt_contents (query : string)
    (context : list Document.t) :
  exists pre post,
    prompt.BuildRAGPrompt query context
    = pre +:+ "Question: " +:+ query +:+ nl +:+ nl +:+ post
    /\ (context = [] -> pre = "")
    /\ forall l1 d l2, context = l1 ++ d :: l2 ->
         Contains pre
           ("### Source " +:+ prompt.itoa (Z.of_nat (length l1) + 1)
            +:+ match prompt.titleOrPath d with
                | Some t => " - " +:+ t
                | None => ""
                end
            +:+ ":" +:+ nl +:+ Document.Content d +:+ nl +:+ nl).
Proof.
  unfold prompt.BuildRAGPrompt. destruct context as [|d0 ds].
  - change (0 <? Z.of_nat (length (@nil Document.t))) with false. cbv iota.
    exists "".
    exists ("Please answer this question about OpenShift Bare Metal operations. "
            +:+ "Provide detailed, practical guidance where possible.").
    split; [|split; [reflexivity|]].
    + unfold nl. now rewrite !append_assoc.
    + intros l1 d l2 E. now destruct l1.
  - change (0 <? Z.of_nat (length (d0 :: ds))) with true. cbv iota.
    set (pre := _ +:+ prompt.ragSources 0 (d0 :: ds) +:+ _).
    exists pre.
    exists ("Please answer the question based on the provided context. "
            +:+ "If the context doesn't contain relevant information, say so clearly. "
            +:+ "Be specific and reference the sources when possible.").
    split; [|split; [discriminate|]].
    + unfold nl. now rewrite !append_assoc.
    + intros l1 d l2 E. subst pre. rewrite E, ragSources_app.
      cbn [prompt.ragSources Z.add].
      set (A := prompt.ragSources 0 l1).
      set (B := prompt.ragSources _ l2).
      exists ("Based on the following context from the documentation:"
              +:+ nl +:+ nl +:+ A).
      exists (B +:+ "---" +:+ nl +:+ nl).
      unfold nl. now rewrite !append_assoc.
Qed.

Lemma BuildRAGPrompt_contents_witness :
  exists pre post,
    prompt.BuildRAGPrompt "q" [Scenario.demoDoc]
    = pre +:+ "Question: " +:+ "q" +:+ nl +:+ nl +:+ post
    /\ Contains pre
         ("### Source 1 - Guide:" +:+ nl +:+ "Some content." +:+ nl +:+ nl).
Proof.
  destruct (BuildRAGPrompt_contents "q" [Scenario.demoDoc])
    as (pre & post & H1 & _ & H3).
  exists pre, post. split; [exact H1|].
  exact (H3 [] Scenario.demoDoc [] eq_refl).
Defined.

Section TrimTwice.

Lemma TrimRight_blank_tail (s : string) :
  exists q, s = TrimRight s +:+ q /\ allSpace q = true.
Proof.
  induction s as [|c s (q & Hq & Hb)]; [now exists ""|].
  rewrite TrimRight_cons.
  destruct (allSpace (String c s)) eqn:E; [now exists (String c s)|].
  exists q. split; [|exact Hb]. simpl. now rewrite <- Hq.
Qed.

Lemma allSpace_go_app (x q : string) (k : nat) :
  (k <= String.length x)%nat -> allSpace_go k x = true ->
  allSpace q = true -> allSpace_go k (x +:+ q) = true.
Proof.
  revert k; induction x as [|c x IH]; intros k Hk Hx Hq.
  - simpl in Hk. assert (k = 0%nat) as -> by lia. exact Hq.
  - change (String c x +:+ q) with (String c (x +:+ q)).
    destruct k as [|k]; [|simpl in *; apply IH; [lia | exact Hx | exact Hq]].
    change (allSpace_go 0 (String c x))
      with (match spaceWidth (String c x) with
            | O => false
            | S j => allSpace_go j x
            end) in Hx.
    change (allSpace_go 0 (String c (x +:+ q)))
      with (match spaceWidth (String c x +:+ q) with
            | O => false
            | S j => allSpace_go j (x +:+ q)
            end).
    pose proof (spaceWidth_le (String c x)) as Hle.
    destruct (spaceWidth (String c x)) as [|j] eqn:Hsw; [discriminate|].
    rewrite (spaceWidth_prefix _ _ _ Hsw). simpl in Hle.
    apply IH; [lia | exact Hx | exact Hq].
Qed.

Lemma TrimRight_idem (s : string) : TrimRight (TrimRight s) = TrimRight s.
Proof.
  induction s as [|c s IH]; [reflexivity|]. rewrite TrimRight_cons.
  destruct (allSpace (String c s)) eqn:E; [reflexivity|].
  rewrite TrimRight_cons, IH.
  destruct (allSpace (String c (TrimRight s))) eqn:E'; [|reflexivity].
  destruct (TrimRight_blank_tail s) as (q & Hq & Hb).
  pose proof (allSpace_go_app (String c (TrimRight s)) q 0
                ltac:(simpl; lia) E' Hb) as H.
  change (String c (TrimRight s) +:+ q) with (String c (TrimRight s +:+ q)) in H.
  rewrite <- Hq in H. unfold allSpace in E. congruence.
Qed.

(** Trimming a trimmed text changes nothing. *)
Lemma TrimSpace_idem (s : string) : TrimSpace (TrimSpace s) = TrimSpace s.
Proof.
  unfold TrimSpace, TrimLeft.
  destruct (TrimLeft_go_head s 0) as [[E _]|[Hne Hw]].
  { now rewrite E. }
  set (t := TrimLeft_go 0 s) in *.
  assert (Hl : TrimLeft_go 0 (TrimRight t) = TrimRight t).
  { apply TrimLeft_head.
    destruct (TrimRight_blank_tail t) as (q & Hq & _).
    destruct (spaceWidth (TrimRight t)) as [|k] eqn:Hk; [reflexivity|].
    apply (spaceWidth_prefix _ q) in Hk. rewrite <- Hq in Hk. congruence. }
  rewrite Hl. apply TrimRight_idem.
Qed.

End TrimTwice.

(** X16. With at least one source, the formatted answer is the trimmed
    response, the heading of the sources and one line for each source;
    white space around the response makes no difference.  The line of the
    source at position [i], counted from 1, is the number [i] in
    brackets, the title that the command line prints for the source, the
    relevance when the score is greater than zero, and a line feed. *)
Theorem FormatResponse_sources (fmtFloat1 : float64 -> string)
    (response : string) (sources : list Document.t) :
  sources <> [] ->
  exists body,
    prompt.FormatResponse fmtFloat1 response sources
    = TrimSpace response +:+ nl +:+ nl +:+ "**Sources:**" +:+ nl +:+ body
    /\ prompt.FormatResponse fmtFloat1 (TrimSpace response) sources
       = prompt.FormatResponse fmtFloat1 response sources
    /\ forall l1 d l2, sources = l1 ++ d :: l2 ->
         Contains body
           ("[" +:+ prompt.itoa (Z.of_nat (length l1) + 1) +:+ "] "
            +:+ cli.getSourceTitle (toSource d)
            +:+ (if f64_ltb f64_zero (Document.Score d) then
                   " (relevance: "
                   +:+ fmtFloat1 (f64_mul (Document.Score d) f64_100) +:+ "%)"
                 else "")
            +:+ nl).
Proof.
  intros Hne. exists (prompt.formatSources fmtFloat1 0 sources).
  unfold prompt.FormatResponse. destruct sources as [|d0 ds]; [congruence|].
  change (Z.of_nat (length (d0 :: ds)) =? 0) with false. cbv iota.
  split; [unfold nl; now rewrite !append_assoc|].
  split; [now rewrite TrimSpace_idem|].
  intros l1 d l2 E. rewrite E, formatSources_app.
  cbn [prompt.formatSources Z.add]. rewrite getSourceTitle_toSource.
  exists (prompt.formatSources fmtFloat1 0 l1).
  exists (prompt.formatSources fmtFloat1
            (Z.of_nat (length l1) + 1) l2).
  f_equal. unfold nl.
  destruct (prompt.titleOrPath d) as [t|]; now rewrite !append_assoc.
Qed.

Lemma FormatResponse_sources_witness :
  exists body,
    prompt.FormatResponse (fun _ => "75.0") "  The answer. "
      [Scenario.demoDoc]
    = "The answer." +:+ nl +:+ nl +:+ "**Sources:**" +:+ nl +:+ body
    /\ Contains body ("[1] Guide (relevance: 75.0%)" +:+ nl).
Proof.
  destruct (FormatResponse_sources (fun _ => "75.0") "  The answer. "
              [Scenario.demoDoc]) as (body & H1 & _ & H3); [discriminate|].
  exists body. split; [exact H1|].
  exact (H3 [] Scenario.demoDoc [] eq_refl).
Defined.

(** ** The number of chunks, and their overlap *)

Section CountFacts.

Lemma layout_count (L : list (list string * list string)) :
  Forall (fun p => snd p <> []) L ->
  (length L <= length (concat (map snd L)))%nat.
Proof.
  induction 1 as [|p L Hp _ IH]; [apply Nat.le_refl|].
  cbn [map concat length]. rewrite length_app.
  destruct (snd p); [congruence | simpl; lia].
Qed.

Lemma Join_prefix_length (a b : list string) :
  (String.length (Join a " ") <= String.length (Join (a ++ b) " "))%nat.
Proof.
  destruct a as [|x a]; [simpl; lia|].
  destruct b as [|y b]; [rewrite app_nil_r; apply Nat.le_refl|].
  rewrite Join_app by discriminate. rewrite length_append. lia.
Qed.

Variables maxChars overlapChars : Z.

(** While the joined words keep to [maxChars] no chunk is closed. *)
Lemma chunkLoop_fits (todo done : list string) :
  done <> [] -> Forall Word (done ++ todo) ->
  len (Join (done ++ todo) " ") <= maxChars ->
  chunkLoop maxChars overlapChars todo ([], Join done " ")
  = Some ([], Join (done ++ todo) " ").
Proof.
  revert done; induction todo as [|w todo IH]; intros done Hne Hw Hlen.
  - now rewrite app_nil_r.
  - replace (done ++ w :: todo) with ((done ++ [w]) ++ todo) in *
      by now rewrite <- app_assoc.
    assert (Hd : Forall Word done).
    { apply Forall_app in Hw as [Hw _]. now apply Forall_app in Hw as [? _]. }
    destruct (Join_head done Hne Hd) as [Hcur _].
    apply String.eqb_neq in Hcur.
    cbn [chunkLoop]. unfold chunkStep. rewrite Hcur. cbn [negb].
    rewrite append_assoc.
    change (" " +:+ w) with (String " " w). rewrite <- (Join_snoc done w Hne).
    pose proof (Join_prefix_length (done ++ [w]) todo) as Hp.
    assert (Hfit : (len (Join (done ++ [w]) " ") >? maxChars) = false).
    { rewrite Z.gtb_ltb. apply Z.ltb_ge. unfold len in *. lia. }
    rewrite Hfit. cbn [andb]. apply IH; [now destruct done | exact Hw | exact Hlen].
Qed.

Lemma overlapping_nil (c : string) : ~ overlapping c "".
Proof.
  intros (ov & q & rest & Hne & _ & E). destruct ov; [congruence | discriminate].
Qed.

Lemma overlapping_grow (c cur w : string) :
  overlapping c cur -> overlapping c ((cur +:+ " ") +:+ w).
Proof.
  intros (ov & q & rest & Hne & E1 & E2).
  exists ov, q, (rest +:+ " " +:+ w). split; [exact Hne|]. split; [exact E1|].
  rewrite E2. now rewrite !append_assoc.
Qed.

Lemma linked_last (l : list string) (a b : string) :
  linked (l ++ [a]) -> (forall c, overlapping c a -> overlapping c b) ->
  linked (l ++ [b]).
Proof.
  intros H Hab. induction l as [|c l IH]; [exact I|].
  destruct l as [|c' l].
  - cbn in *. destruct H as [H _]. split; [now apply Hab | exact I].
  - cbn [app linked] in *. destruct H as [H1 H2]. split; [exact H1|].
    now apply IH.
Qed.

Lemma linked_snoc (l : list string) (a b : string) :
  linked (l ++ [a]) -> overlapping a b -> linked ((l ++ [a]) ++ [b]).
Proof.
  intros H Hab. induction l as [|c l IH]; [cbn; now split|].
  destruct l as [|c' l].
  - cbn in *. destruct H as [H _]. now repeat split.
  - cbn [app linked] in *. destruct H as [H1 H2]. split; [exact H1|].
    now apply IH.
Qed.

(** The chunk under construction is words joined by single spaces. *)
Lemma chunkInv_cur (done : list string) (st : list string * string) :
  chunkInv overlapChars done st -> Forall Word done -> snd st <> "" ->
  exists ws, ws <> [] /\ Forall Word ws /\ snd st = Join ws " ".
Proof.
  intros [[_ ->]|(L & seed & seg & _ & Hcur & Hdone & Hseg & _ & Hc)] Hw Hne;
    [now elim Hne|].
  assert (Hsd : Forall Word seed).
  { apply chained_seeds in Hc. apply Forall_app in Hc as [_ Hc].
    now inversion Hc. }
  assert (Hsg : Forall Word seg).
  { rewrite Hdone in Hw. now apply Forall_app in Hw as [_ ?]. }
  destruct (render_words seed seg Hseg Hsd Hsg) as [Hne1 Hall].
  exists (seed ++ seg). now repeat split.
Qed.

Hypothesis Hoc : 0 < overlapChars.

Lemma chunkStep_linked (done : list string) (st st' : list string * string)
    (w : string) :
  chunkInv overlapChars done st -> Forall Word done ->
  linked (fst st ++ [snd st]) ->
  chunkStep maxChars overlapChars st w = Some st' ->
  linked (fst st' ++ [snd st']).
Proof.
  intros Hinv Hdone Hl.
  pose proof (chunkInv_cur done st Hinv Hdone) as Hcur.
  destruct st as [chunks cur]. cbn [fst snd] in *. unfold chunkStep.
  destruct (String.eqb cur "") eqn:Heq; cbn [negb].
  - apply String.eqb_eq in Heq as ->. rewrite andb_false_r.
    intros [= <-]. cbn [fst snd]. apply (linked_last chunks "" _ Hl).
    intros c Hc. now apply overlapping_nil in Hc.
  - apply String.eqb_neq in Heq. rewrite andb_true_r.
    destruct (Hcur Heq) as (ws & Hne & Hws & E).
    destruct (len ((cur +:+ " ") +:+ w) >? maxChars).
    + assert (Htrim : TrimSpace cur = cur).
      { rewrite E. now apply TrimSpace_Join. }
      rewrite Htrim.
      assert (Hlen : (Z.of_nat (length (chunks ++ [cur])) >? 0) = true).
      { rewrite length_app. simpl. apply Z.gtb_lt. lia. }
      assert (Hpos : (overlapChars >? 0) = true) by (apply Z.gtb_lt; lia).
      rewrite Hlen, Hpos. cbn [andb].
      destruct (getOverlapText_Join ws overlapChars Hne Hws Hoc)
        as (ws' & q & Hne' & Hws' & Hov & Hq & _).
      rewrite E, Hov. intros [= <-]. cbn [fst snd]. rewrite <- E.
      apply linked_snoc; [exact Hl|].
      exists (Join ws' " "), q, w. split; [now apply Join_head|].
      split; [now rewrite E | reflexivity].
    + intros [= <-]. cbn [fst snd]. apply (linked_last chunks cur _ Hl).
      intros c. apply overlapping_grow.
Qed.

Lemma chunkLoop_linked (todo done : list string)
    (st st' : list string * string) :
  chunkInv overlapChars done st -> Forall Word (done ++ todo) ->
  linked (fst st ++ [snd st]) ->
  chunkLoop maxChars overlapChars todo st = Some st' ->
  linked (fst st' ++ [snd st']).
Proof.
  revert done st; induction todo as [|w todo IH]; intros done st Hinv Hw Hl.
  - now intros [= <-].
  - assert (Hd : Forall Word done) by now apply Forall_app in Hw as [? _].
    assert (Hww : Word w).
    { apply Forall_app in Hw as [_ Hw]. now inversion Hw. }
    destruct (chunkStep_inv maxChars overlapChars done st w Hinv Hd Hww)
      as (st1 & Hstep & Hinv1).
    simpl. rewrite Hstep.
    pose proof (chunkStep_linked done st st1 w Hinv Hd Hl Hstep) as Hl1.
    replace (done ++ w :: todo) with ((done ++ [w]) ++ todo) in *
      by now rewrite <- app_assoc.
    now apply (IH (done ++ [w])).
Qed.

End CountFacts.

(** X17. [chunkText] returns no more chunks than the text has words; and
    a text whose words, joined by single spaces, keep to [maxChars] bytes
    gives exactly one chunk, these words joined. *)
Theorem chunkText_count (text : string) (maxTokens overlap : Z) :
  exists chunks,
    chunkText text maxTokens overlap = Some chunks
    /\ (length chunks <= length (Fields text))%nat
    /\ (Fields text <> [] ->
        len (Join (Fields text) " ") <= wrap64 (maxTokens * 4) ->
        chunks = [Join (Fields text) " "]).
Proof.
  destruct (chunkText_layout text maxTokens overlap)
    as (L & Hrun & Hcat & Hseg & _).
  exists (map render L). split; [exact Hrun|]. split.
  - rewrite length_map, <- Hcat. now apply layout_count.
  - intros Hne Hfit. pose proof (Fields_words text) as Hw.
    unfold chunkText in Hrun.
    destruct (Fields text) as [|w ws] eqn:Ef; [congruence|].
    cbn [length Nat.eqb chunkLoop] in Hrun. unfold chunkStep in Hrun.
    cbn [String.eqb negb andb] in Hrun. rewrite andb_false_r in Hrun.
    change ("" +:+ w) with w in Hrun.
    pose proof (chunkLoop_fits (wrap64 (maxTokens * 4))
                  (wrap64 (overlap * 4)) ws [w] ltac:(discriminate) Hw Hfit)
      as Hloop.
    change (Join [w] " ") with w in Hloop. cbn [app] in Hloop.
    rewrite Hloop in Hrun.
    rewrite (TrimSpace_Join (w :: ws)) in Hrun by (discriminate || exact Hw).
    destruct (Join_head (w :: ws) ltac:(discriminate) Hw) as [Hj _].
    apply String.eqb_neq in Hj. rewrite Hj in Hrun. cbn [negb app] in Hrun.
    now injection Hrun.
Qed.

Lemma chunkText_count_witness :
  exists chunks,
    chunkText "  a   small
 note " 10 2 = Some chunks
    /\ chunks = ["a small note"].
Proof.
  destruct (chunkText_count "  a   small
 note " 10 2) as (chunks & H1 & _ & H3).
  exists chunks. split; [exact H1|].
  apply H3; [discriminate | now vm_compute].
Defined.

(** X18. With a positive overlap, every chunk of [chunkText] but the
    first starts with a text, not empty, that ends the chunk before it,
    followed by a space. *)
Theorem chunkText_overlap (text : string) (maxTokens overlap : Z) :
  0 < wrap64 (overlap * 4) ->
  exists chunks,
    chunkText text maxTokens overlap = Some chunks /\ linked chunks.
Proof.
  intros Hoc. unfold chunkText. pose proof (Fields_words text) as Hw.
  destruct (Fields text) as [|w ws] eqn:Ef.
  { exists []. now split. }
  cbn [length Nat.eqb].
  destruct (chunkLoop_inv (wrap64 (maxTokens * 4)) (wrap64 (overlap * 4))
              (w :: ws) [] ([], "")) as (st & Hloop & Hinv);
    [now left | exact Hw |].
  rewrite Hloop.
  pose proof (chunkLoop_linked (wrap64 (maxTokens * 4)) (wrap64 (overlap * 4))
                Hoc (w :: ws) [] ([], "") st
                (or_introl (conj eq_refl eq_refl)) Hw I Hloop) as Hl.
  destruct st as [chunks cur]. cbn [fst snd app] in *.
  assert (Hne : cur <> "").
  { destruct Hinv as [[E _]|(L & seed & seg & _ & Hcur & Hdone & Hseg & _ & Hc)];
      [discriminate E|].
    cbn [snd] in Hcur. rewrite Hcur.
    assert (Hsd : Forall Word seed).
    { apply chained_seeds in Hc. apply Forall_app in Hc as [_ Hc].
      now inversion Hc. }
    assert (Hsg : Forall Word seg).
    { rewrite Hdone in Hw. now apply Forall_app in Hw as [_ ?]. }
    destruct (render_words seed seg Hseg Hsd Hsg) as [Hne1 Hall].
    unfold render. now apply Join_head. }
  destruct (chunkInv_cur _ (w :: ws) (chunks, cur) Hinv Hw Hne)
    as (vs & Hv1 & Hv2 & E).
  cbn [snd] in E. rewrite E, TrimSpace_Join by assumption. rewrite <- E.
  apply String.eqb_neq in Hne. rewrite Hne. cbn [negb].
  exists (chunks ++ [cur]). now split.
Qed.

Lemma chunkText_overlap_witness :
  exists chunks,
    chunkText "the quick brown fox jumps over the lazy dog" 4 2 = Some chunks
    /\ linked chunks /\ (2 <= length chunks)%nat.
Proof.
  destruct (chunkText_overlap "the quick brown fox jumps over the lazy dog"
              4 2) as (chunks & H1 & H2); [reflexivity|].
  exists chunks. split; [exact H1|]. split; [exact H2|].
  vm_compute in H1. injection H1 as <-. simpl. lia.
Defined.

(** ** The system prompt across questions *)

Section PromptKept.

Context {W : Type}.

Lemma BuildSystemPrompt_held (ReadFile : string -> W -> result string * W)
    (b : prompt.Builder) (w : W) :
  prompt.systemPrompt b <> "" ->
  prompt.BuildSystemPrompt ReadFile b w = (inl (prompt.systemPrompt b), b, w).
Proof.
  intros Hne. unfold prompt.BuildSystemPrompt.
  apply String.eqb_neq in Hne. now rewrite Hne.
Qed.

End PromptKept.

Ltac ask_goal_step :=
  match goal with
  | |- context [IsEnabled ?g ?w] => destruct (IsEnabled g w)
  | |- context [CheckInput ?g ?q ?w] =>
      destruct (CheckInput g q w) as [[?|?] ?]
  | |- context [Search ?r ?q ?k ?w] =>
      destruct (Search r q k w) as [[?|?] ?]
  | |- context [Generate ?c ?p ?o ?w] =>
      destruct (Generate c p o w) as [[?|?] ?]
  | |- context [CheckOutput ?g ?q ?w] =>
      destruct (CheckOutput g q w) as [[?|?] ?]
  | |- context [negb (SafetyResult.IsSafe ?r)] =>
      destruct (SafetyResult.IsSafe r); cbn [negb]
  end;
  cbv beta iota zeta
      delta [Ask run bind checkInputGate checkOutputGate call isEnabled
             buildSystemPrompt pure return_ fst snd world PromptBuilder trace].

(** X19. Once the builder holds a system prompt that is not empty, [Ask]
    reads no prompt file: its result and its store are the same whatever
    reading a file would give, the builder is left as it is, and every
    call of the generator gets the prompt that the builder holds. *)
Theorem Ask_prompt_kept {W : Type} (a : App W) (question : string)
    (temperature : float64) (s s' : Store W) (ans : Answer) :
  prompt.systemPrompt (PromptBuilder s) <> "" ->
  Ask a question temperature s = (ans, s') ->
  PromptBuilder s' = PromptBuilder s
  /\ (forall ReadFile2,
        Ask (mkApp (Config a) (LLMClient a) (SafetyGate a) (Retriever a)
                   ReadFile2) question temperature s = (ans, s'))
  /\ exists tr,
       trace s' = trace s ++ tr
       /\ forall prompt opts r, In (EvGenerate prompt opts r) tr ->
            GenerateOptions.SystemPrompt opts
            = prompt.systemPrompt (PromptBuilder s).
Proof.
  intros Hne H. destruct s as [w0 b0 tr0]. cbn [PromptBuilder trace] in *.
  split; [|split].
  - ask_cases H; cbn [PromptBuilder]; try reflexivity.
    all: match goal with
         | E : prompt.BuildSystemPrompt _ _ _ = _ |- _ =>
             rewrite (BuildSystemPrompt_held _ _ _ Hne) in E;
             first [ discriminate E | now injection E as <- <- <- ]
         end.
  - intros rf2. rewrite <- H. destruct a as [cfg llm gate ret rf].
    cbn [Config LLMClient SafetyGate Retriever].
    cbv beta iota zeta
        delta [Ask run bind checkInputGate checkOutputGate call isEnabled
               buildSystemPrompt pure return_ fst snd world PromptBuilder
               trace].
    cbn [Config LLMClient SafetyGate Retriever ReadFile].
    repeat (try reflexivity; ask_goal_step;
            cbn [Config LLMClient SafetyGate Retriever ReadFile];
            rewrite ?(BuildSystemPrompt_held _ _ _ Hne)).
  - ask_cases H; cbn [trace]; ask_trace.
    all: intros p opts r Hin; simpl in Hin; ask_members.
    all: match goal with
         | E : prompt.BuildSystemPrompt _ _ _ = _ |- _ =>
             rewrite (BuildSystemPrompt_held _ _ _ Hne) in E;
             first [ discriminate E | injection E as <- <- <- ]
         end.
    all: now destruct (f64_eqb temperature f64_zero).
Qed.

Lemma Ask_prompt_kept_witness :
  Ask (mkApp Scenario.demoConfig (Scenario.constClient "The answer.")
         (safety.asSafetyGate
            (safety.NewGuard (Scenario.constClient "safe") true))
         {| Search := fun _ _ w => (inl [Scenario.demoDoc], w) |}
         (fun _ w => (inl "Another prompt.", w)))
      "q" f64_zero
      (mkStore tt (prompt.mkBuilder "prompt.md" "You are a test assistant.") [])
  = Ask (Scenario.demoApp "safe" true [Scenario.demoDoc]) "q" f64_zero
      (mkStore tt (prompt.mkBuilder "prompt.md" "You are a test assistant.") []).
Proof.
  destruct (Ask_prompt_kept (Scenario.demoApp "safe" true [Scenario.demoDoc])
              "q" f64_zero
              (mkStore tt
                 (prompt.mkBuilder "prompt.md" "You are a test assistant.") [])
              _ _ ltac:(discriminate) eq_refl) as (_ & Hsame & _).
  exact (Hsame (fun _ w => (inl "Another prompt.", w))).
Defined.

(** ** The chat session *)

Section ChatFacts.

Context {W : Type}.
Variable fmtFloat3 : float64 -> string.
Variables (a : App W) (temperature : float64).

(** The calls of a run of [Ask] are about its question. *)
Lemma Ask_asked (question : string) (s s' : Store W) (ans : Answer) :
  Ask a question temperature s = (ans, s') ->
  exists tr,
    trace s' = trace s ++ tr
    /\ forall e q, In e tr -> asked e = Some q -> q = question.
Proof.
  intros H. destruct s as [w0 b0 tr0]. ask_cases H; cbn [trace]; ask_trace.
  all: intros ev q Hin Hq; simpl in Hin; ask_members; cbn [asked] in Hq;
    congruence.
Qed.

Lemma chatLoop_cons (line : string) (rest : list string) (s : Store W) :
  chat.chatLoop fmtFloat3 a temperature (line :: rest) s
  = if String.eqb (TrimSpace line) "" then
      ((nl +:+ " >")
       :: fst (chat.chatLoop fmtFloat3 a temperature rest s),
       snd (chat.chatLoop fmtFloat3 a temperature rest s))
    else if String.eqb (TrimSpace line) "exit"
            || String.eqb (TrimSpace line) "quit" then
      ([nl +:+ " >"; nl +:+ "👋 Goodbye!" +:+ nl], s)
    else
      let r := Ask a (TrimSpace line) temperature s in
      let next := chat.chatLoop fmtFloat3 a temperature rest (snd r) in
      ((nl +:+ " >") :: "ʕ•ᴥ•ʔ " :: chat.printAnswer fmtFloat3 (fst r)
                                   ++ fst next,
       snd next).
Proof.
  cbn [chat.chatLoop].
  destruct (String.eqb (TrimSpace line) "").
  { now destruct (chat.chatLoop fmtFloat3 a temperature rest s). }
  destruct (String.eqb (TrimSpace line) "exit"
            || String.eqb (TrimSpace line) "quit"); [reflexivity|].
  destruct (Ask a (TrimSpace line) temperature s) as [r s1]. cbn [fst snd].
  now destruct (chat.chatLoop fmtFloat3 a temperature rest s1).
Qed.

End ChatFacts.

(** X20. In a chat session every question that reaches the input check
    or the retriever is a line of the input with the white space around
    it removed; it is not empty and is not the word exit or quit. *)
Theorem chat_questions {W : Type} (fmtFloat3 : float64 -> string)
    (a : App W) (temperature : float64) (lines : list string)
    (s : Store W) :
  exists tr,
    trace (snd (chat.chatLoop fmtFloat3 a temperature lines s))
    = trace s ++ tr
    /\ forall e q, In e tr -> asked e = Some q ->
         q <> "" /\ TrimSpace q = q /\ q <> "exit" /\ q <> "quit"
         /\ exists line, In line lines /\ q = TrimSpace line.
Proof.
  revert s; induction lines as [|line rest IH]; intros s.
  { exists []. split; [now rewrite app_nil_r | intros e q []]. }
  rewrite chatLoop_cons.
  destruct (String.eqb (TrimSpace line) "") eqn:Hb.
  { cbn [snd]. destruct (IH s) as (tr & Htr & Hq). exists tr.
    split; [exact Htr|]. intros e q Hin Ha.
    destruct (Hq e q Hin Ha) as (H1 & H2 & H3 & H4 & l & Hl & El).
    repeat split; try assumption. exists l. split; [now right | exact El]. }
  destruct (String.eqb (TrimSpace line) "exit") eqn:He;
    [exists []; split; [now rewrite app_nil_r | intros e q []]|].
  destruct (String.eqb (TrimSpace line) "quit") eqn:Hq';
    [exists []; split; [now rewrite app_nil_r | intros e q []]|].
  cbn [orb]. cbv zeta. cbn [snd].
  destruct (Ask a (TrimSpace line) temperature s) as [r s1] eqn:Hask.
  destruct (Ask_asked a temperature _ _ _ _ Hask) as (tr1 & Htr1 & Hq1).
  destruct (IH s1) as (tr2 & Htr2 & Hq2). cbn [snd].
  exists (tr1 ++ tr2). split; [now rewrite Htr2, Htr1, app_assoc|].
  intros e q Hin Ha. apply in_app_or in Hin as [Hin|Hin].
  - rewrite (Hq1 e q Hin Ha).
    apply String.eqb_neq in Hb, He, Hq'.
    repeat split; try assumption; [apply TrimSpace_idem|].
    exists line. split; [now left | reflexivity].
  - destruct (Hq2 e q Hin Ha) as (H1 & H2 & H3 & H4 & l & Hl & El).
    repeat split; try assumption. exists l. split; [now right | exact El].
Qed.

(** X21. The chat session ends at a line that is the word exit or quit
    with white space around it: the lines after it are never read, so
    that what is printed and the store do not depend on them.  When only
    blank lines come before it, each of them gets a new prompt and
    nothing else, nothing is asked, and the session says goodbye. *)
Theorem chat_exit {W : Type} (fmtFloat3 : float64 -> string)
    (a : App W) (temperature : float64) (line : string)
    (rest : list string) :
  TrimSpace line = "exit" \/ TrimSpace line = "quit" ->
  (forall before s,
     chat.chatLoop fmtFloat3 a temperature (before ++ line :: rest) s
     = chat.chatLoop fmtFloat3 a temperature (before ++ [line]) s)
  /\ (forall blank s,
        Forall (fun l => allSpace l = true) blank ->
        chat.chatLoop fmtFloat3 a temperature (blank ++ line :: rest) s
        = (map (fun _ => nl +:+ " >") blank
           ++ [nl +:+ " >"; nl +:+ "👋 Goodbye!" +:+ nl], s)).
Proof.
  intros Hexit.
  assert (Hq : String.eqb (TrimSpace line) "" = false
               /\ String.eqb (TrimSpace line) "exit"
                  || String.eqb (TrimSpace line) "quit" = true).
  { destruct Hexit as [-> | ->]; now split. }
  destruct Hq as [Hq1 Hq2]. split.
  - induction before as [|l before IH]; intros s; cbn [app].
    + rewrite !chatLoop_cons. now rewrite Hq1, Hq2.
    + rewrite !chatLoop_cons. cbv zeta. rewrite !IH. reflexivity.
  - intros blank s Hblank. induction Hblank as [|l blank Hl _ IH].
    + cbn [app map]. rewrite chatLoop_cons. now rewrite Hq1, Hq2.
    + cbn [app map]. rewrite chatLoop_cons.
      apply TrimSpace_blank in Hl. rewrite Hl. cbn [String.eqb].
      now rewrite IH.
Qed.

Lemma chat_exit_witness :
  chat.chatLoop (fun _ => "0.750")
    (Scenario.demoApp "safe" true [Scenario.demoDoc]) f64_zero
    ["   "; ""; "  quit "; "What is a BMC?"] Scenario.store0
  = ([nl +:+ " >"; nl +:+ " >"; nl +:+ " >"; nl +:+ "👋 Goodbye!" +:+ nl],
     Scenario.store0).
Proof.
  apply (proj2 (chat_exit (fun _ => "0.750")
                  (Scenario.demoApp "safe" true [Scenario.demoDoc]) f64_zero
                  "  quit " ["What is a BMC?"] (or_intror eq_refl))
           ["   "; ""] Scenario.store0).
  repeat constructor.
Defined.
